(** * Verification of the website crawler (src/scrapers/websiteCrawler.ts)

    A shallow embedding of [getDomain], [normalizeUrl], [extractLinks] and of
    the breadth-first loop of [scrapeEmailsFromWebsite], with the properties
    the design document states about them.

    Modelling conventions.
    - A JavaScript [Set<string>] is an insertion-ordered list without
      duplicates (module [JSSet]); [forEach] walks it in list order.
    - JavaScript strings are Rocq strings; the link pattern only inspects
      ASCII characters, so a byte-wise reading agrees with the UTF-16 one.
    - [maxDepth], [maxPages] and frontier depths are integers ([Z]).
    - The platform ([URL], [fetch], the browser handle) and the collaborators
      that live outside this file ([extractAndNormalizeEmails],
      [scrapeEmailsFromPage]) are oracles: class [Platform] and the browser
      handle carried by the options.  An oracle sees the whole history of
      the run, so nothing is assumed about the web being stable.
    - A thrown exception is a value of type [thrown]; [try]/[catch] and
      [finally] are written out on sums.
    - The two callbacks belong to the caller: a call is recorded in the
      trace, and what it does (return, or throw) is given by the callback,
      which sees the history of the run.  An exception thrown by onError
      leaves the function; it is kept in the field [raised] of the state.
    - Awaits that never settle and wall-clock timeouts are not modelled. *)

From Stdlib Require Import List String Ascii ZArith NArith Bool Lia Arith.
From Stdlib Require Import Sorted DecimalString.
Import ListNotations.

Local Open Scope string_scope.
Local Open Scope list_scope.

(** ** JavaScript sets of strings *)

Module JSSet.

Definition t : Type := list string.

Definition empty : t := [].

Fixpoint has (x : string) (s : t) : bool :=
  match s with
  | [] => false
  | y :: s' => String.eqb x y || has x s'
  end.

Definition add (x : string) (s : t) : t :=
  if has x s then s else s ++ [x].

Definition size (s : t) : nat := List.length s.

(** [other.forEach(x => s.add(x))] *)
Definition addAll (other : t) (s : t) : t :=
  fold_left (fun acc x => add x acc) other s.

End JSSet.

(** ** The platform's URL record (WHATWG URL standard)

    The [URL] class belongs to the runtime, not to the repository.  The
    record holds the components of a parsed URL; [href], [hostname] and the
    [hash] setter follow the standard's serializer and API. *)

Record URL : Type := mkURL {
  scheme : string;
  username : string;
  password : string;
  host : option string;
  port : option N;
  path : string;
  opaquePath : bool;
  query : option string;
  fragment : option string
}.

Definition string_of_N (n : N) : string :=
  NilZero.string_of_uint (N.to_uint n).

Definition string_of_Z (z : Z) : string :=
  NilZero.string_of_int (Z.to_int z).

Definition startsWith2Slashes (s : string) : bool :=
  match s with
  | String "/" (String "/" _) => true
  | _ => false
  end.

(** The URL serializer, [exclude fragment] being false. *)
Definition href (u : URL) : string :=
  scheme u ++ ":" ++
  match host u with
  | Some h =>
      "//" ++
      (if (String.eqb (username u) "" && String.eqb (password u) "")%bool
       then ""
       else username u ++
            (if String.eqb (password u) "" then "" else ":" ++ password u) ++
            "@") ++
      h ++
      match port u with
      | Some p => ":" ++ string_of_N p
      | None => ""
      end
  | None =>
      if (negb (opaquePath u) && startsWith2Slashes (path u))%bool
      then "/." else ""
  end ++
  path u ++
  match query u with Some q => "?" ++ q | None => "" end ++
  match fragment u with Some f => "#" ++ f | None => "" end.

(** The [hostname] getter: the serialized host, or the empty string. *)
Definition hostname (u : URL) : string :=
  match host u with Some h => h | None => "" end.

(** A text without its trailing U+0020 characters. *)
Fixpoint stripTrailingSpaces (s : string) : string :=
  match s with
  | EmptyString => EmptyString
  | String c s' =>
      match stripTrailingSpaces s' with
      | EmptyString => if Ascii.eqb c " " then EmptyString
                       else String c EmptyString
      | r => String c r
      end
  end.

(** [u.hash = ''] : the fragment becomes null; the setter then strips the
    trailing spaces of an opaque path when the URL has no query either
    (the standard's step: potentially strip trailing spaces from an opaque
    path). *)
Definition clearHash (u : URL) : URL :=
  mkURL (scheme u) (username u) (password u) (host u) (port u)
        (if (opaquePath u &&
             match query u with None => true | Some _ => false end)%bool
         then stripTrailingSpaces (path u) else path u)
        (opaquePath u) (query u) None.

(** ** Exceptions, responses, browser pages, and the trace of a run *)

Record Error : Type := mkError { message : string }.

(** A thrown value: an [Error] object, or anything else, given by the
    string [String(value)] yields. *)
Inductive thrown : Type :=
| ThrownError (e : Error)
| ThrownOther (asString : string).

(** [error instanceof Error ? error : new Error(String(error))] *)
Definition toErrorObj (t : thrown) : Error :=
  match t with
  | ThrownError e => e
  | ThrownOther s => mkError s
  end.

Record Response : Type := mkResponse {
  ok : bool;
  status : Z;
  text : thrown + string
}.

Inductive event : Type :=
| EvShift (url : string) (depth : Z)          (* toVisit.shift() *)
| EvVisit (url : string) (depth : Z)          (* visited.add(url) *)
| EvFetch (url : string)                      (* fetch(url, ...) *)
| EvNewPage (opened : bool)                   (* browser.newPage() *)
| EvGoto (url : string)                       (* page.goto(url, ...) *)
| EvContent                                   (* page.content() *)
| EvScrape (url : string)                     (* scrapeEmailsFromPage(page, url, ...) *)
| EvClose                                     (* page.close() *)
| EvPageVisited (url : string) (depth : Z) (emailCount : nat)
| EvEnqueue (url : string) (depth : Z)        (* toVisit.push(...) *)
| EvOnError (url : string) (error : Error)
| EvConsoleError (url : string) (msg : string).

(** The callbacks of the caller.  What a call does is told by the history
    of the run and the arguments: [None] is a normal return, [Some t] the
    exception the call throws. *)
Definition PageVisitedCallback : Type :=
  list event -> string -> Z -> nat -> option thrown.

Definition ErrorCallback : Type :=
  list event -> string -> Error -> option thrown.

(** What the operations on one browser page do; [None] is a normal return. *)
Record PageScript : Type := mkPageScript {
  gotoResult : option thrown;
  contentResult : thrown + string;
  scrapeResult : thrown + JSSet.t;
  closeResult : option thrown
}.

(** A browser handle: [newPage()] throws, or gives a page. *)
Definition Browser : Type := list event -> string -> thrown + PageScript.

Class Platform : Type := {
  (** [new URL(input)] and [new URL(input, base)]; [None] when it throws *)
  newURL : string -> option URL -> option URL;
  (** the global [fetch]: rejects, or resolves to a response *)
  fetch : list event -> string -> thrown + Response;
  (** utils/emailExtractor *)
  extractAndNormalizeEmails : string -> JSSet.t
}.

(** ** getDomain, normalizeUrl *)

Definition getDomain `{Platform} (url : string) : string :=
  match newURL url None with
  | Some urlObj => hostname urlObj
  | None => ""
  end.

Definition normalizeUrl `{Platform} (url baseUrl : string) : option string :=
  match newURL baseUrl None with
  | Some base =>
      match newURL url (Some base) with
      | Some resolved => Some (href (clearHash resolved))
      | None => None
      end
  | None => None
  end.

(** ** The link pattern of extractLinks

    Written Q for the class of the two quote characters (double and single)
    and NQ for its complement, the pattern is [<a [^>]+ href= Q (NQ+) Q],
    with the flags [g] and [i]. *)

Definition dquote : ascii := "034"%char.

Definition isQuote (c : ascii) : bool :=
  (Ascii.eqb c dquote || Ascii.eqb c "'")%bool.

(** A letter of the pattern under the [i] flag. *)
Definition ciEq (c lower upper : ascii) : bool :=
  (Ascii.eqb c lower || Ascii.eqb c upper)%bool.

(** The longest prefix free of quotes, and what follows it. *)
Fixpoint spanNotQuote (s : list ascii) : list ascii * list ascii :=
  match s with
  | [] => ([], [])
  | c :: s' =>
      if isQuote c then ([], s)
      else let (p, r) := spanNotQuote s' in (c :: p, r)
  end.

(** [href= Q (NQ+) Q] at the head of [s]: the capture and the number of
    characters matched. *)
Definition matchHref (s : list ascii) : option (list ascii * nat) :=
  match s with
  | h :: r :: e :: f :: eq :: q :: s' =>
      if (ciEq h "h" "H" && ciEq r "r" "R" && ciEq e "e" "E" &&
          ciEq f "f" "F" && Ascii.eqb eq "=" && isQuote q)%bool
      then
        match spanNotQuote s' with
        | ((_ :: _) as cap, _ :: _) => Some (cap, 7 + List.length cap)
        | _ => None
        end
      else None
  | _ => None
  end.

(** The greedy [[^>]+] with backtracking, [k >= 1] characters of it already
    taken: longer runs are tried first. *)
Fixpoint matchAttrs (s : list ascii) (k : nat) : option (list ascii * nat) :=
  let here :=
    match matchHref s with
    | Some (cap, n) => Some (cap, k + n)
    | None => None
    end in
  match s with
  | [] => here
  | c :: s' =>
      if Ascii.eqb c ">" then here
      else match matchAttrs s' (S k) with
           | Some r => Some r
           | None => here
           end
  end.

(** The whole pattern at the head of [s]. *)
Definition matchAnchor (s : list ascii) : option (list ascii * nat) :=
  match s with
  | lt :: a :: c :: s' =>
      if (Ascii.eqb lt "<" && ciEq a "a" "A" && negb (Ascii.eqb c ">"))%bool
      then match matchAttrs s' 1 with
           | Some (cap, n) => Some (cap, 2 + n)
           | None => None
           end
      else None
  | _ => None
  end.

(** The [exec] loop of a global pattern: [skip] characters are still inside
    the previous match ([lastIndex] lies ahead). *)
Fixpoint execAll (skip : nat) (s : list ascii) : list (list ascii) :=
  match s with
  | [] => []
  | _ :: s' =>
      match skip with
      | S k => execAll k s'
      | O =>
          match matchAnchor s with
          | Some (cap, n) => cap :: execAll (n - 1) s'
          | None => execAll 0 s'
          end
      end
  end.

Definition hrefMatches (html : string) : list string :=
  map string_of_list_ascii (execAll 0 (list_ascii_of_string html)).

(** ** extractLinks *)

(** Truthiness of a [string | null]. *)
Definition truthy (v : option string) : bool :=
  match v with
  | Some s => negb (String.eqb s "")
  | None => false
  end.

Definition extractLinks `{Platform} (html baseUrl : string) : JSSet.t :=
  fold_left
    (fun links m =>
       let normalized := normalizeUrl m baseUrl in
       match normalized with
       | Some n => if truthy normalized then JSSet.add n links else links
       | None => links
       end)
    (hrefMatches html) JSSet.empty.

(** ** The crawl loop of scrapeEmailsFromWebsite *)

Record WebsiteCrawlerOptions : Type := mkOptions {
  maxDepth : Z;
  maxPages : Z;
  sameDomainOnly : bool;
  useBrowser : bool;
  browser : option Browser;
  onPageVisited : option PageVisitedCallback;
  onError : option ErrorCallback
}.

(** The defaults of the destructuring at the head of the function. *)
Definition defaultOptions : WebsiteCrawlerOptions :=
  mkOptions 3 50 true false None None None.

Definition FrontierEntry : Type := (string * Z)%type.

(** The variables of the function, the trace of what it has done, and the
    exception that has left the loop, if one has: it rejects the promise the
    function returned. *)
Record State : Type := mkState {
  allEmails : JSSet.t;
  visited : JSSet.t;
  toVisit : list FrontierEntry;
  trace : list event;
  raised : option thrown
}.

Definition initState (startUrl : string) : State :=
  mkState JSSet.empty JSSet.empty [(startUrl, 0%Z)] [] None.

(** The inner [try { goto; content; scrape } finally { close }]. *)
Definition runPage (ps : PageScript) (url : string)
  : list event * (thrown + (string * JSSet.t)) :=
  let '(evs, r) :=
    match gotoResult ps with
    | Some t => ([EvGoto url], inl t)
    | None =>
        match contentResult ps with
        | inl t => ([EvGoto url; EvContent], inl t)
        | inr html =>
            match scrapeResult ps with
            | inl t => ([EvGoto url; EvContent; EvScrape url], inl t)
            | inr emails =>
                ([EvGoto url; EvContent; EvScrape url], inr (html, emails))
            end
        end
    end in
  (evs ++ [EvClose],
   match closeResult ps with
   | Some t => inl t
   | None => r
   end).

(** The browser branch, from [browser.newPage()] on. *)
Definition browserFetch (b : Browser) (hist : list event) (url : string)
  : list event * (thrown + (string * JSSet.t)) :=
  match b hist url with
  | inl t => ([EvNewPage false], inl t)
  | inr ps => let '(evs, r) := runPage ps url in (EvNewPage true :: evs, r)
  end.

(** The HTTP branch. *)
Definition httpFetch `{Platform} (hist : list event) (url : string)
  : list event * (thrown + (string * JSSet.t)) :=
  ([EvFetch url],
   match fetch hist url with
   | inl t => inl t
   | inr response =>
       if negb (ok response)
       then inl (ThrownError
                   (mkError ("HTTP error! status: " ++ string_of_Z (status response))))
       else match text response with
            | inl t => inl t
            | inr html => inr (html, extractAndNormalizeEmails html)
            end
   end).

(** [if (useBrowser && browser) ... else ...] *)
Definition fetchPage `{Platform} (o : WebsiteCrawlerOptions)
           (hist : list event) (url : string)
  : list event * (thrown + (string * JSSet.t)) :=
  match useBrowser o, browser o with
  | true, Some b => browserFetch b hist url
  | _, _ => httpFetch hist url
  end.

(** The domain restriction on a dequeued entry:
    [sameDomainOnly && getDomain(url) !== startDomain]. *)
Definition rejectedByDomain `{Platform} (o : WebsiteCrawlerOptions)
           (startDomain url : string) : bool :=
  (sameDomainOnly o && negb (String.eqb (getDomain url) startDomain))%bool.

(** The test on a discovered link:
    [!visited.has(link) && (!sameDomainOnly || getDomain(link) === startDomain)]. *)
Definition linkAccepted `{Platform} (o : WebsiteCrawlerOptions)
           (startDomain : string) (visited' : JSSet.t) (link : string) : bool :=
  (negb (JSSet.has link visited') &&
   (negb (sameDomainOnly o) || String.eqb (getDomain link) startDomain))%bool.

(** The links of a page that [links.forEach] pushes onto the frontier. *)
Definition linksToEnqueue `{Platform} (o : WebsiteCrawlerOptions)
           (startDomain : string) (visited' : JSSet.t) (html url : string)
  : list string :=
  filter (linkAccepted o startDomain visited') (extractLinks html url).

(** The [catch] block: the callback if there is one, the console if not.
    The event recorded, and the exception the callback throws, if it does:
    nothing catches it. *)
Definition reportError (o : WebsiteCrawlerOptions) (hist : list event)
           (url : string) (error : thrown) : event * option thrown :=
  let errorObj := toErrorObj error in
  match onError o with
  | Some callback => (EvOnError url errorObj, callback hist url errorObj)
  | None => (EvConsoleError url (message errorObj), None)
  end.

(** [onPageVisited(url, depth, emails.size)], if the callback is there: the
    call made, and the exception it throws, if it does. *)
Definition notifyVisited (o : WebsiteCrawlerOptions) (hist : list event)
           (url : string) (depth : Z) (emails : JSSet.t)
  : list event * option thrown :=
  match onPageVisited o with
  | Some callback =>
      ([EvPageVisited url depth (JSSet.size emails)],
       callback hist url depth (JSSet.size emails))
  | None => ([], None)
  end.

(** [toVisit.length > 0 && visited.size < maxPages] *)
Definition loopCond (o : WebsiteCrawlerOptions) (st : State) : bool :=
  (Nat.ltb 0 (List.length (toVisit st)) &&
   Z.ltb (Z.of_nat (JSSet.size (visited st))) (maxPages o))%bool.

(** One iteration of the [while] loop.  The call of onPageVisited is inside
    the [try]: an exception it throws reaches the [catch] block after the
    addresses of the page were merged, and no link of the page is pushed. *)
Definition loopBody `{Platform} (o : WebsiteCrawlerOptions)
           (startDomain : string) (st : State) : State :=
  match toVisit st with
  | [] => st
  | (url, depth) :: rest =>
      let tr0 := trace st ++ [EvShift url depth] in
      if JSSet.has url (visited st) then
        mkState (allEmails st) (visited st) rest tr0 None
      else if Z.gtb depth (maxDepth o) then
        mkState (allEmails st) (visited st) rest tr0 None
      else if rejectedByDomain o startDomain url then
        mkState (allEmails st) (visited st) rest tr0 None
      else
        let visited' := JSSet.add url (visited st) in
        let tr1 := tr0 ++ [EvVisit url depth] in
        let '(evs, r) := fetchPage o tr1 url in
        let tr2 := tr1 ++ evs in
        match r with
        | inr (html, emails) =>
            let allEmails' := JSSet.addAll emails (allEmails st) in
            let '(called, thrownByCallback) :=
              notifyVisited o tr2 url depth emails in
            let tr3 := tr2 ++ called in
            match thrownByCallback with
            | None =>
                let links :=
                  if Z.ltb depth (maxDepth o)
                  then linksToEnqueue o startDomain visited' html url
                  else [] in
                mkState allEmails' visited'
                        (rest ++ map (fun link => (link, (depth + 1)%Z)) links)
                        (tr3 ++ map (fun link => EvEnqueue link (depth + 1)%Z) links)
                        None
            | Some error =>
                let '(ev, out) := reportError o tr3 url error in
                mkState allEmails' visited' rest (tr3 ++ [ev]) out
            end
        | inl error =>
            let '(ev, out) := reportError o tr2 url error in
            mkState (allEmails st) visited' rest (tr2 ++ [ev]) out
        end
  end.

(** The loop goes on: no exception has left it and the [while] condition
    holds. *)
Definition running (o : WebsiteCrawlerOptions) (st : State) : bool :=
  match raised st with
  | Some _ => false
  | None => loopCond o st
  end.

(** The state after at most [n] iterations. *)
Fixpoint iterate `{Platform} (o : WebsiteCrawlerOptions) (startDomain : string)
         (n : nat) (st : State) : State :=
  match n with
  | O => st
  | S k =>
      if running o st then iterate o startDomain k (loopBody o startDomain st)
      else st
  end.

(** The loop with fuel: [Some] once the loop has ended. *)
Fixpoint runLoop `{Platform} (o : WebsiteCrawlerOptions) (startDomain : string)
         (fuel : nat) (st : State) : option State :=
  match fuel with
  | O => None
  | S k =>
      if running o st then runLoop o startDomain k (loopBody o startDomain st)
      else Some st
  end.

Definition crawl `{Platform} (fuel : nat) (startUrl : string)
           (o : WebsiteCrawlerOptions) : option State :=
  runLoop o (getDomain startUrl) fuel (initState startUrl).

(** How the function ends: [return allEmails], or the exception that left
    the loop. *)
Definition completion (final : State) : thrown + JSSet.t :=
  match raised final with
  | Some t => inl t
  | None => inr (allEmails final)
  end.

Definition scrapeEmailsFromWebsite `{Platform} (fuel : nat) (startUrl : string)
           (o : WebsiteCrawlerOptions) : option (thrown + JSSet.t) :=
  option_map completion (crawl fuel startUrl o).

(** The state of a run after [n] iterations (or at its end, if earlier). *)
Definition stateAt `{Platform} (o : WebsiteCrawlerOptions) (startUrl : string)
           (n : nat) : State :=
  iterate o (getDomain startUrl) n (initState startUrl).

(** The states a run goes through, at the head of the loop and at its
    end. *)
Inductive reachable `{Platform} (o : WebsiteCrawlerOptions) (startUrl : string)
  : State -> Prop :=
| reach_init : reachable o startUrl (initState startUrl)
| reach_step : forall st,
    reachable o startUrl st ->
    running o st = true ->
    reachable o startUrl (loopBody o (getDomain startUrl) st).

(** How the [try] block of an iteration fails, [hist] being the history
    when the fetch strategy has ended with [r]: in the fetch strategy, with
    nothing merged; or in onPageVisited, with the addresses of the page
    merged into [allEmails0].  The result set, the call made and the
    exception caught. *)
Inductive tryFails (o : WebsiteCrawlerOptions) (hist : list event)
          (url : string) (depth : Z) (allEmails0 : JSSet.t)
  : thrown + (string * JSSet.t) -> JSSet.t -> list event -> thrown -> Prop :=
| fails_in_fetch : forall error,
    tryFails o hist url depth allEmails0 (inl error) allEmails0 [] error
| fails_in_callback : forall html emails called error,
    notifyVisited o hist url depth emails = (called, Some error) ->
    tryFails o hist url depth allEmails0 (inr (html, emails))
             (JSSet.addAll emails allEmails0) called error.

(** The three ways an iteration on the entry [(url, depth)] can end: the
    entry is skipped, its page is processed, or the [catch] block is
    entered. *)
Inductive stepOutcome `{Platform} (o : WebsiteCrawlerOptions)
          (startDomain : string) (st : State)
          (url : string) (depth : Z) (rest : list FrontierEntry)
  : State -> Prop :=
| outcome_skip :
    JSSet.has url (visited st) = true \/ (maxDepth o < depth)%Z \/
    rejectedByDomain o startDomain url = true ->
    stepOutcome o startDomain st url depth rest
      (mkState (allEmails st) (visited st) rest
               (trace st ++ [EvShift url depth]) None)
| outcome_ok : forall evs html emails called links,
    JSSet.has url (visited st) = false ->
    (depth <= maxDepth o)%Z ->
    rejectedByDomain o startDomain url = false ->
    fetchPage o (trace st ++ [EvShift url depth; EvVisit url depth]) url =
      (evs, inr (html, emails)) ->
    notifyVisited o (trace st ++ EvShift url depth :: EvVisit url depth :: evs)
                  url depth emails = (called, None) ->
    links = (if Z.ltb depth (maxDepth o)
             then linksToEnqueue o startDomain
                    (JSSet.add url (visited st)) html url
             else []) ->
    stepOutcome o startDomain st url depth rest
      (mkState (JSSet.addAll emails (allEmails st))
               (JSSet.add url (visited st))
               (rest ++ map (fun link => (link, (depth + 1)%Z)) links)
               (trace st ++ EvShift url depth :: EvVisit url depth :: evs ++
                called ++
                map (fun link => EvEnqueue link (depth + 1)%Z) links)
               None)
| outcome_caught : forall evs r emails' called error ev out,
    JSSet.has url (visited st) = false ->
    (depth <= maxDepth o)%Z ->
    rejectedByDomain o startDomain url = false ->
    fetchPage o (trace st ++ [EvShift url depth; EvVisit url depth]) url =
      (evs, r) ->
    tryFails o (trace st ++ EvShift url depth :: EvVisit url depth :: evs)
             url depth (allEmails st) r emails' called error ->
    reportError o (trace st ++ EvShift url depth :: EvVisit url depth :: evs ++
                   called) url error = (ev, out) ->
    stepOutcome o startDomain st url depth rest
      (mkState emails' (JSSet.add url (visited st)) rest
               (trace st ++ EvShift url depth :: EvVisit url depth :: evs ++
                called ++ [ev])
               out).

(** ** Reading a trace *)

(** The URLs the loop itself fetches ([fetch] or [page.goto]), in order. *)
Fixpoint fetchedUrls (tr : list event) : list string :=
  match tr with
  | [] => []
  | EvFetch u :: tr' => u :: fetchedUrls tr'
  | EvGoto u :: tr' => u :: fetchedUrls tr'
  | _ :: tr' => fetchedUrls tr'
  end.

(** The URLs given to any operation of the platform (fetch, goto, or the
    page scraper), in order. *)
Fixpoint platformUrls (tr : list event) : list string :=
  match tr with
  | [] => []
  | EvFetch u :: tr' => u :: platformUrls tr'
  | EvGoto u :: tr' => u :: platformUrls tr'
  | EvScrape u :: tr' => u :: platformUrls tr'
  | _ :: tr' => platformUrls tr'
  end.

(** The entries accepted for processing, in order. *)
Fixpoint visits (tr : list event) : list FrontierEntry :=
  match tr with
  | [] => []
  | EvVisit u d :: tr' => (u, d) :: visits tr'
  | _ :: tr' => visits tr'
  end.

(** The entries taken from the head of the frontier, in order. *)
Fixpoint shifted (tr : list event) : list FrontierEntry :=
  match tr with
  | [] => []
  | EvShift u d :: tr' => (u, d) :: shifted tr'
  | _ :: tr' => shifted tr'
  end.

(** The entries pushed onto the frontier, in order. *)
Fixpoint enqueued (tr : list event) : list FrontierEntry :=
  match tr with
  | [] => []
  | EvEnqueue u d :: tr' => (u, d) :: enqueued tr'
  | _ :: tr' => enqueued tr'
  end.

(** The errors reported, by callback or on the console. *)
Fixpoint reportedErrors (tr : list event) : list (string * string) :=
  match tr with
  | [] => []
  | EvOnError u e :: tr' => (u, message e) :: reportedErrors tr'
  | EvConsoleError u m :: tr' => (u, m) :: reportedErrors tr'
  | _ :: tr' => reportedErrors tr'
  end.

(** Page discipline of a trace, [open] telling whether a page is open at
    its start: a page is opened only when none is open, closed only when
    open, and none is open when an entry is taken from the frontier or when
    the trace ends. *)
Fixpoint pagesReleased (tr : list event) (open : bool) : bool :=
  match tr with
  | [] => negb open
  | EvNewPage true :: tr' => (negb open && pagesReleased tr' true)%bool
  | EvClose :: tr' => (open && pagesReleased tr' false)%bool
  | EvShift _ _ :: tr' => (negb open && pagesReleased tr' false)%bool
  | _ :: tr' => pagesReleased tr' open
  end.

(** The pattern of extractLinks, read as a property of the text: [s] starts
    with [href=], a quote, the value [cap] free of quotes, and a quote. *)
Definition hrefValueAt (s cap : list ascii) : Prop :=
  exists h r e f q1 q2 post,
    s = h :: r :: e :: f :: "="%char :: q1 :: cap ++ q2 :: post /\
    ciEq h "h" "H" = true /\ ciEq r "r" "R" = true /\
    ciEq e "e" "E" = true /\ ciEq f "f" "F" = true /\
    isQuote q1 = true /\ isQuote q2 = true /\
    cap <> [] /\ (forall c, In c cap -> isQuote c = false).

(** [cap] is such a value inside an [<a ...] run of [html]: after [<a] come
    one or more characters other than [>], then the [href=]. *)
Definition anchorHrefIn (html cap : list ascii) : Prop :=
  exists pre a mid tl,
    html = pre ++ "<"%char :: a :: mid ++ tl /\
    ciEq a "a" "A" = true /\
    mid <> [] /\ (forall c, In c mid -> c <> ">"%char) /\
    hrefValueAt tl cap.

(** The depth of the first entry for [u] in a list of entries. *)
Fixpoint firstDepth (u : string) (es : list FrontierEntry) : option Z :=
  match es with
  | [] => None
  | (v, d) :: es' => if String.eqb u v then Some d else firstDepth u es'
  end.

(** ** Statements of the invariants *)

(** What the events of a fetch strategy can be: nothing but calls of the
    platform, at most one URL handed over, and every opened page closed. *)
Record fetchEvents (url : string) (evs : list event) : Prop := {
  fe_visits : visits evs = [];
  fe_shifted : shifted evs = [];
  fe_enqueued : enqueued evs = [];
  fe_errors : reportedErrors evs = [];
  fe_fetched : fetchedUrls evs = [] \/ fetchedUrls evs = [url];
  fe_released : pagesReleased evs false = true
}.

(** Book-keeping: the visited set lists the processed URLs in order, and
    the frontier is what was pushed and not yet shifted, in order. *)
Record bookKeeping (startUrl : string) (st : State) : Prop := {
  bk_visited : visited st = map fst (visits (trace st));
  bk_nodup : NoDup (visited st);
  bk_fifo : (startUrl, 0%Z) :: enqueued (trace st) =
            shifted (trace st) ++ toVisit st
}.

(** The depth ceiling. *)
Record depthBounds (o : WebsiteCrawlerOptions) (st : State) : Prop := {
  db_queue : forall u d, In (u, d) (toVisit st) -> (0 <= d)%Z;
  db_visits : forall u d,
      In (u, d) (visits (trace st)) -> (0 <= d <= maxDepth o)%Z;
  db_enqueued : forall l d,
      In (l, d) (enqueued (trace st)) ->
      (d <= maxDepth o)%Z /\ exists u, In (u, (d - 1)%Z) (visits (trace st));
  db_fetched : incl (fetchedUrls (trace st)) (map fst (visits (trace st)))
}.

(** Level order on depths: the processed depths and the frontier depths are
    nondecreasing, the frontier follows the processed entries, and the
    frontier spans at most two consecutive levels. *)
Definition levels (done queue : list Z) : Prop :=
  StronglySorted Z.le done /\
  StronglySorted Z.le queue /\
  (forall p q, In p done -> In q queue -> (p <= q)%Z) /\
  (forall q1 q2, In q1 queue -> In q2 queue -> (q2 <= q1 + 1)%Z).

(** First discovery: an entry taken from the frontier and not processed was
    a duplicate, out of scope or too deep; a processed URL was processed at
    the depth of its first entry in the frontier. *)
Record firstDiscovery `{Platform} (o : WebsiteCrawlerOptions)
       (startUrl : string) (st : State) : Prop := {
  fd_shifted : forall u d,
      In (u, d) (shifted (trace st)) ->
      In u (visited st) \/
      rejectedByDomain o (getDomain startUrl) u = true \/
      (maxDepth o < d)%Z;
  fd_first : forall u d,
      In (u, d) (visits (trace st)) ->
      firstDepth u ((startUrl, 0%Z) :: enqueued (trace st)) = Some d
}.

(** ** A URL parser for the examples

    An executable reading of the WHATWG parser on the inputs the examples
    need: [http] and [https] URLs with a domain-name host, an optional port
    and no credentials, and references relative to such a base.  Dot
    segments are removed as the standard's path state does.  Percent-encoding
    and host normalisation beyond lower-casing are left out; every other
    input is rejected.  The general theorems do not depend on this parser:
    they hold for every [Platform]. *)

Module Whatwg.

Definition isUpper (c : ascii) : bool :=
  (Nat.leb 65 (nat_of_ascii c) && Nat.leb (nat_of_ascii c) 90)%bool.
Definition isLower (c : ascii) : bool :=
  (Nat.leb 97 (nat_of_ascii c) && Nat.leb (nat_of_ascii c) 122)%bool.
Definition isDigit (c : ascii) : bool :=
  (Nat.leb 48 (nat_of_ascii c) && Nat.leb (nat_of_ascii c) 57)%bool.
Definition isAlpha (c : ascii) : bool := (isUpper c || isLower c)%bool.
Definition lower (c : ascii) : ascii :=
  if isUpper c then ascii_of_nat (nat_of_ascii c + 32) else c.

(** The part before the first [d], and the part after it if [d] occurs. *)
Fixpoint cut (d : ascii) (s : list ascii) : list ascii * option (list ascii) :=
  match s with
  | [] => ([], None)
  | c :: s' =>
      if Ascii.eqb c d then ([], Some s')
      else let (a, b) := cut d s' in (c :: a, b)
  end.

Fixpoint splitOn (d : ascii) (s : list ascii) : list (list ascii) :=
  match s with
  | [] => [[]]
  | c :: s' =>
      if Ascii.eqb c d then [] :: splitOn d s'
      else match splitOn d s' with
           | seg :: segs => (c :: seg) :: segs
           | [] => [[c]]
           end
  end.

Fixpoint takeScheme (s : list ascii) : option (list ascii * list ascii) :=
  match s with
  | [] => None
  | c :: s' =>
      if Ascii.eqb c ":" then Some ([], s')
      else if (isAlpha c || isDigit c || Ascii.eqb c "+" ||
               Ascii.eqb c "-" || Ascii.eqb c ".")%bool
      then match takeScheme s' with
           | Some (a, r) => Some (lower c :: a, r)
           | None => None
           end
      else None
  end.

Definition splitScheme (s : list ascii) : option (list ascii * list ascii) :=
  match s with
  | c :: _ => if isAlpha c then takeScheme s else None
  | [] => None
  end.

Definition isDot (seg : list ascii) : bool :=
  match seg with ["."%char] => true | _ => false end.
Definition isDotDot (seg : list ascii) : bool :=
  match seg with ["."%char; "."%char] => true | _ => false end.

(** The path state, segment by segment. *)
Fixpoint pathState (segs acc : list (list ascii)) : list (list ascii) :=
  match segs with
  | [] => acc
  | seg :: rest =>
      let trailing := match rest with [] => [[]] | _ => [] end in
      if isDotDot seg then pathState rest (removelast acc ++ trailing)
      else if isDot seg then pathState rest (acc ++ trailing)
      else pathState rest (acc ++ [seg])
  end.

Definition serializePath (segs : list (list ascii)) : string :=
  string_of_list_ascii (List.concat (map (fun seg => "/"%char :: seg) segs)).

Definition segmentsOf (p : list ascii) : list (list ascii) :=
  match p with
  | "/"%char :: p' => splitOn "/" p'
  | _ => splitOn "/" p
  end.

Fixpoint digitsValue (s : list ascii) (acc : N) : option N :=
  match s with
  | [] => Some acc
  | c :: s' =>
      if isDigit c
      then digitsValue s' (acc * 10 + N.of_nat (nat_of_ascii c - 48))%N
      else None
  end.

Definition defaultPort (sch : string) : option N :=
  if String.eqb sch "http" then Some 80%N
  else if String.eqb sch "https" then Some 443%N
  else None.

Definition optN_eqb (a b : option N) : bool :=
  match a, b with
  | Some x, Some y => N.eqb x y
  | None, None => true
  | _, _ => false
  end.

Definition isHostChar (c : ascii) : bool :=
  (isAlpha c || isDigit c || Ascii.eqb c "-" || Ascii.eqb c ".")%bool.

(** [host[:port]] followed by an absolute path, after the two slashes. *)
Definition parseAuthority (sch : string) (s : list ascii)
           (q f : option string) : option URL :=
  let (authority, p) := cut "/" s in
  let (h, portStr) := cut ":" authority in
  match h with
  | [] => None
  | _ :: _ =>
      if forallb isHostChar h then
        match
          match portStr with
          | None | Some [] => Some None
          | Some ds =>
              match digitsValue ds 0 with
              | Some n =>
                  if N.ltb 65535 n then None
                  else if optN_eqb (Some n) (defaultPort sch)
                       then Some None else Some (Some n)
              | None => None
              end
          end
        with
        | Some prt =>
            Some (mkURL sch "" "" (Some (string_of_list_ascii (map lower h)))
                        prt
                        (serializePath
                           (pathState
                              (splitOn "/" match p with Some r => r | None => [] end)
                              []))
                        false q f)
        | None => None
        end
      else None
  end.

Definition isSpecial (sch : string) : bool :=
  (String.eqb sch "http" || String.eqb sch "https")%bool.

Definition parse (input : string) (base : option URL) : option URL :=
  let (s1, fr) := cut "#" (list_ascii_of_string input) in
  let (s2, qu) := cut "?" s1 in
  let f := option_map string_of_list_ascii fr in
  let q := option_map string_of_list_ascii qu in
  match splitScheme s2 with
  | Some (sch, rest) =>
      let sch := string_of_list_ascii sch in
      if isSpecial sch then
        match rest with
        | "/"%char :: "/"%char :: r => parseAuthority sch r q f
        | _ => None
        end
      else None
  | None =>
      match base with
      | None => None
      | Some b =>
          if (isSpecial (scheme b) && negb (opaquePath b))%bool then
            match s2 with
            | "/"%char :: "/"%char :: r => parseAuthority (scheme b) r q f
            | "/"%char :: r =>
                Some (mkURL (scheme b) (username b) (password b) (host b)
                            (port b)
                            (serializePath (pathState (splitOn "/" r) []))
                            false q f)
            | [] =>
                Some (mkURL (scheme b) (username b) (password b) (host b)
                            (port b) (path b) false
                            (match q with Some _ => q | None => query b end)
                            f)
            | _ =>
                Some (mkURL (scheme b) (username b) (password b) (host b)
                            (port b)
                            (serializePath
                               (pathState
                                  (splitOn "/" s2)
                                  (removelast
                                     (segmentsOf
                                        (list_ascii_of_string (path b))))))
                            false q f)
            end
          else None
      end
  end.

End Whatwg.

(** The platform of the examples: the parser above, a table of pages served
    over HTTP, and a table of the addresses the extractor finds in a body. *)
Definition lookup {A : Type} (k : string) (tbl : list (string * A)) : option A :=
  match find (fun kv => String.eqb k (fst kv)) tbl with
  | Some kv => Some (snd kv)
  | None => None
  end.

Definition tablePlatform (pages : list (string * (thrown + Response)))
           (emails : list (string * JSSet.t)) : Platform :=
  {| newURL := Whatwg.parse;
     fetch := fun _ url =>
       match lookup url pages with
       | Some r => r
       | None => inl (ThrownError (mkError "fetch failed"))
       end;
     extractAndNormalizeEmails := fun html =>
       match lookup html emails with
       | Some s => s
       | None => JSSet.empty
       end |}.

Definition okPage (body : string) : thrown + Response :=
  inr (mkResponse true 200 (inr body)).

(** Callbacks that only observe: they return normally whatever they are
    given. *)
Definition observeVisited : PageVisitedCallback := fun _ _ _ _ => None.

Definition observeError : ErrorCallback := fun _ _ _ => None.

(** ** The worlds of the scenarios *)

Module Scenario.

(** A: a start page with a contact link and an address. *)
Definition homeA : string :=
  "<a href='/contact'>Contact</a> reach us at info@example.com".
Definition worldA : Platform :=
  tablePlatform
    [("https://example.com", okPage homeA);
     ("https://example.com/contact", okPage "write to sales@example.com")]
    [(homeA, ["info@example.com"]);
     ("write to sales@example.com", ["sales@example.com"])].
Definition optionsA : WebsiteCrawlerOptions :=
  mkOptions 1 50 true false None (Some observeVisited) (Some observeError).

(** B: a start page with five links, and a budget of one page. *)
Definition homeB : string :=
  "<a href='/p1'>1</a><a href='/p2'>2</a><a href='/p3'>3</a><a href='/p4'>4</a><a href='/p5'>5</a>".
Definition worldB : Platform :=
  tablePlatform
    [("https://site.example/", okPage homeB);
     ("https://site.example/p1", okPage "one@site.example");
     ("https://site.example/p2", okPage "two@site.example");
     ("https://site.example/p3", okPage "three@site.example");
     ("https://site.example/p4", okPage "four@site.example");
     ("https://site.example/p5", okPage "five@site.example")]
    [("one@site.example", ["one@site.example"])].
Definition optionsB : WebsiteCrawlerOptions :=
  mkOptions 3 1 true false None (Some observeVisited) (Some observeError).

(** D: a link that leaves the start domain. *)
Definition homeD : string := "<a href='https://b.example/page'>elsewhere</a>".
Definition worldD : Platform :=
  tablePlatform
    [("https://a.example", okPage homeD);
     ("https://b.example/page", okPage "other@b.example")]
    [("other@b.example", ["other@b.example"])].
Definition optionsD : WebsiteCrawlerOptions :=
  mkOptions 3 50 true false None (Some observeVisited) (Some observeError).

(** E: the second frontier entry fails with a network error. *)
Definition homeE : string := "<a href='/down'>x</a><a href='/up'>y</a>".
Definition networkError : thrown := ThrownError (mkError "fetch failed").
Definition worldE : Platform :=
  tablePlatform
    [("https://a.example/", okPage homeE);
     ("https://a.example/down", inl networkError);
     ("https://a.example/up", okPage "up@a.example")]
    [("up@a.example", ["up@a.example"])].
Definition optionsE : WebsiteCrawlerOptions :=
  mkOptions 3 50 true false None (Some observeVisited) (Some observeError).

(** Browser mode asked for, no browser handle given. *)
Definition optionsNoBrowser : WebsiteCrawlerOptions :=
  mkOptions 1 50 true true None (Some observeVisited) (Some observeError).

(** Same host under another scheme and port. *)
Definition homeP : string := "<a href='http://a.example:8080/x'>x</a>".
Definition worldP : Platform :=
  tablePlatform
    [("https://a.example", okPage homeP);
     ("http://a.example:8080/x", okPage "x@a.example")]
    [("x@a.example", ["x@a.example"])].

(** A browser whose pages fail at a chosen operation. *)
Definition flakyBrowser : Browser := fun _ url =>
  if String.eqb url "https://a.example/down"
  then inr (mkPageScript (Some networkError) (inr "") (inr []) None)
  else inr (mkPageScript None (inr homeE) (inr ["e@a.example"]) None).
Definition optionsBrowser : WebsiteCrawlerOptions :=
  mkOptions 1 50 true true (Some flakyBrowser) (Some observeVisited) None.

(** The world of B again, with a depth ceiling of one and a budget of one
    page: the five links wait on the frontier at the depth ceiling. *)
Definition optionsShallow : WebsiteCrawlerOptions :=
  mkOptions 1 1 true false None (Some observeVisited) (Some observeError).

(** The world of E with a budget of two pages: the budget is used up by
    the start page and the page that fails. *)
Definition optionsTwoPages : WebsiteCrawlerOptions :=
  mkOptions 3 2 true false None (Some observeVisited) (Some observeError).

(** An onError that throws what it is given. *)
Definition rethrow : ErrorCallback := fun _ _ error => Some (ThrownError error).
Definition optionsRethrow : WebsiteCrawlerOptions :=
  mkOptions 3 50 true false None (Some observeVisited) (Some rethrow).

(** An onPageVisited that throws on every page. *)
Definition refuseVisit : PageVisitedCallback :=
  fun _ _ _ _ => Some (ThrownError (mkError "visit refused")).
Definition optionsRefuse : WebsiteCrawlerOptions :=
  mkOptions 3 50 true false None (Some refuseVisit) (Some observeError).

(** A page with the name of an element that starts with the letter a and an
    attribute whose name ends in href. *)
Definition homeAbbr : string := "<abbr data-href='/x'>e.g.</abbr>".

End Scenario.

(** ** Further readings of a trace *)

(** The calls of onPageVisited and of onError recorded in a trace: the
    counters [pagesVisited] and [errors] of the command-line front end. *)
Fixpoint pageVisitedCalls (tr : list event) : nat :=
  match tr with
  | [] => 0
  | EvPageVisited _ _ _ :: tr' => S (pageVisitedCalls tr')
  | _ :: tr' => pageVisitedCalls tr'
  end.

Fixpoint onErrorCalls (tr : list event) : nat :=
  match tr with
  | [] => 0
  | EvOnError _ _ :: tr' => S (onErrorCalls tr')
  | _ :: tr' => onErrorCalls tr'
  end.

(** The errors reported, by callback or on the console, each with the
    history of the run before the report; [pre] is the history before
    [tr]. *)
Fixpoint reportsIn (pre tr : list event)
  : list (list event * (string * string)) :=
  match tr with
  | [] => []
  | e :: tr' =>
      match e with
      | EvOnError u err => [(pre, (u, message err))]
      | EvConsoleError u m => [(pre, (u, m))]
      | _ => []
      end ++ reportsIn (pre ++ [e]) tr'
  end.

(** The onError callback, if supplied, returns normally whenever called. *)
Definition onErrorReturns (o : WebsiteCrawlerOptions) : Prop :=
  forall callback, onError o = Some callback ->
  forall hist url error, callback hist url error = None.

(** The onPageVisited callback, if supplied, returns normally whenever
    called with a depth of at least zero. *)
Definition onPageVisitedReturns (o : WebsiteCrawlerOptions) : Prop :=
  forall callback, onPageVisited o = Some callback ->
  forall hist url depth count,
    (0 <= depth)%Z -> callback hist url depth count = None.

(** The events that are calls of the platform. *)
Definition isPlatformEvent (e : event) : bool :=
  match e with
  | EvFetch _ | EvNewPage _ | EvGoto _ | EvContent | EvScrape _ | EvClose => true
  | _ => false
  end.

(** Is the browser strategy the one in use? [useBrowser && browser] *)
Definition browserMode (o : WebsiteCrawlerOptions) : bool :=
  (useBrowser o && match browser o with Some _ => true | None => false end)%bool.

(** The start of a fetch of [u] by the strategy in use: [fetch(u)] is the
    one call; or newPage is called and, when it returned a page, the next
    call is [page.goto(u)]. *)
Definition startsFetch (o : WebsiteCrawlerOptions) (u : string)
           (evs : list event) : bool :=
  match evs with
  | [EvFetch v] => (negb (browserMode o) && String.eqb v u)%bool
  | [EvNewPage false] => browserMode o
  | EvNewPage true :: EvGoto v :: _ => (browserMode o && String.eqb v u)%bool
  | _ => false
  end.

(** The platform calls that belong to the strategy in use. *)
Definition strategyEvent (o : WebsiteCrawlerOptions) (e : event) : bool :=
  match e with
  | EvFetch _ => negb (browserMode o)
  | EvNewPage _ | EvGoto _ | EvContent | EvScrape _ | EvClose => browserMode o
  | _ => true
  end.

(** ** The design document's reading of a link

    An anchor href value, in the words of the design document: the value of
    an attribute named [href] of an element named [a].  In the text, the
    name of the element ends where white space follows [<a], and the name
    of the attribute starts after white space.  As in the pattern, the two
    quote characters around the value need not be the same one, which only
    widens this reading. *)

Definition isHtmlSpace (c : ascii) : bool :=
  let n := nat_of_ascii c in
  (Nat.eqb n 32 || Nat.eqb n 9 || Nat.eqb n 10 || Nat.eqb n 12 ||
   Nat.eqb n 13)%bool.

Definition anchorElementHref (html cap : list ascii) : Prop :=
  exists pre a ws mid tl,
    html = pre ++ "<"%char :: a :: ws :: mid ++ tl /\
    ciEq a "a" "A" = true /\
    isHtmlSpace ws = true /\
    (forall c, In c mid -> c <> ">"%char) /\
    isHtmlSpace (last mid ws) = true /\
    hrefValueAt tl cap.

(** Does the text hold [<a] followed by white space? *)
Fixpoint hasAnchorName (s : list ascii) : bool :=
  match s with
  | [] => false
  | lt :: s' =>
      (match s' with
       | a :: ws :: _ =>
           (Ascii.eqb lt "<" && ciEq a "a" "A" && isHtmlSpace ws)%bool
       | _ => false
       end || hasAnchorName s')%bool
  end.

(** ** Further readings of the link pattern *)

(** No suffix of [t], continued by [post], starts with a match of the
    [href=] part of the pattern. *)
Fixpoint noHrefIn (t post : list ascii) : Prop :=
  matchHref (t ++ post) = None /\
  match t with
  | [] => True
  | _ :: t' => noHrefIn t' post
  end.

(** The text of a plain anchor [<a href=QvQ>] with the quote [q]. *)
Definition plainAnchor (q : ascii) (v : list ascii) : list ascii :=
  "<"%char :: "a"%char :: " "%char ::
  "h"%char :: "r"%char :: "e"%char :: "f"%char :: "="%char :: q ::
  v ++ [q; ">"%char].

(** ** The browser factory (utils/browserFactory.ts)

    [createBrowser] imports Playwright, then Puppeteer, and launches the
    first that is installed.  An engine is given by what importing it and
    launching it do: [None] when the import fails ([tryImport...] returns
    null), otherwise the outcome of [launch()]. *)

Module BrowserFactory.

Record Engines (B : Type) : Type := mkEngines {
  playwright : option (thrown + B);
  puppeteer : option (thrown + B)
}.
Arguments mkEngines {B} _ _.
Arguments playwright {B} _.
Arguments puppeteer {B} _.

Inductive factoryEvent : Type :=
| ImportPlaywright
| LaunchPlaywright
| ImportPuppeteer
| LaunchPuppeteer.

Definition newline : string := String "010"%char EmptyString.

(** [error instanceof Error ? error.message : String(error)] *)
Definition errorText (t : thrown) : string := message (toErrorObj t).

Definition playwrightLaunchMessage (t : thrown) : string :=
  "Failed to launch Playwright browser: " ++ errorText t ++ newline ++
  "Make sure Playwright browsers are installed: npx playwright install chromium".

Definition puppeteerLaunchMessage (t : thrown) : string :=
  "Failed to launch Puppeteer browser: " ++ errorText t.

Definition noLibraryMessage : string :=
  "No browser library found. Please install either playwright or puppeteer:" ++
  newline ++ "  npm install playwright" ++ newline ++ "  or" ++ newline ++
  "  npm install puppeteer".

(** The calls made, and the browser returned or the error thrown. *)
Definition createBrowser {B : Type} (e : Engines B)
  : list factoryEvent * (Error + B) :=
  match playwright e with
  | Some launch =>
      ([ImportPlaywright; LaunchPlaywright],
       match launch with
       | inr b => inr b
       | inl t => inl (mkError (playwrightLaunchMessage t))
       end)
  | None =>
      match puppeteer e with
      | Some launch =>
          ([ImportPlaywright; ImportPuppeteer; LaunchPuppeteer],
           match launch with
           | inr b => inr b
           | inl t => inl (mkError (puppeteerLaunchMessage t))
           end)
      | None =>
          ([ImportPlaywright; ImportPuppeteer], inl (mkError noLibraryMessage))
      end
  end.

End BrowserFactory.

(** ** The crawl loop on the numbers the command line produces

    The front end passes [parseInt(...)] to the crawler unchecked, so the
    two limits can be NaN.  A number is an integer or NaN ([None]); a
    comparison with NaN is false.  The loop below is the loop of
    scrapeEmailsFromWebsite with its three comparisons read that way; the
    other options are taken from [o], whose two numeric fields are not
    used. *)

Definition num : Type := option Z.

(** [a < b] and [a > b] for an integer [a]. *)
Definition numLt (a : Z) (b : num) : bool :=
  match b with Some b => Z.ltb a b | None => false end.

Definition numGt (a : Z) (b : num) : bool :=
  match b with Some b => Z.gtb a b | None => false end.

Definition loopCondNum (mp : num) (st : State) : bool :=
  (Nat.ltb 0 (List.length (toVisit st)) &&
   numLt (Z.of_nat (JSSet.size (visited st))) mp)%bool.

Definition loopBodyNum `{Platform} (md : num) (o : WebsiteCrawlerOptions)
           (startDomain : string) (st : State) : State :=
  match toVisit st with
  | [] => st
  | (url, depth) :: rest =>
      let tr0 := trace st ++ [EvShift url depth] in
      if JSSet.has url (visited st) then
        mkState (allEmails st) (visited st) rest tr0 None
      else if numGt depth md then
        mkState (allEmails st) (visited st) rest tr0 None
      else if rejectedByDomain o startDomain url then
        mkState (allEmails st) (visited st) rest tr0 None
      else
        let visited' := JSSet.add url (visited st) in
        let tr1 := tr0 ++ [EvVisit url depth] in
        let '(evs, r) := fetchPage o tr1 url in
        let tr2 := tr1 ++ evs in
        match r with
        | inr (html, emails) =>
            let allEmails' := JSSet.addAll emails (allEmails st) in
            let '(called, thrownByCallback) :=
              notifyVisited o tr2 url depth emails in
            let tr3 := tr2 ++ called in
            match thrownByCallback with
            | None =>
                let links :=
                  if numLt depth md
                  then linksToEnqueue o startDomain visited' html url
                  else [] in
                mkState allEmails' visited'
                        (rest ++ map (fun link => (link, (depth + 1)%Z)) links)
                        (tr3 ++ map (fun link => EvEnqueue link (depth + 1)%Z) links)
                        None
            | Some error =>
                let '(ev, out) := reportError o tr3 url error in
                mkState allEmails' visited' rest (tr3 ++ [ev]) out
            end
        | inl error =>
            let '(ev, out) := reportError o tr2 url error in
            mkState (allEmails st) visited' rest (tr2 ++ [ev]) out
        end
  end.

Definition runningNum (mp : num) (st : State) : bool :=
  match raised st with
  | Some _ => false
  | None => loopCondNum mp st
  end.

Fixpoint runLoopNum `{Platform} (md mp : num) (o : WebsiteCrawlerOptions)
         (startDomain : string) (fuel : nat) (st : State) : option State :=
  match fuel with
  | O => None
  | S k =>
      if runningNum mp st
      then runLoopNum md mp o startDomain k (loopBodyNum md o startDomain st)
      else Some st
  end.

Definition crawlNum `{Platform} (fuel : nat) (startUrl : string)
           (md mp : num) (o : WebsiteCrawlerOptions) : option State :=
  runLoopNum md mp o (getDomain startUrl) fuel (initState startUrl).

(** The options [o] with the two limits replaced. *)
Definition withLimits (d p : Z) (o : WebsiteCrawlerOptions)
  : WebsiteCrawlerOptions :=
  mkOptions d p (sameDomainOnly o) (useBrowser o) (browser o)
            (onPageVisited o) (onError o).

(** ** The command-line front end (the commands [page] and [website])

    The actions of the two commands, as the sequence of what they do that
    can be observed: calls of the browser factory, the events of the crawl,
    page and browser operations, the summary or results printed, the error
    printed and the exit with code 1.  Progress lines are left out.
    [parseInt(s, 10)] is read on ASCII text, exactly: no rounding of
    integers beyond 2^53. *)

Module Cli.

Import BrowserFactory.

Definition isWhite (c : ascii) : bool :=
  let n := nat_of_ascii c in
  (Nat.eqb n 32 || (Nat.leb 9 n && Nat.leb n 13))%bool.

Fixpoint dropWhite (s : list ascii) : list ascii :=
  match s with
  | c :: s' => if isWhite c then dropWhite s' else s
  | [] => []
  end.

(** The value of the longest prefix of decimal digits, if not empty. *)
Fixpoint digitsPrefix (s : list ascii) (acc : option Z) : option Z :=
  match s with
  | c :: s' =>
      if Whatwg.isDigit c
      then digitsPrefix s'
             (Some (match acc with Some a => a | None => 0 end * 10 +
                    Z.of_nat (nat_of_ascii c - 48))%Z)
      else acc
  | [] => acc
  end.

(** [parseInt(s, 10)] *)
Definition parseInt (s : string) : num :=
  let t := dropWhite (list_ascii_of_string s) in
  match t with
  | "-"%char :: r =>
      match digitsPrefix r None with
      | Some n => Some (- n)%Z
      | None => None
      end
  | "+"%char :: r => digitsPrefix r None
  | _ => digitsPrefix t None
  end.

Inductive cliEvent : Type :=
| CliFactory (e : factoryEvent)                (* inside createBrowser() *)
| CliCrawl (e : event)                         (* inside scrapeEmailsFromWebsite *)
| CliNewPage (opened : bool)                   (* browser.newPage() *)
| CliScrapePage                                (* scrapeEmailsFromPage(page, url, ...) *)
| CliPageClose                                 (* page.close() *)
| CliScrapeUrl                                 (* scrapeEmailsFromUrl(url, ...) *)
| CliBrowserClose                              (* browser.close() *)
| CliSummary (pagesVisited errors total : nat) (* the crawl summary *)
| CliResults (emails : JSSet.t)                (* the results of [page] *)
| CliError (shown : string + thrown)           (* console.error of the catch *)
| CliExit (code : Z).                          (* process.exit(code) *)

(** What lies outside the program: the engines installed, what closing the
    browser does, and the single-page scraper over HTTP. *)
Record Env : Type := mkEnv {
  engines : Engines Browser;
  browserCloseResult : option thrown;
  scrapeUrlResult : string -> thrown + JSSet.t
}.

Record WebsiteFlags : Type := mkWebsiteFlags {
  flagMaxDepth : string;      (* default '3' *)
  flagMaxPages : string;      (* default '50' *)
  flagCrossDomain : bool;
  flagBrowser : bool
}.

(** The outer [catch]: print the error, exit with code 1.  What is printed
    is [error instanceof Error ? error.message : error]: the message of an
    Error, or the thrown value itself. *)
Definition failWith (t : thrown) : list cliEvent :=
  [CliError match t with
            | ThrownError e => inl (message e)
            | ThrownOther _ => inr t
            end;
   CliExit 1].

(** The onPageVisited of the [website] action: it counts the page and
    prints a progress line indented by ['  '.repeat(depth)], which throws a
    RangeError when [depth] is negative. *)
Definition websitePageVisited : PageVisitedCallback :=
  fun _ _ depth _ =>
    if Z.ltb depth 0
    then Some (ThrownError
                 (mkError ("Invalid count value: " ++ string_of_Z depth)))
    else None.

(** The onError of the [website] action: it counts the error and prints
    a line. *)
Definition websiteOnError : ErrorCallback := fun _ _ _ => None.

(** The options the [website] action passes to the crawler (the two limits
    apart).  The counts its two callbacks keep are read off the trace. *)
Definition websiteOptions (f : WebsiteFlags) (b : option Browser)
  : WebsiteCrawlerOptions :=
  mkOptions 0 0 (negb (flagCrossDomain f)) (flagBrowser f) b
            (Some websitePageVisited) (Some websiteOnError).

(** [try { crawl; summary } finally { if (browser) browser.close() }],
    inside the outer [try]: when the crawl ends with an exception there is
    no summary, and the exception reaches the outer [catch] unless closing
    the browser throws another. *)
Definition crawlAndClose `{Platform} (fuel : nat) (env : Env) (url : string)
           (f : WebsiteFlags) (b : option Browser) : option (list cliEvent) :=
  match crawlNum fuel url (parseInt (flagMaxDepth f)) (parseInt (flagMaxPages f))
                 (websiteOptions f b) with
  | None => None
  | Some final =>
      let afterCrawl :=
        match raised final with
        | Some t => failWith t
        | None => []
        end in
      Some (map CliCrawl (trace final) ++
            match raised final with
            | Some _ => []
            | None => [CliSummary (pageVisitedCalls (trace final))
                                  (onErrorCalls (trace final))
                                  (JSSet.size (allEmails final))]
            end ++
            match b with
            | None => afterCrawl
            | Some _ =>
                CliBrowserClose ::
                match browserCloseResult env with
                | Some t => failWith t
                | None => afterCrawl
                end
            end)
  end.

(** The action of [website <url>]; [None] when the fuel runs out. *)
Definition websiteAction `{Platform} (fuel : nat) (env : Env) (url : string)
           (f : WebsiteFlags) : option (list cliEvent) :=
  if flagBrowser f then
    match createBrowser (engines env) with
    | (fev, inl err) =>
        Some (map CliFactory fev ++ failWith (ThrownError err))
    | (fev, inr b) =>
        match crawlAndClose fuel env url f (Some b) with
        | Some evs => Some (map CliFactory fev ++ evs)
        | None => None
        end
    end
  else crawlAndClose fuel env url f None.

(** The body of the inner [try] of [page <url> --browser]: the page is
    closed only after a scrape that returned. *)
Definition scrapeInPage (b : Browser) (url : string)
  : list cliEvent * (thrown + JSSet.t) :=
  match b [] url with
  | inl t => ([CliNewPage false], inl t)
  | inr ps =>
      match scrapeResult ps with
      | inl t => ([CliNewPage true; CliScrapePage], inl t)
      | inr emails =>
          ([CliNewPage true; CliScrapePage; CliPageClose],
           match closeResult ps with
           | Some t => inl t
           | None => inr emails
           end)
      end
  end.

(** The action of [page <url>]. *)
Definition pageAction (env : Env) (url : string) (useBrowserFlag : bool)
  : list cliEvent :=
  if useBrowserFlag then
    match createBrowser (engines env) with
    | (fev, inl err) => map CliFactory fev ++ failWith (ThrownError err)
    | (fev, inr b) =>
        let '(evs, r) := scrapeInPage b url in
        map CliFactory fev ++ evs ++ [CliBrowserClose] ++
        match browserCloseResult env with
        | Some t => failWith t
        | None =>
            match r with
            | inl t => failWith t
            | inr emails => [CliResults emails]
            end
        end
    end
  else
    CliScrapeUrl ::
    match scrapeUrlResult env url with
    | inl t => failWith t
    | inr emails => [CliResults emails]
    end.

(** Readings of what a command did. *)
Definition browserCloses (evs : list cliEvent) : nat :=
  List.length (filter (fun e => match e with CliBrowserClose => true | _ => false end) evs).

Definition pageCloses (evs : list cliEvent) : nat :=
  List.length (filter (fun e => match e with CliPageClose => true | _ => false end) evs).

Definition exitsWithFailure (evs : list cliEvent) : bool :=
  existsb (fun e => match e with CliExit _ => true | _ => false end) evs.

Definition crawlEvents (evs : list cliEvent) : list event :=
  flat_map (fun e => match e with CliCrawl x => [x] | _ => [] end) evs.

Definition summaries (evs : list cliEvent) : list (nat * nat * nat) :=
  flat_map (fun e => match e with
                     | CliSummary a b c => [(a, b, c)]
                     | _ => []
                     end) evs.

Definition printedResults (evs : list cliEvent) : list JSSet.t :=
  flat_map (fun e => match e with CliResults r => [r] | _ => [] end) evs.

End Cli.

(** * Properties *)

(** ** Sets *)

Lemma has_In (x : string) (s : JSSet.t) : JSSet.has x s = true <-> In x s.
Proof.
  induction s as [|y s IH]; simpl.
  - split; [discriminate | tauto].
  - rewrite orb_true_iff, IH, String.eqb_eq. split; intros [E|E]; auto.
Qed.

Lemma has_false_notIn (x : string) (s : JSSet.t) :
  JSSet.has x s = false <-> ~ In x s.
Proof.
  rewrite <- has_In. destruct (JSSet.has x s); intuition congruence.
Qed.

Lemma In_add (x y : string) (s : JSSet.t) :
  In y (JSSet.add x s) <-> y = x \/ In y s.
Proof.
  unfold JSSet.add. destruct (JSSet.has x s) eqn:E.
  - apply has_In in E. split; [auto | intros [->|]; auto].
  - rewrite in_app_iff. simpl. split; intros [A|A]; auto.
    + destruct A as [A|[]]; auto.
Qed.

Lemma NoDup_snoc {A : Type} (x : A) (l : list A) :
  NoDup l -> ~ In x l -> NoDup (l ++ [x]).
Proof.
  induction l as [|y l IH]; simpl; intros ND NI.
  - constructor; [tauto | constructor].
  - inversion ND; subst. constructor.
    + rewrite in_app_iff. simpl. intros [I|[E|[]]]; [tauto | subst; tauto].
    + apply IH; tauto.
Qed.

Lemma NoDup_add (x : string) (s : JSSet.t) : NoDup s -> NoDup (JSSet.add x s).
Proof.
  intros ND. unfold JSSet.add. destruct (JSSet.has x s) eqn:E; auto.
  apply NoDup_snoc; auto. now apply has_false_notIn.
Qed.

Lemma add_fresh (x : string) (s : JSSet.t) :
  JSSet.has x s = false -> JSSet.add x s = s ++ [x].
Proof. unfold JSSet.add. now intros ->. Qed.

Lemma size_add_fresh (x : string) (s : JSSet.t) :
  JSSet.has x s = false -> JSSet.size (JSSet.add x s) = S (JSSet.size s).
Proof.
  intros E. rewrite add_fresh by assumption.
  unfold JSSet.size. rewrite length_app. simpl. lia.
Qed.

Lemma In_addAll (y : string) (other s : JSSet.t) :
  In y (JSSet.addAll other s) <-> In y other \/ In y s.
Proof.
  unfold JSSet.addAll. revert s.
  induction other as [|x other IH]; intros s; simpl.
  - tauto.
  - rewrite IH, In_add. split; intros [A|A]; auto.
    + destruct A; auto.
    + destruct A; auto.
Qed.

Lemma NoDup_addAll (other s : JSSet.t) : NoDup s -> NoDup (JSSet.addAll other s).
Proof.
  unfold JSSet.addAll. revert s.
  induction other as [|x other IH]; intros s ND; simpl; auto.
  apply IH, NoDup_add, ND.
Qed.

(** ** Traces *)

Lemma fetchedUrls_app (a b : list event) :
  fetchedUrls (a ++ b) = fetchedUrls a ++ fetchedUrls b.
Proof.
  induction a as [|e a IH]; simpl; auto.
  destruct e; simpl; rewrite ?IH; auto.
Qed.

Lemma visits_app (a b : list event) : visits (a ++ b) = visits a ++ visits b.
Proof.
  induction a as [|e a IH]; simpl; auto.
  destruct e; simpl; rewrite ?IH; auto.
Qed.

Lemma shifted_app (a b : list event) : shifted (a ++ b) = shifted a ++ shifted b.
Proof.
  induction a as [|e a IH]; simpl; auto.
  destruct e; simpl; rewrite ?IH; auto.
Qed.

Lemma enqueued_app (a b : list event) :
  enqueued (a ++ b) = enqueued a ++ enqueued b.
Proof.
  induction a as [|e a IH]; simpl; auto.
  destruct e; simpl; rewrite ?IH; auto.
Qed.

Lemma reportedErrors_app (a b : list event) :
  reportedErrors (a ++ b) = reportedErrors a ++ reportedErrors b.
Proof.
  induction a as [|e a IH]; simpl; auto.
  destruct e; simpl; rewrite ?IH; auto.
Qed.

Lemma pagesReleased_app (a b : list event) (open : bool) :
  pagesReleased a open = true ->
  pagesReleased (a ++ b) open = pagesReleased b false.
Proof.
  revert open. induction a as [|e a IH]; simpl; intros open R.
  - destruct open; [discriminate | reflexivity].
  - destruct e as [| | |[|]| | | | | | | |]; simpl in *;
      try (apply IH; assumption);
      apply andb_true_iff in R; destruct R as [-> R]; simpl; apply IH, R.
Qed.

Lemma enqueued_map (links : list string) (d : Z) :
  enqueued (map (fun link => EvEnqueue link d) links) =
  map (fun link => (link, d)) links.
Proof.
  induction links as [|l links IH]; simpl; [reflexivity | now rewrite IH].
Qed.

Lemma visits_map_enqueue (links : list string) (d : Z) :
  visits (map (fun link => EvEnqueue link d) links) = [].
Proof. induction links; simpl; auto. Qed.

Lemma shifted_map_enqueue (links : list string) (d : Z) :
  shifted (map (fun link => EvEnqueue link d) links) = [].
Proof. induction links; simpl; auto. Qed.

Lemma fetchedUrls_map_enqueue (links : list string) (d : Z) :
  fetchedUrls (map (fun link => EvEnqueue link d) links) = [].
Proof. induction links; simpl; auto. Qed.

Lemma reportedErrors_map_enqueue (links : list string) (d : Z) :
  reportedErrors (map (fun link => EvEnqueue link d) links) = [].
Proof. induction links; simpl; auto. Qed.

Lemma pagesReleased_map_enqueue (links : list string) (d : Z) :
  pagesReleased (map (fun link => EvEnqueue link d) links) false = true.
Proof. induction links; simpl; auto. Qed.

Ltac trace_simpl :=
  repeat progress
    (rewrite ?fetchedUrls_app, ?visits_app, ?shifted_app, ?enqueued_app,
       ?reportedErrors_app, ?enqueued_map, ?visits_map_enqueue,
       ?shifted_map_enqueue, ?fetchedUrls_map_enqueue,
       ?reportedErrors_map_enqueue, ?app_nil_r;
     simpl).

Ltac kill_nil :=
  repeat match goal with
  | E : ?f ?x = [] |- context [?f ?x] => rewrite E
  end;
  rewrite ?app_nil_r; simpl.

(** ** The events of one fetch *)


Lemma runPage_events (ps : PageScript) (url : string) :
  fetchEvents url (EvNewPage true :: fst (runPage ps url)).
Proof.
  unfold runPage.
  destruct (gotoResult ps), (contentResult ps), (scrapeResult ps),
    (closeResult ps); simpl; constructor; simpl; auto.
Qed.

Lemma fetchPage_events `{Platform} (o : WebsiteCrawlerOptions)
      (hist : list event) (url : string) :
  fetchEvents url (fst (fetchPage o hist url)).
Proof.
  unfold fetchPage.
  assert (Hh : fetchEvents url (fst (httpFetch hist url))).
  { unfold httpFetch; simpl. constructor; simpl; auto. }
  destruct (useBrowser o); [|exact Hh].
  destruct (browser o) as [b|]; [|exact Hh].
  unfold browserFetch. destruct (b hist url) as [t|ps].
  - simpl. constructor; simpl; auto.
  - pose proof (runPage_events ps url) as R.
    destruct (runPage ps url) as [evs r]. exact R.
Qed.

(** ** One iteration *)

Lemma loopBody_outcome `{Platform} (o : WebsiteCrawlerOptions) (sd : string)
      (st : State) (url : string) (depth : Z) (rest : list FrontierEntry) :
  toVisit st = (url, depth) :: rest ->
  stepOutcome o sd st url depth rest (loopBody o sd st).
Proof.
  intros Q. unfold loopBody. rewrite Q.
  destruct (JSSet.has url (visited st)) eqn:Hv.
  { apply outcome_skip. auto. }
  destruct (Z.gtb depth (maxDepth o)) eqn:Hd.
  { apply outcome_skip. right; left. apply Z.gtb_lt in Hd. lia. }
  destruct (rejectedByDomain o sd url) eqn:Hs.
  { apply outcome_skip. auto. }
  assert (Hd' : (depth <= maxDepth o)%Z).
  { rewrite Z.gtb_ltb in Hd. apply Z.ltb_ge in Hd. exact Hd. }
  replace ((trace st ++ [EvShift url depth]) ++ [EvVisit url depth])
    with (trace st ++ [EvShift url depth; EvVisit url depth])
    by (rewrite <- app_assoc; reflexivity).
  destruct (fetchPage o (trace st ++ [EvShift url depth; EvVisit url depth]) url)
    as [evs r] eqn:Hf.
  replace ((trace st ++ [EvShift url depth; EvVisit url depth]) ++ evs)
    with (trace st ++ EvShift url depth :: EvVisit url depth :: evs)
    by (rewrite <- app_assoc; reflexivity).
  destruct r as [error|[html emails]].
  - destruct (reportError o _ url error) as [ev out] eqn:Hr.
    replace ((trace st ++ EvShift url depth :: EvVisit url depth :: evs) ++ [ev])
      with (trace st ++ EvShift url depth :: EvVisit url depth :: evs ++
            [] ++ [ev])
      by (rewrite <- !app_assoc; reflexivity).
    eapply outcome_caught; eauto.
    + constructor.
    + rewrite app_nil_r. exact Hr.
  - destruct (notifyVisited o _ url depth emails) as [called [error|]] eqn:Hn.
    + destruct (reportError o _ url error) as [ev out] eqn:Hr.
      replace (((trace st ++ EvShift url depth :: EvVisit url depth :: evs)
                ++ called) ++ [ev])
        with (trace st ++ EvShift url depth :: EvVisit url depth :: evs ++
              called ++ [ev])
        by (rewrite <- !app_assoc; reflexivity).
      eapply outcome_caught; eauto.
      * constructor. exact Hn.
      * rewrite <- Hr. f_equal. rewrite <- !app_assoc. reflexivity.
    + match goal with
      | |- stepOutcome _ _ _ _ _ _ (mkState _ _ _ ?t _) =>
          replace t with
            (trace st ++ EvShift url depth :: EvVisit url depth :: evs ++
             called ++
             map (fun link => EvEnqueue link (depth + 1)%Z)
                 (if Z.ltb depth (maxDepth o)
                  then linksToEnqueue o sd (JSSet.add url (visited st)) html url
                  else []))
            by (rewrite <- !app_assoc; reflexivity)
      end.
      eapply outcome_ok; eauto.
Qed.

Lemma running_true (o : WebsiteCrawlerOptions) (st : State) :
  running o st = true -> raised st = None /\ loopCond o st = true.
Proof. unfold running. destruct (raised st); [discriminate | auto]. Qed.

Lemma running_false (o : WebsiteCrawlerOptions) (st : State) :
  running o st = false -> raised st = None -> loopCond o st = false.
Proof. unfold running. intros E R. now rewrite R in E. Qed.

Lemma loopCond_true (o : WebsiteCrawlerOptions) (st : State) :
  loopCond o st = true ->
  (exists url depth rest, toVisit st = (url, depth) :: rest) /\
  (Z.of_nat (JSSet.size (visited st)) < maxPages o)%Z.
Proof.
  unfold loopCond. intros C. apply andb_true_iff in C. destruct C as [C1 C2].
  apply Z.ltb_lt in C2. split; auto.
  destruct (toVisit st) as [|[url depth] rest]; [discriminate|eauto].
Qed.

(** ** Runs *)

Lemma iterate_reachable `{Platform} (o : WebsiteCrawlerOptions)
      (startUrl : string) (n : nat) (st : State) :
  reachable o startUrl st ->
  reachable o startUrl (iterate o (getDomain startUrl) n st).
Proof.
  revert st. induction n as [|n IH]; intros st R; simpl; auto.
  destruct (running o st) eqn:C; auto.
  apply IH. now apply reach_step.
Qed.

Lemma stateAt_reachable `{Platform} (o : WebsiteCrawlerOptions)
      (startUrl : string) (n : nat) :
  reachable o startUrl (stateAt o startUrl n).
Proof. apply iterate_reachable, reach_init. Qed.

Lemma reachable_stateAt `{Platform} (o : WebsiteCrawlerOptions)
      (startUrl : string) (st : State) :
  reachable o startUrl st -> exists n, st = stateAt o startUrl n.
Proof.
  unfold stateAt. intros R. induction R as [|st R [n IH] C].
  - exists 0. reflexivity.
  - exists (S n). subst st. clear R.
    remember (initState startUrl) as s0. clear Heqs0.
    revert s0 C. induction n as [|n IHn]; intros s0 C; simpl in *.
    + now rewrite C.
    + destruct (running o s0) eqn:C0.
      * now apply IHn.
      * now rewrite C0 in C.
Qed.

Lemma runLoop_iterate `{Platform} (o : WebsiteCrawlerOptions) (sd : string)
      (fuel : nat) (st final : State) :
  runLoop o sd fuel st = Some final ->
  final = iterate o sd fuel st /\ running o final = false.
Proof.
  revert st. induction fuel as [|fuel IH]; intros st; simpl; [discriminate|].
  destruct (running o st) eqn:C.
  - apply IH.
  - intros [= <-]. auto.
Qed.

Lemma runLoop_more_fuel `{Platform} (o : WebsiteCrawlerOptions) (sd : string)
      (fuel k : nat) (st final : State) :
  runLoop o sd fuel st = Some final ->
  runLoop o sd (fuel + k) st = Some final.
Proof.
  revert st. induction fuel as [|fuel IH]; intros st; simpl; [discriminate|].
  destruct (running o st); auto.
Qed.

(** The loop ends: the budget left and the length of the frontier decrease
    lexicographically. *)
Lemma runLoop_terminates `{Platform} (o : WebsiteCrawlerOptions) (sd : string)
      (st : State) :
  exists fuel final, runLoop o sd fuel st = Some final.
Proof.
  remember (Z.to_nat (maxPages o - Z.of_nat (JSSet.size (visited st)))) as a eqn:Ea.
  assert (La : Z.to_nat (maxPages o - Z.of_nat (JSSet.size (visited st))) <= a) by lia.
  clear Ea. revert st La.
  induction a as [|a IHa]; intros st La.
  - exists 1. simpl. destruct (running o st) eqn:C; eauto.
    apply running_true in C. destruct C as [_ C].
    apply loopCond_true in C. destruct C as [_ C]. lia.
  - remember (List.length (toVisit st)) as b eqn:Eb.
    assert (Lb : List.length (toVisit st) <= b) by lia.
    clear Eb. revert st La Lb.
    induction b as [|b IHb]; intros st La Lb.
    + exists 1. simpl. destruct (running o st) eqn:C; eauto.
      apply running_true in C. destruct C as [_ C].
      apply loopCond_true in C. destruct C as [(u & d & r & Q) _].
      rewrite Q in Lb. simpl in Lb. lia.
    + destruct (running o st) eqn:C.
      2:{ exists 1. simpl. rewrite C. eauto. }
      pose proof C as C'. apply running_true in C'. destruct C' as [_ C'].
      apply loopCond_true in C'.
      destruct C' as [(u & d & r & Q) B].
      assert (E : exists fuel final,
                 runLoop o sd fuel (loopBody o sd st) = Some final).
      { destruct (loopBody_outcome o sd st u d r Q).
        - apply IHb; simpl; [exact La|]. rewrite Q in Lb. simpl in Lb. lia.
        - apply IHa; simpl. rewrite size_add_fresh by assumption. lia.
        - apply IHa; simpl. rewrite size_add_fresh by assumption. lia. }
      destruct E as (fuel & final & E).
      exists (S fuel), final. simpl. now rewrite C.
Qed.

(** ** The events of the callbacks *)

Lemma notifyVisited_event (o : WebsiteCrawlerOptions) (hist : list event)
      (url : string) (depth : Z) (emails : JSSet.t)
      (called : list event) (r : option thrown) :
  notifyVisited o hist url depth emails = (called, r) ->
  (onPageVisited o = None /\ called = [] /\ r = None) \/
  (exists callback,
      onPageVisited o = Some callback /\
      called = [EvPageVisited url depth (JSSet.size emails)] /\
      r = callback hist url depth (JSSet.size emails)).
Proof.
  unfold notifyVisited. destruct (onPageVisited o) as [callback|].
  - intros [= <- <-]. right. eauto.
  - intros [= <- <-]. auto.
Qed.

Lemma reportError_event (o : WebsiteCrawlerOptions) (hist : list event)
      (url : string) (error : thrown) (ev : event) (out : option thrown) :
  reportError o hist url error = (ev, out) ->
  (onError o = None /\ out = None /\
   ev = EvConsoleError url (message (toErrorObj error))) \/
  (exists callback,
      onError o = Some callback /\
      out = callback hist url (toErrorObj error) /\
      ev = EvOnError url (toErrorObj error)).
Proof.
  unfold reportError. destruct (onError o) as [callback|].
  - intros [= <- <-]. right. eauto.
  - intros [= <- <-]. auto.
Qed.

Lemma tryFails_cases (o : WebsiteCrawlerOptions) (hist : list event)
      (url : string) (depth : Z) (allEmails0 : JSSet.t)
      (r : thrown + (string * JSSet.t)) (emails' : JSSet.t)
      (called : list event) (error : thrown) :
  tryFails o hist url depth allEmails0 r emails' called error ->
  (r = inl error /\ emails' = allEmails0 /\ called = []) \/
  (exists html emails,
      r = inr (html, emails) /\
      emails' = JSSet.addAll emails allEmails0 /\
      notifyVisited o hist url depth emails = (called, Some error)).
Proof. intros [e|html emails c e Hn]; eauto 10. Qed.

Lemma tryFails_called (o : WebsiteCrawlerOptions) (hist : list event)
      (url : string) (depth : Z) (allEmails0 : JSSet.t)
      (r : thrown + (string * JSSet.t)) (emails' : JSSet.t)
      (called : list event) (error : thrown) :
  tryFails o hist url depth allEmails0 r emails' called error ->
  called = [] \/ exists k, called = [EvPageVisited url depth k].
Proof.
  intros [e|html emails c e Hn]; [now left|].
  apply notifyVisited_event in Hn.
  destruct Hn as [(_ & -> & _)|(cb & _ & -> & _)]; eauto.
Qed.

Lemma notifyVisited_silent (o : WebsiteCrawlerOptions) (hist : list event)
      (url : string) (depth : Z) (emails : JSSet.t)
      (called : list event) (r : option thrown) :
  notifyVisited o hist url depth emails = (called, r) ->
  visits called = [] /\
  shifted called = [] /\
  enqueued called = [] /\
  fetchedUrls called = [] /\
  reportedErrors called = [] /\
  pagesReleased called false = true.
Proof.
  intros E. apply notifyVisited_event in E.
  destruct E as [(_ & -> & _)|(cb & _ & -> & _)]; simpl; auto 10.
Qed.

Lemma tryFails_silent (o : WebsiteCrawlerOptions) (hist : list event)
      (url : string) (depth : Z) (allEmails0 : JSSet.t)
      (r : thrown + (string * JSSet.t)) (emails' : JSSet.t)
      (called : list event) (error : thrown) :
  tryFails o hist url depth allEmails0 r emails' called error ->
  visits called = [] /\
  shifted called = [] /\
  enqueued called = [] /\
  fetchedUrls called = [] /\
  reportedErrors called = [] /\
  pagesReleased called false = true.
Proof.
  intros E. apply tryFails_called in E.
  destruct E as [->|[k ->]]; simpl; auto 10.
Qed.

Lemma reportError_silent (o : WebsiteCrawlerOptions) (hist : list event)
      (url : string) (error : thrown) (ev : event) (out : option thrown) :
  reportError o hist url error = (ev, out) ->
  visits [ev] = [] /\
  shifted [ev] = [] /\
  enqueued [ev] = [] /\
  fetchedUrls [ev] = [] /\
  pagesReleased [ev] false = true.
Proof.
  intros E. apply reportError_event in E.
  destruct E as [(_ & _ & ->)|(cb & _ & _ & ->)]; simpl; auto 10.
Qed.

Lemma reportError_reported (o : WebsiteCrawlerOptions) (hist : list event)
      (url : string) (error : thrown) (ev : event) (out : option thrown) :
  reportError o hist url error = (ev, out) ->
  reportedErrors [ev] = [(url, message (toErrorObj error))].
Proof.
  intros E. apply reportError_event in E.
  destruct E as [(_ & _ & ->)|(cb & _ & _ & ->)]; reflexivity.
Qed.

(** The projections of the events of one iteration. *)
Ltac step_events Hf :=
  let E := fresh "E" in
  match type of Hf with
  | fetchPage ?o ?hist ?url = (?evs, _) =>
      pose proof (fetchPage_events o hist url) as E;
      rewrite Hf in E; simpl in E; destruct E
  end.

(** The calls of the callbacks add nothing to these projections. *)
Ltac silent_events :=
  repeat match goal with
  | Hn : notifyVisited _ _ _ _ _ = (_, _) |- _ =>
      apply notifyVisited_silent in Hn;
      destruct Hn as (? & ? & ? & ? & ? & ?)
  | Ht : tryFails _ _ _ _ _ _ _ _ _ |- _ =>
      apply tryFails_silent in Ht;
      destruct Ht as (? & ? & ? & ? & ? & ?)
  | Hr : reportError _ _ _ _ = (?ev, _) |- _ =>
      apply reportError_silent in Hr;
      destruct Hr as (? & ? & ? & ? & ?);
      let l := fresh "l" in
      let Hl := fresh "Hl" in
      remember [ev] as l eqn:Hl in *; clear Hl
  end.

(** Induction over the states of a run, by the outcome of each iteration. *)
Lemma reachable_invariant `{Platform} (o : WebsiteCrawlerOptions)
      (startUrl : string) (P : State -> Prop) :
  P (initState startUrl) ->
  (forall st url depth rest st',
      reachable o startUrl st -> P st ->
      (Z.of_nat (JSSet.size (visited st)) < maxPages o)%Z ->
      toVisit st = (url, depth) :: rest ->
      stepOutcome o (getDomain startUrl) st url depth rest st' ->
      P st') ->
  forall st, reachable o startUrl st -> P st.
Proof.
  intros P0 PS st R. induction R as [|st R IH C]; auto.
  apply running_true in C. destruct C as [_ C].
  apply loopCond_true in C. destruct C as [(u & d & r & Q) B].
  eapply PS; eauto. now apply loopBody_outcome.
Qed.

Ltac by_invariant o startUrl st :=
  let R := fresh "R" in
  intros R; pattern st; revert st R;
  apply (reachable_invariant o startUrl); cbv beta.

(** ** Invariants of a run *)

Lemma fifo_step {A : Type} (all done rest new : list A) (e : A) :
  all = done ++ e :: rest ->
  all ++ new = (done ++ [e]) ++ rest ++ new.
Proof. intros ->. rewrite <- !app_assoc. reflexivity. Qed.


Lemma reachable_bookKeeping `{Platform} (o : WebsiteCrawlerOptions)
      (startUrl : string) (st : State) :
  reachable o startUrl st -> bookKeeping startUrl st.
Proof.
  by_invariant o startUrl st.
  - constructor; simpl; auto. constructor.
  - intros s u d rest s' _ [Bv Bn Bf] _ Q O.
    destruct O as [_|evs html emails called links Hv _ _ Hf Hn _|evs r emails' called error ev out Hv _ _ Hf Ht Hr].
    + constructor; simpl; auto.
      * rewrite visits_app. simpl. now rewrite app_nil_r.
      * rewrite enqueued_app, shifted_app. simpl.
        rewrite Q in Bf. rewrite <- (app_nil_r rest).
        exact (fifo_step _ _ _ _ _ Bf).
    + step_events Hf. constructor; simpl.
      * silent_events. trace_simpl.
        rewrite add_fresh by assumption. rewrite Bv.
        kill_nil.
        rewrite map_app. simpl. reflexivity.
      * now apply NoDup_add.
      * silent_events. trace_simpl.
        kill_nil.
        rewrite Q in Bf. exact (fifo_step _ _ _ _ _ Bf).
    + step_events Hf. constructor; simpl.
      * silent_events. trace_simpl.
        rewrite add_fresh by assumption. rewrite Bv.
        kill_nil.
        rewrite map_app. simpl. reflexivity.
      * now apply NoDup_add.
      * silent_events. trace_simpl.
        kill_nil.
        rewrite Q in Bf. rewrite <- (app_nil_r rest).
        rewrite <- (app_nil_r (enqueued (trace s))).
        exact (fifo_step _ _ _ _ _ Bf).
Qed.

Lemma platformUrls_app (a b : list event) :
  platformUrls (a ++ b) = platformUrls a ++ platformUrls b.
Proof.
  induction a as [|e a IH]; simpl; auto.
  destruct e; simpl; rewrite ?IH; auto.
Qed.

Lemma platformUrls_map_enqueue (links : list string) (d : Z) :
  platformUrls (map (fun link => EvEnqueue link d) links) = [].
Proof. induction links; simpl; auto. Qed.

Lemma fetchPage_platformUrls `{Platform} (o : WebsiteCrawlerOptions)
      (hist : list event) (url u : string) :
  In u (platformUrls (fst (fetchPage o hist url))) -> u = url.
Proof.
  unfold fetchPage, browserFetch, httpFetch, runPage.
  destruct (useBrowser o); [|simpl; intuition].
  destruct (browser o) as [b|]; [|simpl; intuition].
  destruct (b hist url) as [t|ps]; [simpl; intuition|].
  destruct (gotoResult ps), (contentResult ps), (scrapeResult ps),
    (closeResult ps); simpl; intuition.
Qed.

Lemma notifyVisited_platformUrls (o : WebsiteCrawlerOptions)
      (hist : list event) (url : string) (depth : Z) (emails : JSSet.t)
      (called : list event) (r : option thrown) :
  notifyVisited o hist url depth emails = (called, r) ->
  platformUrls called = [].
Proof.
  intros E. apply notifyVisited_event in E.
  destruct E as [(_ & -> & _)|(cb & _ & -> & _)]; reflexivity.
Qed.

Lemma tryFails_platformUrls (o : WebsiteCrawlerOptions) (hist : list event)
      (url : string) (depth : Z) (allEmails0 : JSSet.t)
      (r : thrown + (string * JSSet.t)) (emails' : JSSet.t)
      (called : list event) (error : thrown) :
  tryFails o hist url depth allEmails0 r emails' called error ->
  platformUrls called = [].
Proof.
  intros E. apply tryFails_called in E.
  destruct E as [->|[k ->]]; reflexivity.
Qed.

Lemma reportError_platformUrls (o : WebsiteCrawlerOptions)
      (hist : list event) (url : string) (error : thrown)
      (ev : event) (out : option thrown) :
  reportError o hist url error = (ev, out) -> platformUrls [ev] = [].
Proof.
  intros E. apply reportError_event in E.
  destruct E as [(_ & _ & ->)|(cb & _ & _ & ->)]; reflexivity.
Qed.

(** The platform only ever sees the URLs of processed entries. *)
Lemma reachable_platformUrls `{Platform} (o : WebsiteCrawlerOptions)
      (startUrl : string) (st : State) :
  reachable o startUrl st ->
  incl (platformUrls (trace st)) (map fst (visits (trace st))).
Proof.
  by_invariant o startUrl st.
  - intros x [].
  - intros s u d rest s' _ IH _ Q O.
    assert (K : forall evs tl,
               (forall x, In x (platformUrls evs) -> x = u) ->
               platformUrls tl = [] ->
               incl (platformUrls
                       (trace s ++ EvShift u d :: EvVisit u d :: evs ++ tl))
                    (map fst (visits (trace s)) ++ [u])).
    { intros evs tl E T x. rewrite platformUrls_app. cbn [platformUrls].
      rewrite platformUrls_app, T, app_nil_r, !in_app_iff.
      intros [I|I]; [left; now apply IH|].
      right. left. symmetry. now apply E. }
    destruct O as [_|evs html emails called links Hv _ _ Hf Hn L
                   |evs r emails' called error ev out Hv _ _ Hf Ht Hr];
      cbn [trace].
    + rewrite platformUrls_app, visits_app. simpl. now rewrite !app_nil_r.
    + replace (map fst (visits (trace s ++ EvShift u d :: EvVisit u d :: evs ++
                 called ++
                 map (fun link => EvEnqueue link (d + 1)%Z) links)))
        with (map fst (visits (trace s)) ++ [u]).
      * apply K.
        -- intros x I.
           apply (fetchPage_platformUrls o
                    (trace s ++ [EvShift u d; EvVisit u d]) u).
           now rewrite Hf.
        -- rewrite platformUrls_app, platformUrls_map_enqueue.
           now rewrite (notifyVisited_platformUrls _ _ _ _ _ _ _ Hn).
      * step_events Hf. silent_events. trace_simpl. kill_nil.
        now rewrite map_app.
    + replace (map fst (visits (trace s ++ EvShift u d :: EvVisit u d :: evs ++
                 called ++ [ev])))
        with (map fst (visits (trace s)) ++ [u]).
      * apply K.
        -- intros x I.
           apply (fetchPage_platformUrls o
                    (trace s ++ [EvShift u d; EvVisit u d]) u).
           now rewrite Hf.
        -- rewrite platformUrls_app.
           rewrite (tryFails_platformUrls _ _ _ _ _ _ _ _ _ Ht).
           now rewrite (reportError_platformUrls _ _ _ _ _ _ Hr).
      * step_events Hf. silent_events. trace_simpl. kill_nil.
        now rewrite map_app.
Qed.

(** The page budget. *)
Lemma reachable_budget `{Platform} (o : WebsiteCrawlerOptions)
      (startUrl : string) (st : State) :
  (0 <= maxPages o)%Z ->
  reachable o startUrl st ->
  (Z.of_nat (JSSet.size (visited st)) <= maxPages o)%Z.
Proof.
  intros M. by_invariant o startUrl st.
  - simpl. exact M.
  - intros s u d rest s' _ IH B Q O.
    destruct O as [_|evs html emails called links Hv _ _ _ Hn _|evs r emails' called error ev out Hv _ _ _ Ht Hr];
      simpl; auto; rewrite size_add_fresh by assumption; lia.
Qed.

Lemma In_links_depth `{Platform} (o : WebsiteCrawlerOptions) (sd : string)
      (vis : JSSet.t) (html url link : string) (depth : Z) :
  In link (if Z.ltb depth (maxDepth o)
           then linksToEnqueue o sd vis html url else []) ->
  (depth < maxDepth o)%Z /\ linkAccepted o sd vis link = true /\
  In link (extractLinks html url).
Proof.
  destruct (Z.ltb depth (maxDepth o)) eqn:L; [|intros []].
  apply Z.ltb_lt in L. unfold linksToEnqueue. rewrite filter_In. tauto.
Qed.


Lemma reachable_depthBounds `{Platform} (o : WebsiteCrawlerOptions)
      (startUrl : string) (st : State) :
  reachable o startUrl st -> depthBounds o st.
Proof.
  by_invariant o startUrl st.
  - constructor; simpl; try tauto.
    + intros u d [[= <- <-]|[]]. lia.
    + intros x [].
  - intros s u d rest s' _ [Dq Dv De Df] _ Q O.
    assert (D0 : (0 <= d)%Z) by (apply (Dq u); rewrite Q; now left).
    assert (Dr : forall u' d', In (u', d') rest -> (0 <= d')%Z).
    { intros u' d' I. apply (Dq u'). rewrite Q. now right. }
    destruct O as [_|evs html emails called links Hv Hd _ Hf Hn L|evs r emails' called error ev out Hv Hd _ Hf Ht Hr].
    + constructor; simpl; trace_simpl; auto.
    + step_events Hf. constructor; simpl; silent_events; trace_simpl; kill_nil.
      * intros u' d'. rewrite in_app_iff, in_map_iff.
        intros [I|(lk & [= <- <-] & I)]; [eauto | lia].
      * intros u' d'. rewrite in_app_iff. simpl.
        intros [I|[[= <- <-]|[]]]; [exact (Dv _ _ I) | lia].
      * intros l' d'. rewrite in_app_iff, in_map_iff.
        intros [I|(lk & [= <- <-] & I)].
        -- destruct (De _ _ I) as [A [u' B]]. split; auto.
           exists u'. rewrite in_app_iff. auto.
        -- subst links. apply In_links_depth in I. split; [lia|].
           exists u. rewrite in_app_iff. right. left. f_equal. lia.
      * intros x. rewrite !map_app, !in_app_iff. simpl.
        intros [I|I]; [left; now apply Df|].
        destruct fe_fetched0 as [E|E]; rewrite E in I; simpl in I;
          [tauto | destruct I as [<-|[]]; auto].
    + step_events Hf. constructor; simpl; silent_events; trace_simpl; kill_nil.
      * exact Dr.
      * intros u' d'. rewrite in_app_iff. simpl.
        intros [I|[[= <- <-]|[]]]; [exact (Dv _ _ I) | lia].
      * intros l' d' I. destruct (De _ _ I) as [A [u' B]]. split; auto.
        exists u'. rewrite in_app_iff. auto.
      * intros x. rewrite !map_app, !in_app_iff. simpl.
        intros [I|I]; [left; now apply Df|].
        destruct fe_fetched0 as [E|E]; rewrite E in I; simpl in I;
          [tauto | destruct I as [<-|[]]; auto].
Qed.

(** The domain restriction. *)
Lemma reachable_sameDomain `{Platform} (o : WebsiteCrawlerOptions)
      (startUrl : string) (st : State) :
  sameDomainOnly o = true ->
  reachable o startUrl st ->
  (forall u d, In (u, d) (visits (trace st)) ->
               getDomain u = getDomain startUrl) /\
  (forall l d, In (l, d) (enqueued (trace st)) ->
               getDomain l = getDomain startUrl).
Proof.
  intros S. by_invariant o startUrl st.
  - simpl. tauto.
  - intros s u d rest s' _ [Iv Ie] _ Q O.
    destruct O as [_|evs html emails called links Hv _ Hs Hf Hn L|evs r emails' called error ev out Hv _ Hs Hf Ht Hr].
    + simpl; trace_simpl; auto.
    + unfold rejectedByDomain in Hs. rewrite S in Hs. simpl in Hs.
      apply negb_false_iff, String.eqb_eq in Hs.
      step_events Hf. simpl; silent_events; trace_simpl; kill_nil. split.
      * intros u' d'. rewrite in_app_iff. simpl.
        intros [I|[[= <- <-]|[]]]; eauto.
      * intros l' d'. rewrite in_app_iff, in_map_iff.
        intros [I|(lk & [= <- <-] & I)]; eauto.
        subst links. apply In_links_depth in I. destruct I as (_ & A & _).
        unfold linkAccepted in A. rewrite S in A. simpl in A.
        apply andb_true_iff in A. destruct A as [_ A].
        now apply String.eqb_eq in A.
    + unfold rejectedByDomain in Hs. rewrite S in Hs. simpl in Hs.
      apply negb_false_iff, String.eqb_eq in Hs.
      step_events Hf. simpl; silent_events; trace_simpl; kill_nil. split.
      * intros u' d'. rewrite in_app_iff. simpl.
        intros [I|[[= <- <-]|[]]]; eauto.
      * eauto.
Qed.

(** Each URL is handed to a fetch strategy at most once. *)
Lemma reachable_fetchedOnce `{Platform} (o : WebsiteCrawlerOptions)
      (startUrl : string) (st : State) :
  reachable o startUrl st ->
  NoDup (fetchedUrls (trace st)) /\
  incl (fetchedUrls (trace st)) (visited st).
Proof.
  by_invariant o startUrl st.
  - simpl. split; [constructor | intros x []].
  - intros s u d rest s' _ [Fn Fi] _ Q O.
    assert (K : forall evs tl,
               fetchedUrls evs = [] \/ fetchedUrls evs = [u] ->
               fetchedUrls tl = [] ->
               JSSet.has u (visited s) = false ->
               NoDup (fetchedUrls (trace s) ++ fetchedUrls evs ++ fetchedUrls tl) /\
               incl (fetchedUrls (trace s) ++ fetchedUrls evs ++ fetchedUrls tl)
                    (JSSet.add u (visited s))).
    { intros evs tl E T Hv. rewrite T, app_nil_r. split.
      - destruct E as [->| ->]; [now rewrite app_nil_r|].
        apply NoDup_snoc; auto. apply has_false_notIn in Hv. auto.
      - intros x. rewrite in_app_iff, In_add. intros [I|I]; [auto|].
        destruct E as [E|E]; rewrite E in I; simpl in I;
          [tauto | destruct I as [<-|[]]; auto]. }
    destruct O as [_|evs html emails called links Hv _ _ Hf Hn L|evs r emails' called error ev out Hv _ _ Hf Ht Hr].
    + simpl; trace_simpl; auto.
    + step_events Hf. simpl; trace_simpl.
      apply K; auto. silent_events. trace_simpl. now kill_nil.
    + step_events Hf. silent_events. simpl; trace_simpl.
      match goal with E : fetchedUrls called = [] |- _ => rewrite E end.
      simpl. apply K; auto.
Qed.

(** Browser pages are closed within the iteration that opened them. *)
Lemma reachable_pagesReleased `{Platform} (o : WebsiteCrawlerOptions)
      (startUrl : string) (st : State) :
  reachable o startUrl st -> pagesReleased (trace st) false = true.
Proof.
  by_invariant o startUrl st.
  - reflexivity.
  - intros s u d rest s' _ IH _ Q O.
    destruct O as [_|evs html emails called links Hv _ _ Hf Hn L|evs r emails' called error ev out Hv _ _ Hf Ht Hr];
      simpl; rewrite (pagesReleased_app _ _ _ IH); simpl; auto.
    + step_events Hf. rewrite (pagesReleased_app _ _ _ fe_released0).
      destruct (notifyVisited_silent _ _ _ _ _ _ _ Hn)
        as (_ & _ & _ & _ & _ & N).
      rewrite (pagesReleased_app _ _ _ N).
      apply pagesReleased_map_enqueue.
    + step_events Hf. rewrite (pagesReleased_app _ _ _ fe_released0).
      destruct (tryFails_silent _ _ _ _ _ _ _ _ _ Ht)
        as (_ & _ & _ & _ & _ & N).
      rewrite (pagesReleased_app _ _ _ N).
      eapply reportError_silent, Hr.
Qed.

(** ** Level order *)

Lemma StronglySorted_app (l1 l2 : list Z) :
  StronglySorted Z.le l1 -> StronglySorted Z.le l2 ->
  (forall x y, In x l1 -> In y l2 -> (x <= y)%Z) ->
  StronglySorted Z.le (l1 ++ l2).
Proof.
  induction l1 as [|a l1 IH]; simpl; intros S1 S2 C; auto.
  inversion S1 as [|? ? S1' F]; subst. constructor.
  - apply IH; auto.
  - apply Forall_app. split; auto.
    apply Forall_forall. intros y I. apply C; auto.
Qed.

Lemma StronglySorted_const (c : Z) (l : list Z) :
  (forall x, In x l -> x = c) -> StronglySorted Z.le l.
Proof.
  induction l as [|a l IH]; intros E; constructor.
  - apply IH. intros x I. apply E. now right.
  - apply Forall_forall. intros x I.
    rewrite (E a), (E x); simpl; auto. lia.
Qed.

Lemma levels_skip (done queue : list Z) (d : Z) :
  levels done (d :: queue) -> levels done queue.
Proof.
  intros (S1 & S2 & C & W). inversion S2; subst.
  repeat split; auto.
  - intros p q Ip Iq. apply C; simpl; auto.
  - intros q1 q2 I1 I2. apply W; simpl; auto.
Qed.

Lemma levels_process (done queue news : list Z) (d : Z) :
  levels done (d :: queue) ->
  (forall x, In x news -> x = (d + 1)%Z) ->
  levels (done ++ [d]) (queue ++ news).
Proof.
  intros (S1 & S2 & C & W) N.
  inversion S2 as [|? ? S2' F]; subst.
  rewrite Forall_forall in F.
  assert (Wd : forall q, In q queue -> (q <= d + 1)%Z).
  { intros q I. apply (W d q); simpl; auto. }
  repeat split.
  - apply StronglySorted_app; auto.
    + repeat constructor.
    + intros x y Ix [<-|[]]. apply C; simpl; auto.
  - apply StronglySorted_app; auto.
    + eapply StronglySorted_const, N.
    + intros x y Ix Iy. apply N in Iy. subst y. auto.
  - intros p q. rewrite !in_app_iff. simpl. intros [Ip|[<-|[]]] [Iq|Iq].
    + apply C; simpl; auto.
    + apply N in Iq. subst q. assert (p <= d)%Z by (apply C; simpl; auto). lia.
    + auto.
    + apply N in Iq. lia.
  - intros q1 q2. rewrite !in_app_iff. intros [I1|I1] [I2|I2].
    + apply W; simpl; auto.
    + apply N in I2. subst q2. apply F in I1. lia.
    + apply N in I1. subst q1. apply Wd in I2. lia.
    + apply N in I1. apply N in I2. lia.
Qed.

Lemma reachable_levels `{Platform} (o : WebsiteCrawlerOptions)
      (startUrl : string) (st : State) :
  reachable o startUrl st ->
  levels (map snd (visits (trace st))) (map snd (toVisit st)).
Proof.
  by_invariant o startUrl st.
  - simpl. repeat split.
    + constructor.
    + repeat constructor.
    + intros p q [].
    + intros q1 q2 [<-|[]] [<-|[]]. lia.
  - intros s u d rest s' _ IH _ Q O. rewrite Q in IH. simpl in IH.
    destruct O as [_|evs html emails called links Hv _ _ Hf Hn L|evs r emails' called error ev out Hv _ _ Hf Ht Hr].
    + simpl; trace_simpl. eapply levels_skip; eauto.
    + step_events Hf. simpl; silent_events; trace_simpl; kill_nil.
      rewrite !map_app. simpl. apply levels_process; auto.
      intros x. rewrite map_map. simpl. rewrite in_map_iff.
      now intros (lk & <- & _).
    + step_events Hf. silent_events. simpl; trace_simpl; kill_nil.
      rewrite !map_app. simpl. rewrite <- (app_nil_r (map snd rest)).
      apply levels_process; auto. intros x [].
Qed.

(** ** First discovery *)

Lemma firstDepth_app_Some (u : string) (d : Z) (es more : list FrontierEntry) :
  firstDepth u es = Some d -> firstDepth u (es ++ more) = Some d.
Proof.
  induction es as [|[v dv] es IH]; simpl; [discriminate|].
  destruct (String.eqb u v); auto.
Qed.

Lemma firstDepth_first (u : string) (d : Z) (done rest : list FrontierEntry) :
  (forall d', ~ In (u, d') done) ->
  firstDepth u (done ++ (u, d) :: rest) = Some d.
Proof.
  induction done as [|[v dv] done IH]; simpl; intros N.
  - now rewrite String.eqb_refl.
  - destruct (String.eqb u v) eqn:E.
    + apply String.eqb_eq in E. subst v. exfalso. apply (N dv). now left.
    + apply IH. intros d' I. apply (N d'). now right.
Qed.

Lemma reachable_firstDiscovery `{Platform} (o : WebsiteCrawlerOptions)
      (startUrl : string) (st : State) :
  reachable o startUrl st -> firstDiscovery o startUrl st.
Proof.
  by_invariant o startUrl st.
  - constructor; simpl; tauto.
  - intros s u d rest s' R [Fs Ff] _ Q O.
    destruct (reachable_bookKeeping o startUrl s R) as [Bv Bn Bf].
    destruct (reachable_depthBounds o startUrl s R) as [Dq Dv De Df].
    rewrite Q in Bf.
    assert (Fresh : JSSet.has u (visited s) = false ->
                    (d <= maxDepth o)%Z ->
                    rejectedByDomain o (getDomain startUrl) u = false ->
                    forall d', ~ In (u, d') (shifted (trace s))).
    { intros Hv Hd Hs d' I.
      destruct (Fs _ _ I) as [A|[A|A]].
      - apply has_false_notIn in Hv. auto.
      - congruence.
      - assert (I' : In (u, d') ((startUrl, 0%Z) :: enqueued (trace s))).
        { rewrite Bf. apply in_app_iff. auto. }
        destruct I' as [[= E <-]|I'].
        + assert (0 <= d)%Z by (apply (Dq u); rewrite Q; now left). lia.
        + apply De in I'. lia. }
    assert (Shift : forall vis,
               (forall x, In x (visited s) -> In x vis) ->
               (In u vis \/ rejectedByDomain o (getDomain startUrl) u = true \/
                (maxDepth o < d)%Z) ->
               forall u' d', In (u', d') (shifted (trace s) ++ [(u, d)]) ->
               In u' vis \/ rejectedByDomain o (getDomain startUrl) u' = true \/
               (maxDepth o < d')%Z).
    { intros vis Sub New u' d'. rewrite in_app_iff. simpl.
      intros [I|[[= <- <-]|[]]]; auto.
      destruct (Fs _ _ I) as [A|[A|A]]; auto. }
    assert (Sub : forall x, In x (visited s) -> In x (JSSet.add u (visited s))).
    { intros x I. apply In_add. auto. }
    assert (Self : In u (JSSet.add u (visited s))) by (apply In_add; auto).
    destruct O as [Sk|evs html emails called links Hv Hd Hs Hf Hn L|evs r emails' called error ev out Hv Hd Hs Hf Ht Hr].
    + constructor; simpl; trace_simpl; auto.
      apply Shift; auto.
      destruct Sk as [A|[A|A]]; auto. apply has_In in A. auto.
    + step_events Hf. constructor; simpl; silent_events; trace_simpl; kill_nil.
      * apply Shift; auto.
      * intros u' d'. rewrite in_app_iff. simpl.
        intros [I|[[= <- <-]|[]]].
        -- apply (firstDepth_app_Some _ _ ((startUrl, 0%Z) :: enqueued (trace s))).
           auto.
        -- apply (firstDepth_app_Some _ _ ((startUrl, 0%Z) :: enqueued (trace s))).
           rewrite Bf. apply firstDepth_first. auto.
    + step_events Hf. silent_events.
      constructor; simpl; trace_simpl; kill_nil.
      * apply Shift; auto.
      * intros u' d'. rewrite in_app_iff. intros I.
        change (firstDepth u' ((startUrl, 0%Z) :: enqueued (trace s)) = Some d').
        destruct I as [I|[[= <- <-]|[]]]; auto.
        rewrite Bf. apply firstDepth_first. auto.
Qed.

(** The function returns: some amount of fuel is enough. *)
Lemma scrapeEmailsFromWebsite_returns `{Platform}
      (o : WebsiteCrawlerOptions) (startUrl : string) :
  exists fuel result, scrapeEmailsFromWebsite fuel startUrl o = Some result.
Proof.
  unfold scrapeEmailsFromWebsite, crawl.
  destruct (runLoop_terminates o (getDomain startUrl) (initState startUrl))
    as (fuel & final & E).
  exists fuel, (completion final). now rewrite E.
Qed.

(** ** The result set only grows *)

Lemma loopBody_emails `{Platform} (o : WebsiteCrawlerOptions) (sd : string)
      (st : State) :
  incl (allEmails st) (allEmails (loopBody o sd st)).
Proof.
  destruct (toVisit st) as [|[u d] rest] eqn:Q.
  - unfold loopBody. rewrite Q. apply incl_refl.
  - destruct (loopBody_outcome o sd st u d rest Q)
      as [_|evs html emails called links _ _ _ _ _ _
          |evs r emails' called error ev out _ _ _ _ Ht _]; simpl;
      try apply incl_refl.
    + intros x I. apply In_addAll. auto.
    + apply tryFails_cases in Ht.
      destruct Ht as [(_ & -> & _)|(html & emails & _ & -> & _)];
        [apply incl_refl|].
      intros x I. apply In_addAll. auto.
Qed.

Lemma iterate_emails `{Platform} (o : WebsiteCrawlerOptions) (sd : string)
      (n : nat) (st : State) :
  incl (allEmails st) (allEmails (iterate o sd n st)).
Proof.
  revert st. induction n as [|n IH]; intros st; simpl; [apply incl_refl|].
  destruct (running o st); [|apply incl_refl].
  eapply incl_tran; [apply loopBody_emails | apply IH].
Qed.

Lemma iterate_add `{Platform} (o : WebsiteCrawlerOptions) (sd : string)
      (n m : nat) (st : State) :
  iterate o sd (n + m) st = iterate o sd m (iterate o sd n st).
Proof.
  revert st. induction n as [|n IH]; intros st; simpl; auto.
  destruct (running o st) eqn:C; auto.
  destruct m; simpl; auto. now rewrite C.
Qed.

Lemma iterate_final `{Platform} (o : WebsiteCrawlerOptions) (sd : string)
      (n : nat) (st : State) :
  running o st = false -> iterate o sd n st = st.
Proof. destruct n; simpl; auto. now intros ->. Qed.

(** ** The link pattern and extractLinks *)

Lemma spanNotQuote_spec (s p r : list ascii) :
  spanNotQuote s = (p, r) ->
  s = p ++ r /\ (forall c, In c p -> isQuote c = false) /\
  match r with [] => True | q :: _ => isQuote q = true end.
Proof.
  revert p r. induction s as [|c s IH]; simpl; intros p r E.
  - injection E as <- <-. simpl. tauto.
  - destruct (isQuote c) eqn:Qc.
    + injection E as <- <-. simpl. tauto.
    + destruct (spanNotQuote s) as [p' r'] eqn:Es.
      injection E as <- <-.
      destruct (IH p' r' eq_refl) as (A & B & C).
      repeat split; auto.
      * simpl. now rewrite <- A.
      * intros x [<-|I]; auto.
Qed.

Lemma matchHref_spec (s cap : list ascii) (n : nat) :
  matchHref s = Some (cap, n) -> hrefValueAt s cap.
Proof.
  unfold matchHref.
  destruct s as [|h [|r [|e [|f [|eq [|q s']]]]]]; try discriminate.
  destruct (ciEq h "h" "H") eqn:Eh; simpl; [|discriminate].
  destruct (ciEq r "r" "R") eqn:Er; simpl; [|discriminate].
  destruct (ciEq e "e" "E") eqn:Ee; simpl; [|discriminate].
  destruct (ciEq f "f" "F") eqn:Ef; simpl; [|discriminate].
  destruct (Ascii.eqb eq "=") eqn:Eeq; simpl; [|discriminate].
  destruct (isQuote q) eqn:Eq; simpl; [|discriminate].
  destruct (spanNotQuote s') as [p r'] eqn:Es.
  destruct p as [|c p]; [discriminate|].
  destruct r' as [|q2 post]; [discriminate|].
  intros [= <- _].
  apply spanNotQuote_spec in Es. destruct Es as (A & B & C).
  apply Ascii.eqb_eq in Eeq. subst eq.
  exists h, r, e, f, q, q2, post. rewrite A.
  repeat split; auto. discriminate.
Qed.

Lemma matchAttrs_spec (s cap : list ascii) (k n : nat) :
  matchAttrs s k = Some (cap, n) ->
  exists mid tl,
    s = mid ++ tl /\ (forall c, In c mid -> c <> ">"%char) /\
    hrefValueAt tl cap.
Proof.
  revert k n. induction s as [|c s IH]; intros k n; simpl.
  - discriminate.
  - assert (Here : match matchHref (c :: s) with
                   | Some (cap0, n0) => Some (cap0, k + n0)
                   | None => None
                   end = Some (cap, n) ->
                   exists mid tl,
                     c :: s = mid ++ tl /\
                     (forall x, In x mid -> x <> ">"%char) /\
                     hrefValueAt tl cap).
    { destruct (matchHref (c :: s)) as [[cap0 n0]|] eqn:M; [|discriminate].
      intros [= <- _]. exists [], (c :: s). simpl.
      repeat split; [tauto | eapply matchHref_spec, M]. }
    destruct (Ascii.eqb c ">") eqn:Ec; [exact Here|].
    destruct (matchAttrs s (S k)) as [[cap1 n1]|] eqn:M; [|exact Here].
    intros [= <- _]. destruct (IH _ _ M) as (mid & tl & A & B & C).
    exists (c :: mid), tl. simpl. rewrite A. repeat split; auto.
    intros x [<-|I]; auto. now apply Ascii.eqb_neq.
Qed.

Lemma matchAnchor_spec (s cap : list ascii) (n : nat) :
  matchAnchor s = Some (cap, n) -> anchorHrefIn s cap.
Proof.
  unfold matchAnchor. destruct s as [|lt [|a [|c s']]]; try discriminate.
  destruct (Ascii.eqb lt "<") eqn:El; simpl; [|discriminate].
  destruct (ciEq a "a" "A") eqn:Ea; simpl; [|discriminate].
  destruct (Ascii.eqb c ">") eqn:Ec; simpl; [discriminate|].
  destruct (matchAttrs s' 1) as [[cap1 n1]|] eqn:M; [|discriminate].
  intros [= <- _]. apply matchAttrs_spec in M.
  destruct M as (mid & tl & A & B & C).
  apply Ascii.eqb_eq in El. subst lt.
  exists [], a, (c :: mid), tl. simpl. rewrite A.
  repeat split; auto; [discriminate|].
  intros x [<-|I]; auto. now apply Ascii.eqb_neq.
Qed.

Lemma anchorHrefIn_cons (c : ascii) (s cap : list ascii) :
  anchorHrefIn s cap -> anchorHrefIn (c :: s) cap.
Proof.
  intros (pre & a & mid & tl & E & R). exists (c :: pre), a, mid, tl.
  simpl. now rewrite E.
Qed.

Lemma execAll_spec (s cap : list ascii) (skip : nat) :
  In cap (execAll skip s) -> anchorHrefIn s cap.
Proof.
  revert skip. induction s as [|c s IH]; intros skip; [simpl; tauto|].
  destruct skip as [|k]; cbn [execAll].
  - destruct (matchAnchor (c :: s)) as [[cap0 n]|] eqn:M.
    + intros [<-|I].
      * eapply matchAnchor_spec, M.
      * eapply anchorHrefIn_cons, IH, I.
    + intros I. eapply anchorHrefIn_cons, IH, I.
  - intros I. eapply anchorHrefIn_cons, IH, I.
Qed.

Lemma hrefMatches_spec (html m : string) :
  In m (hrefMatches html) ->
  anchorHrefIn (list_ascii_of_string html) (list_ascii_of_string m).
Proof.
  unfold hrefMatches. rewrite in_map_iff. intros (cap & <- & I).
  rewrite list_ascii_of_string_of_list_ascii. eapply execAll_spec, I.
Qed.

(** Both quote characters open and close a value; the last [href=] of a
    run wins (the run is greedy); a tag closed before its [href=] does not
    match. *)
Example hrefMatches_samples :
  hrefMatches (String "<" (String "a" (String " " (String "h" (String "r"
    (String "e" (String "f" (String "=" (String dquote (String "/" (String "x"
    (String dquote (String ">" EmptyString))))))))))))) = ["/x"] /\
  hrefMatches "<A class='k' HREF='b'> <a href='x' data-href='y'>" = ["b"; "y"] /\
  hrefMatches "<a>href='z' <ahref='no'> <a href=''>" = [].
Proof. repeat split; reflexivity. Qed.

Lemma href_nonempty (u : URL) : href u <> "".
Proof.
  unfold href. destruct (scheme u); simpl; discriminate.
Qed.

Lemma append_assoc (a b c : string) :
  ((a ++ b) ++ c = a ++ (b ++ c))%string.
Proof. induction a as [|x a IH]; simpl; [reflexivity | now rewrite IH]. Qed.

Lemma append_empty (a : string) : (a ++ "")%string = a.
Proof. induction a as [|x a IH]; simpl; [reflexivity | now rewrite IH]. Qed.

(** Clearing the hash removes the fragment, and only it, from the href of
    a URL whose path is not opaque, or that has a query. *)
Lemma href_clearHash (u : URL) :
  opaquePath u = false \/ query u <> None ->
  href u =
  (href (clearHash u) ++
   match fragment u with Some f => "#" ++ f | None => "" end)%string.
Proof.
  destruct u as [s un pw h pt p op q f]. unfold href, clearHash.
  cbn [scheme username password host port path opaquePath query fragment].
  intros C.
  replace (if (op && match q with None => true | Some _ => false end)%bool
           then stripTrailingSpaces p else p) with p.
  - rewrite !append_assoc. reflexivity.
  - destruct C as [->|C]; [reflexivity|].
    destruct q; [now rewrite andb_false_r | congruence].
Qed.

(** For the other URLs the trailing spaces of the path go as well. *)
Example clearHash_opaque :
  href (clearHash (mkURL "data" "" "" None None "text/plain,hi  " true None
                         (Some "top"))) = "data:text/plain,hi" /\
  href (mkURL "data" "" "" None None "text/plain,hi  " true None (Some "top"))
  = "data:text/plain,hi  #top".
Proof. split; reflexivity. Qed.

Lemma normalizeUrl_Some `{Platform} (url baseUrl l : string) :
  normalizeUrl url baseUrl = Some l <->
  exists base resolved,
    newURL baseUrl None = Some base /\
    newURL url (Some base) = Some resolved /\
    l = href (clearHash resolved).
Proof.
  unfold normalizeUrl. split.
  - destruct (newURL baseUrl None) as [base|] eqn:Eb; [|discriminate].
    destruct (newURL url (Some base)) as [resolved|] eqn:Er; [|discriminate].
    intros [= <-]. exists base, resolved. auto.
  - intros (base & resolved & -> & -> & ->). reflexivity.
Qed.

Lemma normalizeUrl_truthy `{Platform} (url baseUrl l : string) :
  normalizeUrl url baseUrl = Some l -> truthy (Some l) = true.
Proof.
  intros E. apply normalizeUrl_Some in E.
  destruct E as (base & resolved & _ & _ & ->).
  simpl. apply negb_true_iff, String.eqb_neq, href_nonempty.
Qed.

Lemma extractLinks_fold `{Platform} (baseUrl : string) (ms : list string)
      (acc : JSSet.t) (l : string) :
  In l (fold_left
          (fun links m =>
             let normalized := normalizeUrl m baseUrl in
             match normalized with
             | Some n => if truthy normalized then JSSet.add n links else links
             | None => links
             end) ms acc) <->
  In l acc \/ exists m, In m ms /\ normalizeUrl m baseUrl = Some l.
Proof.
  revert acc. induction ms as [|m ms IH]; intros acc; simpl.
  - split; [auto | intros [I|(m & [] & _)]; auto].
  - rewrite IH. destruct (normalizeUrl m baseUrl) as [n|] eqn:E.
    + rewrite (normalizeUrl_truthy _ _ _ E). rewrite In_add. split.
      * intros [[->|I]|(m' & I & E')]; eauto.
      * intros [I|(m' & [<-|I] & E')]; eauto.
        rewrite E in E'. injection E' as ->. auto.
    + split.
      * intros [I|(m' & I & E')]; eauto.
      * intros [I|(m' & [<-|I] & E')]; eauto. congruence.
Qed.

Lemma extractLinks_NoDup_fold `{Platform} (baseUrl : string)
      (ms : list string) (acc : JSSet.t) :
  NoDup acc ->
  NoDup (fold_left
           (fun links m =>
              let normalized := normalizeUrl m baseUrl in
              match normalized with
              | Some n => if truthy normalized then JSSet.add n links else links
              | None => links
              end) ms acc).
Proof.
  revert acc. induction ms as [|m ms IH]; intros acc ND; simpl; auto.
  apply IH. destruct (normalizeUrl m baseUrl) as [n|]; auto.
  destruct (truthy (Some n)); auto. now apply NoDup_add.
Qed.

Lemma In_extractLinks `{Platform} (html baseUrl l : string) :
  In l (extractLinks html baseUrl) <->
  exists m, In m (hrefMatches html) /\ normalizeUrl m baseUrl = Some l.
Proof.
  unfold extractLinks. rewrite extractLinks_fold. simpl. tauto.
Qed.

(** ** The claims *)

(** Scenario A of the design document: the start page and its contact page
    are visited, and both addresses are returned. *)
Example scenarioA :
  @scrapeEmailsFromWebsite Scenario.worldA 3 "https://example.com"
     Scenario.optionsA = Some (inr ["info@example.com"; "sales@example.com"]).
Proof. vm_compute. reflexivity. Qed.

(** Every fetch strategy starts by fetching the URL it is given. *)
Lemma fetchPage_starts `{Platform} (o : WebsiteCrawlerOptions)
      (hist : list event) (url : string) :
  startsFetch o url (fst (fetchPage o hist url)) = true.
Proof.
  unfold fetchPage, browserFetch, httpFetch, runPage, startsFetch, browserMode.
  destruct (useBrowser o); [|simpl; apply String.eqb_refl].
  destruct (browser o) as [b|]; [|simpl; apply String.eqb_refl].
  destruct (b hist url) as [t|ps]; [reflexivity|].
  destruct (gotoResult ps), (contentResult ps), (scrapeResult ps);
    simpl; apply String.eqb_refl.
Qed.

(** An entry that is new, within the depth ceiling and in scope is
    processed: it is recorded as visited and its fetch strategy is run. *)
Lemma loopBody_processes `{Platform} (o : WebsiteCrawlerOptions) (sd : string)
      (st : State) (u : string) (d : Z) (rest : list FrontierEntry) :
  toVisit st = (u, d) :: rest ->
  JSSet.has u (visited st) = false ->
  (d <= maxDepth o)%Z ->
  rejectedByDomain o sd u = false ->
  let st' := loopBody o sd st in
  let evs := fst (fetchPage o (trace st ++ [EvShift u d; EvVisit u d]) u) in
  visits (trace st') = visits (trace st) ++ [(u, d)] /\
  visited st' = JSSet.add u (visited st) /\
  exists tl, trace st' = trace st ++ EvShift u d :: EvVisit u d :: evs ++ tl.
Proof.
  intros Q Hv Hd Hs.
  destruct (loopBody_outcome o sd st u d rest Q)
    as [[A|[A|A]]|evs html emails called links _ _ _ Hf Hn L
        |evs r emails' called error ev out _ _ _ Hf Ht Hr];
    try congruence; try lia.
  - step_events Hf. simpl. rewrite Hf. simpl. repeat split; eauto.
    silent_events. trace_simpl. now kill_nil.
  - step_events Hf. simpl. rewrite Hf. simpl. repeat split; eauto.
    silent_events. trace_simpl. now kill_nil.
Qed.

(** With a budget of one page only the start URL can be processed. *)
Lemma reachable_single_page `{Platform} (o : WebsiteCrawlerOptions)
      (startUrl : string) (st : State) :
  maxPages o = 1%Z ->
  reachable o startUrl st ->
  (visited st = [] /\ fetchedUrls (trace st) = [] /\
   forall u d, In (u, d) (toVisit st) -> u = startUrl) \/
  (visited st = [startUrl] /\
   forall u, In u (fetchedUrls (trace st)) -> u = startUrl).
Proof.
  intros M. by_invariant o startUrl st.
  - left. simpl. repeat split; auto. now intros u d [[= <- <-]|[]].
  - intros s u d rest s' _ IH B Q O. rewrite M in B.
    destruct IH as [(V & F & T)|(V & F)].
    2:{ rewrite V in B. simpl in B. lia. }
    assert (U : u = startUrl) by (apply (T u d); rewrite Q; now left).
    destruct O as [_|evs html emails called links Hv _ _ Hf Hn L
                   |evs r emails' called error ev out Hv _ _ Hf Ht Hr].
    + left. simpl; trace_simpl. repeat split; auto.
      intros u' d' I. apply (T u' d'). rewrite Q. now right.
    + right. step_events Hf. simpl; silent_events; trace_simpl; kill_nil.
      rewrite ?V, ?F. subst u. split; auto. simpl.
      destruct fe_fetched0 as [E|E]; rewrite E; simpl; [tauto|].
      now intros x [<-|[]].
    + right. step_events Hf. silent_events. simpl; trace_simpl; kill_nil.
      rewrite ?V, ?F. subst u. split; auto. simpl.
      destruct fe_fetched0 as [E|E]; rewrite E; simpl; [tauto|].
      now intros x [<-|[]].
Qed.

(** C1.  At every point of every run with [maxPages >= 0] the visited set
    holds at most [maxPages] URLs, however many links the pages offer.  With
    [maxPages = 1] no URL other than the start URL is ever visited or given
    to the platform; and in the scenario of a start page with five distinct links
    the run ends with the start URL alone visited and fetched, the five
    links left on the frontier. *)
Theorem C1_visited_within_maxPages `{Platform} (o : WebsiteCrawlerOptions)
        (startUrl : string) (n : nat) :
  (0 <= maxPages o)%Z ->
  (Z.of_nat (JSSet.size (visited (stateAt o startUrl n))) <= maxPages o)%Z /\
  (maxPages o = 1%Z ->
   forall u, In u (visited (stateAt o startUrl n)) \/
             In u (platformUrls (trace (stateAt o startUrl n))) ->
             u = startUrl) /\
  (exists final,
      @crawl Scenario.worldB 3 "https://site.example/" Scenario.optionsB
        = Some final /\
      visited final = ["https://site.example/"] /\
      fetchedUrls (trace final) = ["https://site.example/"] /\
      toVisit final = [("https://site.example/p1", 1%Z);
                       ("https://site.example/p2", 1%Z);
                       ("https://site.example/p3", 1%Z);
                       ("https://site.example/p4", 1%Z);
                       ("https://site.example/p5", 1%Z)]).
Proof.
  intros M. pose proof (stateAt_reachable o startUrl n) as R. repeat split.
  - now apply (reachable_budget o startUrl).
  - intros M1 u I.
    assert (V : In u (visited (stateAt o startUrl n))).
    { destruct I as [I|I]; auto.
      rewrite (bk_visited _ _ (reachable_bookKeeping o startUrl _ R)).
      now apply (reachable_platformUrls o startUrl _ R). }
    destruct (reachable_single_page o startUrl _ M1 R) as [(E & _)|(E & _)];
      rewrite E in V; simpl in V; intuition.
  - eexists. split; [vm_compute; reflexivity|]. repeat split.
Qed.

Lemma C1_witness :
  (0 <= maxPages Scenario.optionsB)%Z /\
  (Z.of_nat (JSSet.size
     (visited (@stateAt Scenario.worldB Scenario.optionsB
                        "https://site.example/" 4)))
   <= maxPages Scenario.optionsB)%Z.
Proof.
  split; [simpl; lia|].
  apply (@C1_visited_within_maxPages Scenario.worldB Scenario.optionsB
           "https://site.example/" 4).
  simpl; lia.
Defined.

(** Every link pushed onto the frontier passes the domain test it will meet
    when it is taken from it. *)
Lemma reachable_enqueued_in_scope `{Platform} (o : WebsiteCrawlerOptions)
      (startUrl : string) (st : State) :
  reachable o startUrl st ->
  forall l d, In (l, d) (enqueued (trace st)) ->
              rejectedByDomain o (getDomain startUrl) l = false.
Proof.
  by_invariant o startUrl st.
  - simpl. tauto.
  - intros s u d rest s' _ IH _ Q O.
    destruct O as [_|evs html emails called links Hv _ _ Hf Hn L|evs r emails' called error ev out Hv _ _ Hf Ht Hr].
    + simpl; trace_simpl; auto.
    + step_events Hf. simpl; silent_events; trace_simpl; kill_nil.
      intros l' d'. rewrite in_app_iff, in_map_iff.
      intros [I|(lk & [= <- <-] & I)]; eauto.
      subst links. apply In_links_depth in I. destruct I as (_ & A & _).
      unfold linkAccepted in A. apply andb_true_iff in A. destruct A as [_ A].
      unfold rejectedByDomain.
      destruct (sameDomainOnly o); simpl in *; [now rewrite A | reflexivity].
    + step_events Hf. silent_events. simpl; trace_simpl; kill_nil. auto.
Qed.


(** Every entry on the frontier is in scope: the domain test on a dequeued
    entry repeats the test made when the entry was pushed. *)
Lemma reachable_frontier_in_scope `{Platform} (o : WebsiteCrawlerOptions)
      (startUrl : string) (st : State) :
  reachable o startUrl st ->
  forall u d, In (u, d) (shifted (trace st) ++ toVisit st) ->
              rejectedByDomain o (getDomain startUrl) u = false.
Proof.
  intros R u d I.
  rewrite <- (bk_fifo _ _ (reachable_bookKeeping o startUrl st R)) in I.
  destruct I as [[= <- _]|I].
  - unfold rejectedByDomain. rewrite String.eqb_refl.
    now destruct (sameDomainOnly o).
  - now apply (reachable_enqueued_in_scope o startUrl st R u d).
Qed.

(** In the trace, every processed entry is followed by the events of its
    fetch strategy, run on the history up to there. *)
Lemma reachable_visit_fetches `{Platform} (o : WebsiteCrawlerOptions)
      (startUrl : string) (st : State) :
  reachable o startUrl st ->
  forall u d, In (u, d) (visits (trace st)) ->
    exists pre post,
      trace st =
      pre ++ EvVisit u d :: fst (fetchPage o (pre ++ [EvVisit u d]) u) ++ post.
Proof.
  by_invariant o startUrl st.
  - simpl. tauto.
  - intros s u d rest s' _ IH _ Q O.
    assert (Old : forall tl u' d',
               In (u', d') (visits (trace s)) ->
               exists pre post,
                 trace s ++ tl =
                 pre ++ EvVisit u' d' ::
                 fst (fetchPage o (pre ++ [EvVisit u' d']) u') ++ post).
    { intros tl u' d' I. destruct (IH _ _ I) as (pre & post & E).
      exists pre, (post ++ tl). rewrite E at 1.
      rewrite <- !app_assoc. simpl. now rewrite <- app_assoc. }
    assert (New : forall evs r tl,
               fetchPage o (trace s ++ [EvShift u d; EvVisit u d]) u = (evs, r) ->
               exists pre post,
                 trace s ++ EvShift u d :: EvVisit u d :: evs ++ tl =
                 pre ++ EvVisit u d ::
                 fst (fetchPage o (pre ++ [EvVisit u d]) u) ++ post).
    { intros evs r tl Hf. exists (trace s ++ [EvShift u d]), tl.
      rewrite <- !app_assoc. simpl. now rewrite Hf. }
    destruct O as [_|evs html emails called links Hv _ _ Hf Hn L
                   |evs r emails' called error ev out Hv _ _ Hf Ht Hr];
      cbn [trace]; intros u' d'; rewrite visits_app, in_app_iff;
      (intros [I|I]; [now apply Old|]).
    + destruct I.
    + step_events Hf. cbn [visits] in I. rewrite !visits_app in I.
      apply notifyVisited_silent in Hn. destruct Hn as (Hn & _).
      rewrite fe_visits0, Hn, visits_map_enqueue in I.
      destruct I as [[= <- <-]|[]]. eapply New, Hf.
    + step_events Hf. cbn [visits] in I. rewrite !visits_app in I.
      apply tryFails_silent in Ht. destruct Ht as (Ht & _).
      apply reportError_silent in Hr. destruct Hr as (Hr & _).
      rewrite fe_visits0, Ht, Hr in I.
      destruct I as [[= <- <-]|[]]. eapply New, Hf.
Qed.

(** C2, as stated, fails: an entry at the depth ceiling that is still on
    the frontier when the page budget runs out is never fetched.  Here the
    five links of the start page wait at depth one, the depth ceiling, and
    the budget is one page. *)
Lemma C2_counterexample :
  ~ (forall (P : Platform) (o : WebsiteCrawlerOptions) (startUrl : string)
            (fuel : nat) (final : State),
        @crawl P fuel startUrl o = Some final ->
        forall u d, In (u, d) ((startUrl, 0%Z) :: enqueued (trace final)) ->
                    d = maxDepth o ->
                    In u (fetchedUrls (trace final))).
Proof.
  intros C.
  destruct (@crawl Scenario.worldB 3 "https://site.example/"
                   Scenario.optionsShallow) as [final|] eqn:E;
    [|vm_compute in E; discriminate].
  specialize (C Scenario.worldB Scenario.optionsShallow
                "https://site.example/" 3 final E
                "https://site.example/p1" 1%Z).
  vm_compute in E. injection E as <-. simpl in C.
  destruct C as [C|[]]; auto. discriminate.
Qed.

(** C2, amended.  At every point of every run: a URL given to the platform
    (fetch, goto or the page scraper) belongs to an entry processed at a
    depth of at most [maxDepth]; a link is pushed only at a depth of at most
    [maxDepth], one more than the depth of a processed page below the
    ceiling.  An entry taken from the frontier at a depth of at most
    [maxDepth], in particular at [maxDepth], has its URL processed, by that
    entry or by an earlier one; and in the trace every processed entry is
    followed by the start of its fetch: the call of [fetch] with its URL,
    or newPage and then goto with its URL.  At the head of the loop, an
    entry deeper than [maxDepth] is dropped with nothing fetched; an entry
    at depth [maxDepth] either has a URL that was processed before, or is
    processed now: its fetch is started and nothing is pushed onto the
    frontier.  In scenario A with a depth ceiling of one, the contact page,
    found at depth one, is fetched and nothing is pushed from it. *)
Theorem C2_depth_ceiling `{Platform} (o : WebsiteCrawlerOptions)
        (startUrl : string) (n : nat) :
  let st := stateAt o startUrl n in
  let sd := getDomain startUrl in
  (forall u, In u (platformUrls (trace st)) ->
     exists d, In (u, d) (visits (trace st)) /\ (d <= maxDepth o)%Z) /\
  (forall l d, In (l, d) (enqueued (trace st)) ->
     (d <= maxDepth o)%Z /\
     exists u, In (u, (d - 1)%Z) (visits (trace st)) /\
               (d - 1 < maxDepth o)%Z) /\
  (forall u d, In (u, d) (shifted (trace st)) -> (d <= maxDepth o)%Z ->
     exists d', In (u, d') (visits (trace st))) /\
  (forall u d, In (u, d) (visits (trace st)) ->
     exists pre post,
       let evs := fst (fetchPage o (pre ++ [EvVisit u d]) u) in
       trace st = pre ++ EvVisit u d :: evs ++ post /\
       startsFetch o u evs = true) /\
  (forall u d rest, toVisit st = (u, d) :: rest ->
     ((maxDepth o < d)%Z ->
      loopBody o sd st =
      mkState (allEmails st) (visited st) rest (trace st ++ [EvShift u d])
              None) /\
     (d = maxDepth o ->
      (exists d', In (u, d') (visits (trace st))) \/
      (let st' := loopBody o sd st in
       let evs := fst (fetchPage o (trace st ++ [EvShift u d; EvVisit u d]) u) in
       visits (trace st') = visits (trace st) ++ [(u, d)] /\
       startsFetch o u evs = true /\
       (exists tl, trace st' =
                   trace st ++ EvShift u d :: EvVisit u d :: evs ++ tl) /\
       toVisit st' = rest /\
       enqueued (trace st') = enqueued (trace st)))) /\
  (exists final,
      @crawl Scenario.worldA 3 "https://example.com" Scenario.optionsA
        = Some final /\
      maxDepth Scenario.optionsA = 1%Z /\
      shifted (trace final) = [("https://example.com", 0%Z);
                               ("https://example.com/contact", 1%Z)] /\
      fetchedUrls (trace final) = ["https://example.com";
                                   "https://example.com/contact"] /\
      enqueued (trace final) = [("https://example.com/contact", 1%Z)]).
Proof.
  intros st sd. pose proof (stateAt_reachable o startUrl n) as R.
  fold st in R. destruct (reachable_depthBounds o startUrl st R) as [Dq Dv De _].
  pose proof (reachable_platformUrls o startUrl st R) as Df.
  destruct (reachable_bookKeeping o startUrl st R) as [Bv _ _].
  assert (Seen : forall u, In u (visited st) ->
                           exists d', In (u, d') (visits (trace st))).
  { intros u I. rewrite Bv in I. apply in_map_iff in I.
    destruct I as ([u' d'] & E & I). simpl in E. subst u'. eauto. }
  split; [|split; [|split; [|split; [|split]]]].
  - intros u I. apply Df, in_map_iff in I. destruct I as ([u' d] & E & I).
    simpl in E. subst u'. exists d. split; auto. now apply (Dv u).
  - intros l d I. destruct (De l d I) as [A [u B]]. split; auto.
    exists u. split; auto. lia.
  - intros u d I Hd.
    destruct (fd_shifted _ _ _ (reachable_firstDiscovery o startUrl st R) u d I)
      as [A|[A|A]]; [now apply Seen| |lia].
    rewrite (reachable_frontier_in_scope o startUrl st R u d) in A;
      [discriminate|]. apply in_app_iff. auto.
  - intros u d I.
    destruct (reachable_visit_fetches o startUrl st R u d I) as (pre & post & E).
    exists pre, post. split; [exact E | apply fetchPage_starts].
  - intros u d rest Q. split.
    + intros Hd. destruct (loopBody_outcome o sd st u d rest Q)
        as [_|? ? ? ? ? _ Hd' _ _ _ _|? ? ? ? ? ? ? _ Hd' _ _ _ _]; auto; lia.
    + intros Hd.
      destruct (JSSet.has u (visited st)) eqn:Hv.
      { left. apply Seen. now apply has_In. }
      right. intros st' evs.
      assert (Hs : rejectedByDomain o sd u = false).
      { apply (reachable_frontier_in_scope o startUrl st R u d).
        apply in_app_iff. right. rewrite Q. now left. }
      destruct (loopBody_processes o sd st u d rest Q Hv) as (A & _ & B);
        auto; [lia|].
      repeat split; auto; [apply fetchPage_starts| |]; unfold st';
        destruct (loopBody_outcome o sd st u d rest Q)
          as [[K|[K|K]]|evs' html emails called links _ _ _ Hf Hn L
              |evs' r emails' called error ev out _ _ _ Hf Ht Hr];
        try congruence; try lia.
      * simpl. subst links. rewrite Hd, Z.ltb_irrefl. apply app_nil_r.
      * reflexivity.
      * subst links. rewrite Hd, Z.ltb_irrefl.
        step_events Hf. simpl; silent_events; trace_simpl; now kill_nil.
      * step_events Hf. silent_events. simpl; trace_simpl; now kill_nil.
  - eexists. split; [vm_compute; reflexivity|]. repeat split.
Qed.

(** C3.  With [sameDomainOnly] set, at every point of every run: each URL
    given to the platform (fetch, goto or the page scraper), each link
    pushed onto the frontier and each entry waiting on the frontier has the
    domain of the start URL, which the run computes once.  In the scenario of a start page on [a.example] that
    links to [b.example], nothing is pushed and only the start URL is
    fetched. *)
Theorem C3_same_domain_only `{Platform} (o : WebsiteCrawlerOptions)
        (startUrl : string) (n : nat) :
  sameDomainOnly o = true ->
  let st := stateAt o startUrl n in
  (forall u, In u (platformUrls (trace st)) ->
             getDomain u = getDomain startUrl) /\
  (forall l d, In (l, d) (enqueued (trace st)) ->
               getDomain l = getDomain startUrl) /\
  (forall l d, In (l, d) (toVisit st) -> getDomain l = getDomain startUrl) /\
  (exists final,
      @crawl Scenario.worldD 3 "https://a.example" Scenario.optionsD
        = Some final /\
      In "https://b.example/page"
         (@extractLinks Scenario.worldD Scenario.homeD "https://a.example") /\
      enqueued (trace final) = [] /\
      fetchedUrls (trace final) = ["https://a.example"]).
Proof.
  intros S st. pose proof (stateAt_reachable o startUrl n) as R. fold st in R.
  destruct (reachable_sameDomain o startUrl st S R) as [Iv Ie].
  pose proof (reachable_platformUrls o startUrl st R) as Df.
  destruct (reachable_bookKeeping o startUrl st R) as [_ _ Bf].
  repeat split.
  - intros u I. apply Df, in_map_iff in I. destruct I as ([u' d] & E & I).
    simpl in E. subst u'. now apply (Iv u d).
  - exact Ie.
  - intros l d I.
    assert (I' : In (l, d) ((startUrl, 0%Z) :: enqueued (trace st))).
    { rewrite Bf. apply in_app_iff. auto. }
    destruct I' as [[= <- _]|I']; [reflexivity | now apply (Ie l d)].
  - eexists. split; [vm_compute; reflexivity|].
    split; [vm_compute; auto|]. split; reflexivity.
Qed.

Lemma C3_witness :
  sameDomainOnly Scenario.optionsD = true /\
  forall u,
    In u (platformUrls
            (trace (@stateAt Scenario.worldP Scenario.optionsD
                             "https://a.example" 5))) ->
    @getDomain Scenario.worldP u = @getDomain Scenario.worldP "https://a.example".
Proof.
  split; [reflexivity|].
  apply (@C3_same_domain_only Scenario.worldP Scenario.optionsD
           "https://a.example" 5).
  reflexivity.
Defined.

(** ** Reported errors and their histories *)

Lemma reportsIn_app (pre a b : list event) :
  reportsIn pre (a ++ b) = reportsIn pre a ++ reportsIn (pre ++ a) b.
Proof.
  revert pre. induction a as [|e a IH]; intros pre; simpl.
  - now rewrite app_nil_r.
  - rewrite IH, <- !app_assoc. reflexivity.
Qed.

Lemma reportsIn_silent (pre a : list event) :
  reportedErrors a = [] -> reportsIn pre a = [].
Proof.
  revert pre. induction a as [|e a IH]; intros pre; simpl; auto.
  destruct e; simpl; try discriminate; apply IH.
Qed.

Lemma reportsIn_errors (pre tr : list event) :
  map snd (reportsIn pre tr) = reportedErrors tr.
Proof.
  revert pre. induction tr as [|e tr IH]; intros pre; simpl; auto.
  rewrite map_app, IH. destruct e; reflexivity.
Qed.

(** The history listed with a report is the trace up to the report. *)
Lemma reportsIn_split (p tr pre : list event) (u m : string) :
  In (pre, (u, m)) (reportsIn p tr) ->
  exists a ev post,
    tr = a ++ ev :: post /\ pre = p ++ a /\
    reportedErrors [ev] = [(u, m)].
Proof.
  revert p. induction tr as [|e tr IH]; intros p; simpl; [tauto|].
  rewrite in_app_iff. intros [I|I].
  - exists [], e, tr. rewrite app_nil_r.
    destruct e; simpl in I; try tauto;
      destruct I as [[= <- <- <-]|[]]; auto.
  - destruct (IH _ I) as (a & ev & post & -> & -> & E).
    exists (e :: a), ev, post. rewrite <- app_assoc. auto.
Qed.

(** Every error reported for a URL comes from the [try] block of the
    iteration on that URL: from its fetch strategy, run on the history of
    the run, or from onPageVisited, called after a fetch that succeeded. *)
Lemma reachable_reports `{Platform} (o : WebsiteCrawlerOptions)
      (startUrl : string) (st : State) :
  reachable o startUrl st ->
  forall pre u m, In (pre, (u, m)) (reportsIn [] (trace st)) ->
    exists h0 d called error,
      let hist := h0 ++ [EvShift u d; EvVisit u d] in
      let evs := fst (fetchPage o hist u) in
      pre = hist ++ evs ++ called /\
      m = message (toErrorObj error) /\
      ((called = [] /\ snd (fetchPage o hist u) = inl error) \/
       (exists html emails callback,
           snd (fetchPage o hist u) = inr (html, emails) /\
           onPageVisited o = Some callback /\
           called = [EvPageVisited u d (JSSet.size emails)] /\
           callback (hist ++ evs) u d (JSSet.size emails) = Some error)).
Proof.
  by_invariant o startUrl st.
  - simpl. tauto.
  - intros s u d rest s' _ IH _ Q O.
    destruct O as [_|evs html emails called links Hv _ _ Hf Hn L
                   |evs r emails' called error ev out Hv _ _ Hf Ht Hr];
      cbn [trace]; intros pre u' m; rewrite reportsIn_app, in_app_iff;
      (intros [I|I]; [now apply IH|]).
    + destruct I.
    + rewrite reportsIn_silent in I; [destruct I|].
      step_events Hf. silent_events. trace_simpl. now kill_nil.
    + change (EvShift u d :: EvVisit u d :: evs ++ called ++ [ev])
        with ([EvShift u d; EvVisit u d] ++ evs ++ called ++ [ev]) in I.
      rewrite !reportsIn_app in I.
      rewrite (reportsIn_silent _ [EvShift u d; EvVisit u d]) in I
        by reflexivity.
      rewrite (reportsIn_silent _ evs) in I
        by (step_events Hf; assumption).
      rewrite (reportsIn_silent _ called) in I
        by (eapply tryFails_silent, Ht).
      simpl in I. rewrite <- !app_assoc in I.
      assert (E : (pre, (u', m)) =
                  (trace s ++ [EvShift u d; EvVisit u d] ++ evs ++ called,
                   (u, message (toErrorObj error)))).
      { apply reportError_event in Hr.
        destruct Hr as [(_ & _ & ->)|(cb & _ & _ & ->)];
          rewrite app_nil_r in I; destruct I as [I|[]]; now symmetry. }
      injection E as -> -> ->.
      exists (trace s), d, called, error. cbn zeta.
      rewrite <- !app_assoc. rewrite Hf. cbn [fst snd].
      split; [reflexivity|]. split; [reflexivity|].
      apply tryFails_cases in Ht.
      destruct Ht as [(-> & _ & ->)|(html & emails & -> & _ & Hn)]; [auto|].
      right. apply notifyVisited_event in Hn.
      destruct Hn as [(_ & _ & Hn)|(cb & Ecb & -> & Hn)]; [discriminate|].
      exists html, emails, cb. repeat split; auto.
Qed.

Lemma fetchPage_no_browser `{Platform} (o : WebsiteCrawlerOptions)
      (hist : list event) (url : string) :
  browser o = None -> fetchPage o hist url = httpFetch hist url.
Proof. unfold fetchPage. intros ->. now destruct (useBrowser o). Qed.

(** The options with the browser switched off. *)
Lemma loopBody_no_browser `{Platform} (o : WebsiteCrawlerOptions)
      (sd : string) (st : State) :
  browser o = None ->
  loopBody o sd st =
  loopBody (mkOptions (maxDepth o) (maxPages o) (sameDomainOnly o) false None
                      (onPageVisited o) (onError o)) sd st.
Proof.
  intros B. destruct o as [md mp sdo ub br opv oe]. simpl in *. subst br.
  unfold loopBody, fetchPage. simpl. now destruct ub.
Qed.

(** C4, as stated, fails: with useBrowser set and no browser handle a run
    can process its pages without a single failure being reported. *)
Lemma C4_counterexample :
  ~ (forall (P : Platform) (o : WebsiteCrawlerOptions) (startUrl : string)
            (fuel : nat) (final : State),
        useBrowser o = true -> browser o = None ->
        @crawl P fuel startUrl o = Some final ->
        forall u d, In (u, d) (visits (trace final)) ->
                    In u (map fst (reportedErrors (trace final)))).
Proof.
  intros C.
  destruct (@crawl Scenario.worldA 3 "https://example.com"
                   Scenario.optionsNoBrowser) as [final|] eqn:E;
    [|vm_compute in E; discriminate].
  specialize (C Scenario.worldA Scenario.optionsNoBrowser
                "https://example.com" 3 final eq_refl eq_refl E
                "https://example.com" 0%Z).
  vm_compute in E. injection E as <-. simpl in C.
  destruct C; auto.
Qed.

(** C4, amended.  With useBrowser set and no browser handle, every fetch
    uses the HTTP strategy and the run is, state by state, the run with
    useBrowser unset.  Every failure reported for a URL is listed with the
    trace of the run up to the report, which ends with the call of [fetch]
    for that URL made on the history [hist], followed at most by the call
    of onPageVisited for it: either that HTTP fetch failed with the error
    reported, or it succeeded and onPageVisited threw the error
    reported. *)
Theorem C4_no_browser_handle_uses_http `{Platform}
        (o : WebsiteCrawlerOptions) (startUrl : string) (n : nat) :
  useBrowser o = true -> browser o = None ->
  let st := stateAt o startUrl n in
  (forall hist url, fetchPage o hist url = httpFetch hist url) /\
  st =
  stateAt (mkOptions (maxDepth o) (maxPages o) (sameDomainOnly o) false None
                     (onPageVisited o) (onError o)) startUrl n /\
  map snd (reportsIn [] (trace st)) = reportedErrors (trace st) /\
  (forall pre u m, In (pre, (u, m)) (reportsIn [] (trace st)) ->
     (exists ev post,
         trace st = pre ++ ev :: post /\ reportedErrors [ev] = [(u, m)]) /\
     exists h0 d called error,
       let hist := h0 ++ [EvShift u d; EvVisit u d] in
       pre = hist ++ EvFetch u :: called /\
       m = message (toErrorObj error) /\
       ((called = [] /\ snd (httpFetch hist u) = inl error) \/
        (exists html emails callback,
            snd (httpFetch hist u) = inr (html, emails) /\
            onPageVisited o = Some callback /\
            called = [EvPageVisited u d (JSSet.size emails)] /\
            callback (hist ++ [EvFetch u]) u d (JSSet.size emails)
              = Some error))).
Proof.
  intros U B st. split; [|split; [|split]].
  - intros hist url. now apply fetchPage_no_browser.
  - unfold st, stateAt. generalize (initState startUrl) as s.
    induction n as [|n IH]; intros s; simpl; auto.
    change (running (mkOptions (maxDepth o) (maxPages o) (sameDomainOnly o)
                               false None (onPageVisited o) (onError o)) s)
      with (running o s).
    destruct (running o s); auto.
    rewrite <- loopBody_no_browser by assumption. apply IH.
  - apply reportsIn_errors.
  - intros pre u m I. split.
    { destruct (reportsIn_split _ _ _ _ _ I) as (a & ev & post & E & -> & R).
      exists ev, post. auto. }
    destruct (reachable_reports o startUrl _ (stateAt_reachable o startUrl n)
                                pre u m I)
      as (h0 & d & called & error & E & M & C).
    cbn zeta in *.
    rewrite (fetchPage_no_browser o _ u B) in E, C.
    exists h0, d, called, error. auto.
Qed.

Lemma C4_witness :
  useBrowser Scenario.optionsNoBrowser = true /\
  browser Scenario.optionsNoBrowser = None /\
  @stateAt Scenario.worldA Scenario.optionsNoBrowser "https://example.com" 3 =
  @stateAt Scenario.worldA Scenario.optionsA "https://example.com" 3.
Proof.
  split; [reflexivity|]. split; [reflexivity|].
  apply (@C4_no_browser_handle_uses_http Scenario.worldA
           Scenario.optionsNoBrowser "https://example.com" 3);
    reflexivity.
Defined.

Lemma iterate_succ `{Platform} (o : WebsiteCrawlerOptions) (sd : string)
      (k : nat) (st : State) :
  running o (iterate o sd k st) = true ->
  iterate o sd (S k) st = loopBody o sd (iterate o sd k st).
Proof.
  intros C. replace (S k) with (k + 1) by lia.
  rewrite iterate_add. simpl. now rewrite C.
Qed.

(** The trace only grows. *)
Lemma loopBody_trace `{Platform} (o : WebsiteCrawlerOptions) (sd : string)
      (st : State) :
  exists evs, trace (loopBody o sd st) = trace st ++ evs.
Proof.
  destruct (toVisit st) as [|[u d] rest] eqn:Q.
  - unfold loopBody. rewrite Q. exists []. now rewrite app_nil_r.
  - destruct (loopBody_outcome o sd st u d rest Q); simpl; eauto.
Qed.

Lemma iterate_trace `{Platform} (o : WebsiteCrawlerOptions) (sd : string)
      (n : nat) (st : State) :
  exists evs, trace (iterate o sd n st) = trace st ++ evs.
Proof.
  revert st. induction n as [|n IH]; intros st; simpl.
  - exists []. now rewrite app_nil_r.
  - destruct (running o st).
    + destruct (loopBody_trace o sd st) as [e1 E1].
      destruct (IH (loopBody o sd st)) as [e2 E2].
      exists (e1 ++ e2). now rewrite E2, E1, app_assoc.
    + exists []. now rewrite app_nil_r.
Qed.

(** An entry processed at any iteration is among the visits of the result. *)
Lemma processed_visit_in_result `{Platform} (o : WebsiteCrawlerOptions)
      (sd : string) (st final : State) (fuel k : nat)
      (u : string) (d : Z) (rest : list FrontierEntry) :
  runLoop o sd fuel st = Some final ->
  let s := iterate o sd k st in
  running o s = true ->
  toVisit s = (u, d) :: rest ->
  JSSet.has u (visited s) = false ->
  (d <= maxDepth o)%Z ->
  rejectedByDomain o sd u = false ->
  In (u, d) (visits (trace final)).
Proof.
  intros Run s C Q Hv Hd Hs.
  apply runLoop_iterate in Run. destruct Run as [Ef Cf].
  assert (E1 : In (u, d) (visits (trace (iterate o sd (S k) st)))).
  { rewrite iterate_succ by exact C. fold s.
    destruct (loopBody_processes o sd s u d rest Q Hv Hd Hs) as (A & _).
    rewrite A. apply in_app_iff. simpl. auto. }
  assert (E2 : final = iterate o sd (S k + fuel) st).
  { rewrite Nat.add_comm, iterate_add, <- Ef. symmetry.
    now apply iterate_final. }
  rewrite E2, iterate_add.
  destruct (iterate_trace o sd fuel (iterate o sd (S k) st)) as [evs E].
  rewrite E, visits_app. apply in_app_iff. auto.
Qed.

(** What the [try] block merged stays merged. *)
Lemma loopBody_merges `{Platform} (o : WebsiteCrawlerOptions)
      (sd : string) (st : State) (u : string) (d : Z)
      (rest : list FrontierEntry) (evs : list event) (html : string)
      (emails : JSSet.t) :
  toVisit st = (u, d) :: rest ->
  JSSet.has u (visited st) = false ->
  (d <= maxDepth o)%Z ->
  rejectedByDomain o sd u = false ->
  fetchPage o (trace st ++ [EvShift u d; EvVisit u d]) u =
    (evs, inr (html, emails)) ->
  allEmails (loopBody o sd st) = JSSet.addAll emails (allEmails st).
Proof.
  intros Q Hv Hd Hs Hf.
  destruct (loopBody_outcome o sd st u d rest Q)
    as [[A|[A|A]]|evs' html' emails' called links _ _ _ Hf' _ _
        |evs' r emails' called error ev out _ _ _ Hf' Ht _];
    try congruence; try lia.
  - rewrite Hf in Hf'. now injection Hf' as <- <- <-.
  - rewrite Hf in Hf'. injection Hf' as <- <-.
    apply tryFails_cases in Ht.
    destruct Ht as [(E & _)|(h & e & E & -> & _)]; [discriminate|].
    now injection E as <- <-.
Qed.

(** The addresses of a page processed at any iteration are in the result. *)
Lemma processed_emails_in_result `{Platform} (o : WebsiteCrawlerOptions)
      (sd : string) (st final : State) (fuel k : nat)
      (u : string) (d : Z) (rest : list FrontierEntry)
      (evs : list event) (html : string) (emails : JSSet.t) :
  runLoop o sd fuel st = Some final ->
  let s := iterate o sd k st in
  running o s = true ->
  toVisit s = (u, d) :: rest ->
  JSSet.has u (visited s) = false ->
  (d <= maxDepth o)%Z ->
  rejectedByDomain o sd u = false ->
  fetchPage o (trace s ++ [EvShift u d; EvVisit u d]) u =
    (evs, inr (html, emails)) ->
  incl emails (allEmails final).
Proof.
  intros Run s C Q Hv Hd Hs Hf.
  apply runLoop_iterate in Run. destruct Run as [Ef Cf].
  assert (E1 : incl emails (allEmails (iterate o sd (S k) st))).
  { rewrite iterate_succ by exact C. fold s.
    rewrite (loopBody_merges o sd s u d rest evs html emails Q Hv Hd Hs Hf).
    intros x I. apply In_addAll. auto. }
  assert (E2 : final = iterate o sd (S k + fuel) st).
  { rewrite Nat.add_comm, iterate_add, <- Ef. symmetry.
    now apply iterate_final. }
  rewrite E2, iterate_add.
  eapply incl_tran; [exact E1 | apply iterate_emails].
Qed.

(** The [catch] block after a fetch that failed. *)
Lemma loopBody_fetch_fails `{Platform} (o : WebsiteCrawlerOptions)
      (sd : string) (st : State) (url : string) (depth : Z)
      (rest : list FrontierEntry) (evs : list event) (error : thrown) :
  toVisit st = (url, depth) :: rest ->
  JSSet.has url (visited st) = false ->
  (depth <= maxDepth o)%Z ->
  rejectedByDomain o sd url = false ->
  fetchPage o (trace st ++ [EvShift url depth; EvVisit url depth]) url =
    (evs, inl error) ->
  let hist := trace st ++ EvShift url depth :: EvVisit url depth :: evs in
  loopBody o sd st =
  mkState (allEmails st) (JSSet.add url (visited st)) rest
          (hist ++ [fst (reportError o hist url error)])
          (snd (reportError o hist url error)).
Proof.
  intros Q Hv Hd Hs Hf hist.
  destruct (loopBody_outcome o sd st url depth rest Q)
    as [[A|[A|A]]|evs' html' emails' called links _ _ _ Hf' _ _
        |evs' r emails' called error' ev out _ _ _ Hf' Ht Hr];
    try congruence; try lia.
  rewrite Hf in Hf'. injection Hf' as <- <-.
  apply tryFails_cases in Ht.
  destruct Ht as [(E & -> & ->)|(h & e & E & _)]; [|discriminate].
  injection E as <-. rewrite app_nil_r in Hr. fold hist in Hr.
  rewrite Hr. unfold hist. rewrite <- !app_assoc. reflexivity.
Qed.

(** The [catch] block after onPageVisited threw. *)
Lemma loopBody_callback_throws `{Platform} (o : WebsiteCrawlerOptions)
      (sd : string) (st : State) (url : string) (depth : Z)
      (rest : list FrontierEntry) (evs : list event) (html : string)
      (emails : JSSet.t) (callback : PageVisitedCallback) (t : thrown) :
  toVisit st = (url, depth) :: rest ->
  JSSet.has url (visited st) = false ->
  (depth <= maxDepth o)%Z ->
  rejectedByDomain o sd url = false ->
  fetchPage o (trace st ++ [EvShift url depth; EvVisit url depth]) url =
    (evs, inr (html, emails)) ->
  onPageVisited o = Some callback ->
  callback (trace st ++ EvShift url depth :: EvVisit url depth :: evs)
           url depth (JSSet.size emails) = Some t ->
  let hist := trace st ++ EvShift url depth :: EvVisit url depth :: evs ++
              [EvPageVisited url depth (JSSet.size emails)] in
  loopBody o sd st =
  mkState (JSSet.addAll emails (allEmails st)) (JSSet.add url (visited st))
          rest
          (hist ++ [fst (reportError o hist url t)])
          (snd (reportError o hist url t)).
Proof.
  intros Q Hv Hd Hs Hf Ecb Et hist.
  assert (Hn : notifyVisited o
                 (trace st ++ EvShift url depth :: EvVisit url depth :: evs)
                 url depth emails =
               ([EvPageVisited url depth (JSSet.size emails)], Some t)).
  { unfold notifyVisited. now rewrite Ecb, Et. }
  destruct (loopBody_outcome o sd st url depth rest Q)
    as [[A|[A|A]]|evs' html' emails' called links _ _ _ Hf' Hn' _
        |evs' r emails' called error' ev out _ _ _ Hf' Ht Hr];
    try congruence; try lia.
  rewrite Hf in Hf'. injection Hf' as <- <-.
  apply tryFails_cases in Ht.
  destruct Ht as [(E & _)|(h & e & E & -> & Hn')]; [discriminate|].
  injection E as <- <-. rewrite Hn in Hn'. injection Hn' as <- <-.
  fold hist in Hr. rewrite Hr. unfold hist. simpl.
  rewrite <- !app_assoc. simpl. rewrite <- ?app_assoc. reflexivity.
Qed.

(** Only onError can end the run with an exception. *)
Lemma loopBody_raised `{Platform} (o : WebsiteCrawlerOptions) (sd : string)
      (st : State) :
  onErrorReturns o -> raised st = None -> raised (loopBody o sd st) = None.
Proof.
  intros N R. destruct (toVisit st) as [|[u d] rest] eqn:Q.
  - unfold loopBody. now rewrite Q.
  - destruct (loopBody_outcome o sd st u d rest Q)
      as [_|evs html emails called links _ _ _ _ _ _
          |evs r emails' called error ev out _ _ _ _ _ Hr]; auto.
    simpl. apply reportError_event in Hr.
    destruct Hr as [(_ & -> & _)|(cb & E & -> & _)]; auto.
Qed.

Lemma iterate_raised `{Platform} (o : WebsiteCrawlerOptions) (sd : string)
      (n : nat) (st : State) :
  onErrorReturns o -> raised st = None -> raised (iterate o sd n st) = None.
Proof.
  intros N. revert st. induction n as [|n IH]; intros st R; simpl; auto.
  destruct (running o st); auto. apply IH. now apply loopBody_raised.
Qed.

(** How a run that returns has ended: the frontier is empty, or the page
    budget is used up. *)
Lemma loopCond_false (o : WebsiteCrawlerOptions) (st : State) :
  loopCond o st = false ->
  toVisit st = [] \/ (maxPages o <= Z.of_nat (JSSet.size (visited st)))%Z.
Proof.
  unfold loopCond. intros C. apply andb_false_iff in C. destruct C as [C|C].
  - left. destruct (toVisit st); [reflexivity | discriminate].
  - right. now apply Z.ltb_ge in C.
Qed.

(** C5, as stated, fails, in three ways.  An onError that throws ends the
    run with its exception at the first page that fails.  With a budget of
    two pages, used up by the start page and the page that fails, the third
    entry is never processed.  And when onPageVisited throws, the page is
    reported as failed after its addresses were merged: the only URL of the
    run is reported as failed, and the result is not empty. *)
Lemma C5_counterexample :
  ~ (forall (P : Platform) (o : WebsiteCrawlerOptions) (startUrl : string)
            (fuel : nat) (result : thrown + JSSet.t),
        @scrapeEmailsFromWebsite P fuel startUrl o = Some result ->
        exists emails, result = inr emails) /\
  ~ (forall (P : Platform) (o : WebsiteCrawlerOptions) (startUrl : string)
            (fuel : nat) (final : State),
        @crawl P fuel startUrl o = Some final ->
        raised final = None ->
        forall u d, In (u, d) ((startUrl, 0%Z) :: enqueued (trace final)) ->
                    In u (visited final)) /\
  ~ (forall (P : Platform) (o : WebsiteCrawlerOptions) (startUrl : string)
            (fuel : nat) (final : State),
        @crawl P fuel startUrl o = Some final ->
        forall u m e, In (u, m) (reportedErrors (trace final)) ->
                      In e (allEmails final) ->
                      exists u', u' <> u /\ In u' (visited final)).
Proof.
  split; [|split].
  - intros C.
    destruct (C Scenario.worldE Scenario.optionsRethrow "https://a.example/"
                4 (inl Scenario.networkError)) as [emails E];
      [vm_compute; reflexivity | discriminate].
  - intros C.
    destruct (@crawl Scenario.worldE 4 "https://a.example/"
                     Scenario.optionsTwoPages) as [final|] eqn:E;
      [|vm_compute in E; discriminate].
    specialize (C Scenario.worldE Scenario.optionsTwoPages
                  "https://a.example/" 4 final E).
    vm_compute in E. injection E as <-.
    specialize (C eq_refl "https://a.example/up" 1%Z).
    simpl in C. destruct C as [C|[C|[]]]; auto; discriminate.
  - intros C.
    destruct (@crawl Scenario.worldA 3 "https://example.com"
                     Scenario.optionsRefuse) as [final|] eqn:E;
      [|vm_compute in E; discriminate].
    specialize (C Scenario.worldA Scenario.optionsRefuse
                  "https://example.com" 3 final E).
    vm_compute in E. injection E as <-.
    destruct (C "https://example.com" "visit refused" "info@example.com")
      as (u' & N & [I|[]]); simpl; auto.
Qed.

(** C5, amended.  When the fetch strategy fails on the entry at the head of
    the frontier, the [catch] block is entered: the result set is unchanged,
    the rest of the frontier is kept in order, the URL counts as visited,
    and the error goes to onError if supplied and to the console if not.  The
    iteration ends normally unless onError throws; what onError throws
    leaves the function: the run stops there and completes with that
    exception.  In every case the loop runs to an end.  When onError, if
    supplied, always returns, the run returns, with the frontier empty or
    the page budget used up.  Every later entry that comes to the head of
    the frontier while the loop is running, and that is new, within the
    depth ceiling and in scope, is processed (recorded as visited, its fetch
    started) and is among the visits of the final state, and the addresses
    of its page, when the fetch succeeds, are in the final result.  When
    onPageVisited throws, the [catch] block is entered after the addresses of
    the page were merged, and nothing is pushed.  A rejected fetch and a
    response that is not ok are failures of the fetch strategy.  In the
    scenario of three entries whose second fails, the error is passed to
    onError and the address of the third page is in the result. *)
Theorem C5_page_failure_does_not_abort `{Platform}
        (o : WebsiteCrawlerOptions) (sd : string) (st : State)
        (url : string) (depth : Z) (rest : list FrontierEntry)
        (evs : list event) (error : thrown) :
  toVisit st = (url, depth) :: rest ->
  JSSet.has url (visited st) = false ->
  (depth <= maxDepth o)%Z ->
  rejectedByDomain o sd url = false ->
  fetchPage o (trace st ++ [EvShift url depth; EvVisit url depth]) url =
    (evs, inl error) ->
  let st' := loopBody o sd st in
  let hist := trace st ++ EvShift url depth :: EvVisit url depth :: evs in
  (allEmails st' = allEmails st /\
   toVisit st' = rest /\
   visited st' = JSSet.add url (visited st) /\
   trace st' =
     hist ++
     [match onError o with
      | Some _ => EvOnError url (toErrorObj error)
      | None => EvConsoleError url (message (toErrorObj error))
      end] /\
   raised st' =
     match onError o with
     | Some callback => callback hist url (toErrorObj error)
     | None => None
     end) /\
  (exists fuel final,
      runLoop o sd fuel st' = Some final /\
      (running o st = true -> runLoop o sd (S fuel) st = Some final) /\
      (forall t, raised st' = Some t ->
                 final = st' /\ completion final = inl t) /\
      (onErrorReturns o ->
       raised final = None /\
       completion final = inr (allEmails final) /\
       (toVisit final = [] \/
        (maxPages o <= Z.of_nat (JSSet.size (visited final)))%Z)) /\
      forall k u2 d2 rest2,
        let s := iterate o sd k st' in
        running o s = true ->
        toVisit s = (u2, d2) :: rest2 ->
        JSSet.has u2 (visited s) = false ->
        (d2 <= maxDepth o)%Z ->
        rejectedByDomain o sd u2 = false ->
        let evs2 :=
          fst (fetchPage o (trace s ++ [EvShift u2 d2; EvVisit u2 d2]) u2) in
        visits (trace (loopBody o sd s)) = visits (trace s) ++ [(u2, d2)] /\
        startsFetch o u2 evs2 = true /\
        (exists tl,
            trace (loopBody o sd s) =
            trace s ++ EvShift u2 d2 :: EvVisit u2 d2 :: evs2 ++ tl) /\
        In (u2, d2) (visits (trace final)) /\
        forall evs' html2 emails2,
          fetchPage o (trace s ++ [EvShift u2 d2; EvVisit u2 d2]) u2 =
            (evs', inr (html2, emails2)) ->
          incl emails2 (allEmails final)) /\
  (forall s u2 d2 rest2 evs2 html2 emails2 callback t,
      toVisit s = (u2, d2) :: rest2 ->
      JSSet.has u2 (visited s) = false ->
      (d2 <= maxDepth o)%Z ->
      rejectedByDomain o sd u2 = false ->
      fetchPage o (trace s ++ [EvShift u2 d2; EvVisit u2 d2]) u2 =
        (evs2, inr (html2, emails2)) ->
      onPageVisited o = Some callback ->
      callback (trace s ++ EvShift u2 d2 :: EvVisit u2 d2 :: evs2)
               u2 d2 (JSSet.size emails2) = Some t ->
      allEmails (loopBody o sd s) = JSSet.addAll emails2 (allEmails s) /\
      toVisit (loopBody o sd s) = rest2 /\
      trace (loopBody o sd s) =
        trace s ++ EvShift u2 d2 :: EvVisit u2 d2 :: evs2 ++
        [EvPageVisited u2 d2 (JSSet.size emails2);
         match onError o with
         | Some _ => EvOnError u2 (toErrorObj t)
         | None => EvConsoleError u2 (message (toErrorObj t))
         end]) /\
  (forall hist' u t,
      fetch hist' u = inl t -> httpFetch hist' u = ([EvFetch u], inl t)) /\
  (forall hist' u r,
      fetch hist' u = inr r -> ok r = false ->
      httpFetch hist' u =
      ([EvFetch u],
       inl (ThrownError
              (mkError ("HTTP error! status: " ++ string_of_Z (status r)))))) /\
  (exists final,
      @crawl Scenario.worldE 4 "https://a.example/" Scenario.optionsE
        = Some final /\
      shifted (trace final) = [("https://a.example/", 0%Z);
                               ("https://a.example/down", 1%Z);
                               ("https://a.example/up", 1%Z)] /\
      In (EvOnError "https://a.example/down" (mkError "fetch failed"))
         (trace final) /\
      In ("https://a.example/up", 1%Z) (visits (trace final)) /\
      completion final = inr ["up@a.example"]).
Proof.
  intros Q Hv Hd Hs Hf st' hist.
  assert (St : st' = mkState (allEmails st) (JSSet.add url (visited st)) rest
                 (hist ++ [fst (reportError o hist url error)])
                 (snd (reportError o hist url error))).
  { apply (loopBody_fetch_fails o sd st url depth rest evs error); auto. }
  split; [|split; [|split; [|split; [|split]]]].
  - rewrite St. unfold reportError. simpl.
    destruct (onError o); simpl; auto.
  - destruct (runLoop_terminates o sd st') as (fuel & final & Run).
    exists fuel, final. split; [exact Run|]. split; [|split; [|split]].
    + intros C. simpl. rewrite C. exact Run.
    + intros t Rt.
      assert (E : final = st').
      { destruct fuel as [|fuel]; [discriminate|]. simpl in Run.
        unfold running in Run. rewrite Rt in Run. congruence. }
      split; [exact E|]. rewrite E. unfold completion. now rewrite Rt.
    + intros N.
      assert (R' : raised st' = None).
      { rewrite St. unfold reportError. simpl.
        destruct (onError o) as [cb|] eqn:E; simpl; auto. }
      pose proof Run as Run'. apply runLoop_iterate in Run'.
      destruct Run' as [Ef Cf].
      assert (Rf : raised final = None).
      { rewrite Ef. now apply iterate_raised. }
      split; [exact Rf|]. split; [unfold completion; now rewrite Rf|].
      apply loopCond_false. now apply running_false.
    + intros k u2 d2 rest2 s C Q2 Hv2 Hd2 Hs2 evs2.
      destruct (loopBody_processes o sd s u2 d2 rest2 Q2 Hv2 Hd2 Hs2)
        as (A & _ & B).
      split; [exact A|]. split; [apply fetchPage_starts|].
      split; [exact B|]. split.
      * eapply processed_visit_in_result; eauto.
      * intros evs' html2 emails2 Hf2. subst s.
        eapply processed_emails_in_result; eauto.
  - intros s u2 d2 rest2 evs2 html2 emails2 callback t Q2 Hv2 Hd2 Hs2 Hf2
           Ecb Et.
    rewrite (loopBody_callback_throws o sd s u2 d2 rest2 evs2 html2 emails2
               callback t Q2 Hv2 Hd2 Hs2 Hf2 Ecb Et).
    simpl. split; [reflexivity|]. split; [reflexivity|].
    rewrite <- !app_assoc. simpl. unfold reportError.
    destruct (onError o); simpl; rewrite <- ?app_assoc; reflexivity.
  - intros hist' u t E. unfold httpFetch. now rewrite E.
  - intros hist' u r E K. unfold httpFetch. now rewrite E, K.
  - eexists. split; [vm_compute; reflexivity|].
    split; [reflexivity|]. split; [simpl; auto 20|].
    split; [simpl; auto|reflexivity].
Qed.

Lemma C5_witness :
  let st := @stateAt Scenario.worldE Scenario.optionsE "https://a.example/" 1 in
  toVisit st = [("https://a.example/down", 1%Z); ("https://a.example/up", 1%Z)] /\
  allEmails (@loopBody Scenario.worldE Scenario.optionsE "a.example" st) =
  allEmails st.
Proof.
  intros st. split; [vm_compute; reflexivity|].
  apply (@C5_page_failure_does_not_abort Scenario.worldE Scenario.optionsE
           "a.example" st "https://a.example/down" 1%Z
           [("https://a.example/up", 1%Z)]
           [EvFetch "https://a.example/down"] Scenario.networkError).
  - vm_compute; reflexivity.
  - vm_compute; reflexivity.
  - vm_compute; discriminate.
  - vm_compute; reflexivity.
  - vm_compute; reflexivity.
Defined.

(** What an iteration pushes: links at the next depth, at the tail, none of
    them visited. *)
Lemma loopBody_pushes `{Platform} (o : WebsiteCrawlerOptions) (sd : string)
      (st : State) (u : string) (d : Z) (rest : list FrontierEntry) :
  toVisit st = (u, d) :: rest ->
  exists links,
    toVisit (loopBody o sd st) =
      rest ++ map (fun link => (link, (d + 1)%Z)) links /\
    enqueued (trace (loopBody o sd st)) =
      enqueued (trace st) ++ map (fun link => (link, (d + 1)%Z)) links /\
    shifted (trace (loopBody o sd st)) = shifted (trace st) ++ [(u, d)] /\
    forall link, In link links ->
                 ~ In link (visited (loopBody o sd st)).
Proof.
  intros Q.
  destruct (loopBody_outcome o sd st u d rest Q)
    as [_|evs html emails called links Hv _ _ Hf Hn L|evs r emails' called error ev out Hv _ _ Hf Ht Hr].
  - exists []. simpl; trace_simpl. repeat split; auto.
  - exists links. step_events Hf. simpl; silent_events; trace_simpl; kill_nil.
    repeat split; auto.
    intros link I. subst links. apply In_links_depth in I.
    destruct I as (_ & A & _). unfold linkAccepted in A.
    apply andb_true_iff in A. destruct A as [A _].
    apply negb_true_iff in A. now apply has_false_notIn.
  - exists []. step_events Hf. silent_events. simpl; trace_simpl; kill_nil.
    repeat split; auto.
Qed.

(** C6.  At every point of every run: no URL is handed to a fetch strategy
    twice, no URL is processed twice, and a processed URL was processed at
    the depth of its first entry on the frontier (the start entry, then the
    links in the order they were pushed).  At the head of the loop, an entry
    whose URL is already visited is dropped with no fetch, no callback and
    nothing pushed; and the links an iteration pushes exclude every URL
    visited so far. *)
Theorem C6_fetched_at_most_once `{Platform} (o : WebsiteCrawlerOptions)
        (startUrl : string) (n : nat) :
  let st := stateAt o startUrl n in
  let sd := getDomain startUrl in
  NoDup (fetchedUrls (trace st)) /\
  NoDup (map fst (visits (trace st))) /\
  (forall u d, In (u, d) (visits (trace st)) ->
     firstDepth u ((startUrl, 0%Z) :: enqueued (trace st)) = Some d) /\
  (forall u d rest, toVisit st = (u, d) :: rest ->
     (In u (visited st) ->
      loopBody o sd st =
      mkState (allEmails st) (visited st) rest (trace st ++ [EvShift u d])
              None) /\
     (exists links,
        toVisit (loopBody o sd st) =
          rest ++ map (fun link => (link, (d + 1)%Z)) links /\
        forall link, In link links ->
                     ~ In link (visited (loopBody o sd st)))).
Proof.
  intros st sd. pose proof (stateAt_reachable o startUrl n) as R. fold st in R.
  destruct (reachable_fetchedOnce o startUrl st R) as [Fn _].
  destruct (reachable_bookKeeping o startUrl st R) as [Bv Bn _].
  destruct (reachable_firstDiscovery o startUrl st R) as [_ Ff].
  split; [exact Fn|]. split; [now rewrite <- Bv|]. split; [exact Ff|].
  intros u d rest Q. split.
  - intros I. apply has_In in I. unfold loopBody. now rewrite Q, I.
  - destruct (loopBody_pushes o sd st u d rest Q) as (links & A & _ & _ & B).
    eauto.
Qed.

(** C7.  At every point of every run: the depths of the processed entries,
    in processing order, are nondecreasing; the entries shifted so far
    followed by the frontier are exactly the start entry followed by the
    links in the order they were pushed; and an iteration shifts the head
    entry and appends what it pushes at the tail, at the depth of the head
    plus one. *)
Theorem C7_breadth_first_order `{Platform} (o : WebsiteCrawlerOptions)
        (startUrl : string) (n : nat) :
  let st := stateAt o startUrl n in
  let sd := getDomain startUrl in
  StronglySorted Z.le (map snd (visits (trace st))) /\
  (startUrl, 0%Z) :: enqueued (trace st) = shifted (trace st) ++ toVisit st /\
  (forall u d rest, toVisit st = (u, d) :: rest ->
     exists links,
       toVisit (loopBody o sd st) =
         rest ++ map (fun link => (link, (d + 1)%Z)) links /\
       enqueued (trace (loopBody o sd st)) =
         enqueued (trace st) ++ map (fun link => (link, (d + 1)%Z)) links /\
       shifted (trace (loopBody o sd st)) = shifted (trace st) ++ [(u, d)]).
Proof.
  intros st sd. pose proof (stateAt_reachable o startUrl n) as R. fold st in R.
  destruct (reachable_levels o startUrl st R) as (S1 & _).
  destruct (reachable_bookKeeping o startUrl st R) as [_ _ Bf].
  repeat split; auto.
  intros u d rest Q.
  destruct (loopBody_pushes o sd st u d rest Q) as (links & A & B & C & _).
  eauto.
Qed.

(** The design document's anchors need the name [a] in the text. *)
Lemma anchorElementHref_named (html cap : list ascii) :
  anchorElementHref html cap -> hasAnchorName html = true.
Proof.
  intros (pre & a & ws & mid & tl & E & A & W & _). subst html.
  induction pre as [|c pre IH].
  - simpl. now rewrite A, W.
  - change (hasAnchorName ((c :: pre) ++ "<"%char :: a :: ws :: mid ++ tl))
      with ((match pre ++ "<"%char :: a :: ws :: mid ++ tl with
             | a0 :: ws0 :: _ =>
                 (Ascii.eqb c "<" && ciEq a0 "a" "A" && isHtmlSpace ws0)%bool
             | _ => false
             end ||
             hasAnchorName (pre ++ "<"%char :: a :: ws :: mid ++ tl))%bool).
    rewrite IH. apply orb_true_r.
Qed.

(** The href of an anchor element is a value of the kind the pattern
    describes. *)
Lemma anchorElementHref_in_pattern (html cap : list ascii) :
  anchorElementHref html cap -> anchorHrefIn html cap.
Proof.
  intros (pre & a & ws & mid & tl & E & A & W & M & _ & V).
  exists pre, a, (ws :: mid), tl. repeat split; auto; [discriminate|].
  intros c [<-|I]; auto. intros ->. discriminate.
Qed.

(** C8, as stated, fails: the element of the set below comes from an
    attribute [data-href] of an element [abbr]; the text has no anchor. *)
Lemma C8_counterexample :
  ~ (forall (P : Platform) (html baseUrl l : string),
        In l (@extractLinks P html baseUrl) ->
        exists m,
          anchorElementHref (list_ascii_of_string html)
                            (list_ascii_of_string m) /\
          @normalizeUrl P m baseUrl = Some l).
Proof.
  intros C.
  destruct (C (tablePlatform [] []) Scenario.homeAbbr "https://site.example/"
              "https://site.example/x") as (m & A & _).
  - vm_compute. auto.
  - apply anchorElementHref_named in A. vm_compute in A. discriminate.
Qed.

(** C8, amended.  For every text and base URL, extractLinks returns a set
    without duplicates whose elements are exactly the results of
    normalizeUrl on the values the pattern captures.  Each captured value
    is a run free of quotes between two quote characters after an [href=]
    that follows [<a] and one or more characters other than [>]; the href
    of an anchor element is such a value.  Each element is the
    serialization of a URL record obtained by parsing a captured value
    against the parsed base, after the hash setter was given the empty
    string: it has no fragment and starts with the scheme and a colon, and
    when the path of the record is not opaque, or the record has a query,
    the href of the record is the element followed by the fragment, if any.
    A value the parser rejects, or any value when the base is rejected,
    yields no element; the function is total.  The link [../about#team] on
    [https://site.example/blog/post] yields [https://site.example/about]. *)
Theorem C8_extractLinks `{Platform} (html baseUrl : string) :
  NoDup (extractLinks html baseUrl) /\
  (forall l, In l (extractLinks html baseUrl) <->
     exists m, In m (hrefMatches html) /\ normalizeUrl m baseUrl = Some l) /\
  (forall l, In l (extractLinks html baseUrl) ->
     exists m base resolved,
       anchorHrefIn (list_ascii_of_string html) (list_ascii_of_string m) /\
       newURL baseUrl None = Some base /\
       newURL m (Some base) = Some resolved /\
       l = href (clearHash resolved) /\
       fragment (clearHash resolved) = None /\
       (opaquePath resolved = false \/ query resolved <> None ->
        href resolved =
          (l ++ match fragment resolved with
                | Some f => "#" ++ f
                | None => ""
                end)%string) /\
       exists rest, l = (scheme resolved ++ ":" ++ rest)%string) /\
  (forall cap,
      anchorElementHref (list_ascii_of_string html) cap ->
      anchorHrefIn (list_ascii_of_string html) cap) /\
  (forall m, In m (hrefMatches html) ->
     (newURL baseUrl None = None \/
      exists base, newURL baseUrl None = Some base /\
                   newURL m (Some base) = None) ->
     normalizeUrl m baseUrl = None) /\
  @extractLinks (tablePlatform [] [])
     "<a class='nav' href='../about#team'>About</a>"
     "https://site.example/blog/post" = ["https://site.example/about"].
Proof.
  split; [|split; [|split; [|split; [|split]]]].
  - apply extractLinks_NoDup_fold. constructor.
  - intros l. apply In_extractLinks.
  - intros l I. apply In_extractLinks in I. destruct I as (m & I & E).
    apply normalizeUrl_Some in E. destruct E as (base & resolved & A & B & C).
    exists m, base, resolved. subst l.
    split; [now apply hrefMatches_spec|]. repeat split; auto.
    + apply href_clearHash.
    + unfold href. simpl. eauto.
  - intros cap. apply anchorElementHref_in_pattern.
  - intros m _ [E|(base & E & E')]; unfold normalizeUrl; rewrite E; auto.
    now rewrite E'.
  - vm_compute. reflexivity.
Qed.

(** C9.  At every point of every run the trace keeps the page discipline:
    no page is open when the next frontier entry is taken or when the run
    stops, and a page is closed only if open.  Whatever the operations on an
    opened page do (return or throw), the events of the page end with the
    close, which is the only close among them; when newPage itself throws
    there is no page to close.  In the scenario of a browser whose second
    page fails to navigate, each of the three pages is closed before the
    next entry is taken. *)
Theorem C9_page_always_closed `{Platform} (o : WebsiteCrawlerOptions)
        (startUrl : string) (n : nat) :
  pagesReleased (trace (stateAt o startUrl n)) false = true /\
  (forall (b : Browser) hist url ps,
      b hist url = inr ps ->
      exists evs,
        fst (browserFetch b hist url) = EvNewPage true :: evs ++ [EvClose] /\
        forall e, In e evs ->
                  e = EvGoto url \/ e = EvContent \/ e = EvScrape url) /\
  (forall (b : Browser) hist url t,
      b hist url = inl t ->
      browserFetch b hist url = ([EvNewPage false], inl t)) /\
  (exists final,
      @crawl Scenario.worldE 4 "https://a.example/" Scenario.optionsBrowser
        = Some final /\
      trace final =
      [EvShift "https://a.example/" 0; EvVisit "https://a.example/" 0;
       EvNewPage true; EvGoto "https://a.example/"; EvContent;
       EvScrape "https://a.example/"; EvClose;
       EvPageVisited "https://a.example/" 0 1;
       EvEnqueue "https://a.example/down" 1;
       EvEnqueue "https://a.example/up" 1;
       EvShift "https://a.example/down" 1; EvVisit "https://a.example/down" 1;
       EvNewPage true; EvGoto "https://a.example/down"; EvClose;
       EvConsoleError "https://a.example/down" "fetch failed";
       EvShift "https://a.example/up" 1; EvVisit "https://a.example/up" 1;
       EvNewPage true; EvGoto "https://a.example/up"; EvContent;
       EvScrape "https://a.example/up"; EvClose;
       EvPageVisited "https://a.example/up" 1 1]).
Proof.
  split; [|split; [|split]].
  - apply (reachable_pagesReleased o startUrl), stateAt_reachable.
  - intros b hist url ps E. unfold browserFetch, runPage. rewrite E.
    destruct (gotoResult ps), (contentResult ps), (scrapeResult ps),
      (closeResult ps); simpl;
      match goal with
      | |- exists evs, EvNewPage true :: ?L = _ /\ _ => exists (removelast L)
      end; simpl; (split; [reflexivity | intuition]).
  - intros b hist url t E. unfold browserFetch. now rewrite E.
  - eexists. split; [vm_compute; reflexivity | reflexivity].
Qed.

(** C10.  The domain of a URL is the hostname of its parsed record, and the
    empty string when the URL does not parse.  Hence, whatever their schemes
    and ports, a link whose hostname is that of the start URL passes both
    domain tests of the loop; [http://a.example:8080/x] is in scope for the
    start URL [https://a.example], and is pushed and fetched when the start
    page links to it. *)
Theorem C10_domain_is_hostname `{Platform} (o : WebsiteCrawlerOptions) :
  (forall url u, newURL url None = Some u -> getDomain url = hostname u) /\
  (forall url, newURL url None = None -> getDomain url = "") /\
  (forall startUrl link s l vis,
      newURL startUrl None = Some s ->
      newURL link None = Some l ->
      hostname l = hostname s ->
      rejectedByDomain o (getDomain startUrl) link = false /\
      (JSSet.has link vis = false ->
       linkAccepted o (getDomain startUrl) vis link = true)) /\
  (@getDomain Scenario.worldP "http://a.example:8080/x" = "a.example" /\
   @getDomain Scenario.worldP "https://a.example" = "a.example" /\
   @rejectedByDomain Scenario.worldP Scenario.optionsD
      (@getDomain Scenario.worldP "https://a.example")
      "http://a.example:8080/x" = false /\
   exists final,
     @crawl Scenario.worldP 3 "https://a.example" Scenario.optionsD
       = Some final /\
     enqueued (trace final) = [("http://a.example:8080/x", 1%Z)] /\
     fetchedUrls (trace final) =
       ["https://a.example"; "http://a.example:8080/x"]).
Proof.
  split; [|split; [|split]].
  - intros url u E. unfold getDomain. now rewrite E.
  - intros url E. unfold getDomain. now rewrite E.
  - intros startUrl link s l vis Es El Eh.
    assert (D : String.eqb (getDomain link) (getDomain startUrl) = true).
    { unfold getDomain. rewrite Es, El, Eh. apply String.eqb_refl. }
    unfold rejectedByDomain, linkAccepted. rewrite D. split.
    + now destruct (sameDomainOnly o).
    + intros ->. now destruct (sameDomainOnly o).
  - split; [reflexivity|]. split; [reflexivity|]. split; [reflexivity|].
    eexists. split; [vm_compute; reflexivity|]. split; reflexivity.
Qed.

Lemma C10_witness :
  @newURL Scenario.worldP "https://a.example" None =
    Some (mkURL "https" "" "" (Some "a.example") None "/" false None None) /\
  @getDomain Scenario.worldP "https://a.example" = "a.example".
Proof.
  split; [reflexivity|].
  apply (proj1 (@C10_domain_is_hostname Scenario.worldP Scenario.optionsD)
           "https://a.example"
           (mkURL "https" "" "" (Some "a.example") None "/" false None None)).
  reflexivity.
Defined.


(** * Further properties of the crawler *)

Lemma fetchPage_platform `{Platform} (o : WebsiteCrawlerOptions)
      (hist : list event) (url : string) :
  Forall (fun e => isPlatformEvent e = true /\ strategyEvent o e = true)
         (fst (fetchPage o hist url)).
Proof.
  unfold fetchPage, browserFetch, httpFetch, runPage, strategyEvent, browserMode.
  destruct (useBrowser o); [|simpl; repeat constructor].
  destruct (browser o) as [b|]; [|simpl; repeat constructor].
  destruct (b hist url) as [t|ps]; [simpl; repeat constructor|].
  destruct (gotoResult ps), (contentResult ps), (scrapeResult ps),
    (closeResult ps); simpl; repeat constructor.
Qed.

Lemma pageVisitedCalls_app (a b : list event) :
  pageVisitedCalls (a ++ b) = pageVisitedCalls a + pageVisitedCalls b.
Proof.
  induction a as [|e a IH]; simpl; auto. destruct e; simpl; rewrite ?IH; auto.
Qed.

Lemma onErrorCalls_app (a b : list event) :
  onErrorCalls (a ++ b) = onErrorCalls a + onErrorCalls b.
Proof.
  induction a as [|e a IH]; simpl; auto. destruct e; simpl; rewrite ?IH; auto.
Qed.

Lemma platform_no_callbacks (evs : list event) :
  Forall (fun e => isPlatformEvent e = true) evs ->
  pageVisitedCalls evs = 0 /\ onErrorCalls evs = 0.
Proof.
  induction 1 as [|e evs E _ [IH1 IH2]]; simpl; auto.
  destruct e; simpl in *; auto; discriminate.
Qed.

Lemma enqueue_no_callbacks (links : list string) (d : Z) :
  pageVisitedCalls (map (fun link => EvEnqueue link d) links) = 0 /\
  onErrorCalls (map (fun link => EvEnqueue link d) links) = 0.
Proof. induction links; simpl; auto. Qed.

Lemma fetchPage_platform_only `{Platform} (o : WebsiteCrawlerOptions)
      (hist : list event) (url : string) (evs : list event)
      (r : thrown + (string * JSSet.t)) :
  fetchPage o hist url = (evs, r) ->
  Forall (fun e => isPlatformEvent e = true) evs.
Proof.
  intros E. pose proof (fetchPage_platform o hist url) as F.
  rewrite E in F. simpl in F.
  eapply Forall_impl; [|exact F]. simpl. tauto.
Qed.

(** X1.  The crawl comes to an end: for every platform, start URL and
    options some amount of fuel yields its completion (the result set, or
    the exception onError threw), and any larger amount yields the same
    one. *)
Theorem crawl_returns `{Platform} (o : WebsiteCrawlerOptions)
        (startUrl : string) :
  exists fuel result,
    forall fuel', fuel <= fuel' ->
      scrapeEmailsFromWebsite fuel' startUrl o = Some result.
Proof.
  destruct (runLoop_terminates o (getDomain startUrl) (initState startUrl))
    as (fuel & final & E).
  exists fuel, (completion final). intros fuel' L.
  unfold scrapeEmailsFromWebsite, crawl.
  replace fuel' with (fuel + (fuel' - fuel)) by lia.
  now rewrite (runLoop_more_fuel _ _ _ _ _ _ E).
Qed.

(** Every address in the result set was extracted from a page fetched with
    success. *)
Lemma reachable_emails_sound `{Platform} (o : WebsiteCrawlerOptions)
      (startUrl : string) (st : State) :
  reachable o startUrl st ->
  NoDup (allEmails st) /\
  forall e, In e (allEmails st) ->
    exists u hist evs html emails,
      In u (visited st) /\
      fetchPage o hist u = (evs, inr (html, emails)) /\ In e emails.
Proof.
  by_invariant o startUrl st.
  - simpl. split; [constructor | tauto].
  - intros s u d rest s' _ [Nd IH] _ Q O.
    assert (Merged : forall evs html emails,
               fetchPage o (trace s ++ [EvShift u d; EvVisit u d]) u =
                 (evs, inr (html, emails)) ->
               NoDup (JSSet.addAll emails (allEmails s)) /\
               forall e, In e (JSSet.addAll emails (allEmails s)) ->
                 exists u' hist evs' html' emails',
                   In u' (JSSet.add u (visited s)) /\
                   fetchPage o hist u' = (evs', inr (html', emails')) /\
                   In e emails').
    { intros evs html emails Hf. split; [now apply NoDup_addAll|].
      intros e I. apply In_addAll in I. destruct I as [I|I].
      - exists u, (trace s ++ [EvShift u d; EvVisit u d]), evs, html, emails.
        repeat split; auto. apply In_add. auto.
      - destruct (IH e I) as (u' & hist & evs' & html' & emails' & A & B & C).
        exists u', hist, evs', html', emails'. repeat split; auto.
        apply In_add. auto. }
    assert (Kept : forall e, In e (allEmails s) ->
                 exists u' hist evs' html' emails',
                   In u' (JSSet.add u (visited s)) /\
                   fetchPage o hist u' = (evs', inr (html', emails')) /\
                   In e emails').
    { intros e I.
      destruct (IH e I) as (u' & hist & evs' & html' & emails' & A & B & C).
      exists u', hist, evs', html', emails'. repeat split; auto.
      apply In_add. auto. }
    destruct O as [_|evs html emails called links Hv _ _ Hf Hn L
                   |evs r emails' called error ev out Hv _ _ Hf Ht Hr];
      simpl; auto.
    + eapply Merged, Hf.
    + apply tryFails_cases in Ht.
      destruct Ht as [(_ & -> & _)|(html & emails & -> & -> & _)]; auto.
      eapply Merged, Hf.
Qed.

(** X2.  At every point of every run the result set has no duplicates and
    holds only addresses extracted from a page of a visited URL whose fetch
    succeeded; in HTTP mode these are addresses the extractor found in the
    body of a response that was ok. *)
Theorem result_only_from_fetched_pages `{Platform}
        (o : WebsiteCrawlerOptions) (startUrl : string) (n : nat) :
  let st := stateAt o startUrl n in
  NoDup (allEmails st) /\
  (forall e, In e (allEmails st) ->
     exists u hist evs html emails,
       In u (visited st) /\
       fetchPage o hist u = (evs, inr (html, emails)) /\ In e emails) /\
  (browserMode o = false ->
   forall e, In e (allEmails st) ->
     exists u hist response html,
       In u (visited st) /\
       fetch hist u = inr response /\ ok response = true /\
       text response = inr html /\
       In e (extractAndNormalizeEmails html)).
Proof.
  intros st.
  destruct (reachable_emails_sound o startUrl st (stateAt_reachable o startUrl n))
    as [Nd S].
  split; [exact Nd|]. split; [exact S|].
  intros M e I. destruct (S e I) as (u & hist & evs & html & emails & A & B & C).
  assert (E : fetchPage o hist u = httpFetch hist u).
  { unfold fetchPage. unfold browserMode in M.
    destruct (useBrowser o); auto. destruct (browser o); [discriminate|auto]. }
  rewrite E in B. unfold httpFetch in B.
  destruct (fetch hist u) as [t|response] eqn:F; [discriminate|].
  destruct (ok response) eqn:K; simpl in B; [|discriminate].
  destruct (text response) as [t|html'] eqn:T; [discriminate|].
  injection B as _ <- <-. exists u, hist, response, html'. auto.
Qed.

(** X3.  With a page budget of zero or less the loop body never runs: for
    any fuel the crawl returns at once, with an empty result, nothing taken
    from the frontier and no call of the platform or of a callback. *)
Theorem no_budget_no_crawl `{Platform} (o : WebsiteCrawlerOptions)
        (startUrl : string) (fuel : nat) :
  (maxPages o <= 0)%Z ->
  crawl (S fuel) startUrl o = Some (initState startUrl) /\
  scrapeEmailsFromWebsite (S fuel) startUrl o = Some (inr []) /\
  forall n, trace (stateAt o startUrl n) = [].
Proof.
  intros M.
  assert (C : running o (initState startUrl) = false).
  { unfold running, loopCond. simpl. apply Z.ltb_ge. lia. }
  repeat split.
  - unfold crawl. simpl. now rewrite C.
  - unfold scrapeEmailsFromWebsite, crawl. simpl. now rewrite C.
  - intros n. unfold stateAt. now rewrite iterate_final.
Qed.

Lemma no_budget_no_crawl_witness :
  (maxPages (mkOptions 3 0 true false None (Some observeVisited)
              (Some observeError)) <= 0)%Z /\
  @scrapeEmailsFromWebsite Scenario.worldA 1 "https://example.com"
     (mkOptions 3 0 true false None (Some observeVisited)
              (Some observeError)) = Some (inr []).
Proof.
  split; [simpl; lia|].
  apply (@no_budget_no_crawl Scenario.worldA
           (mkOptions 3 0 true false None (Some observeVisited)
              (Some observeError)) "https://example.com" 0).
  simpl; lia.
Defined.

(** X4.  With a negative depth ceiling and a positive budget the start
    entry is taken from the frontier and dropped: the run is that single
    iteration, nothing is visited or fetched, and the result is empty. *)
Theorem negative_depth_drops_start `{Platform} (o : WebsiteCrawlerOptions)
        (startUrl : string) (fuel : nat) :
  (maxDepth o < 0)%Z -> (0 < maxPages o)%Z ->
  crawl (S (S fuel)) startUrl o =
    Some (mkState [] [] [] [EvShift startUrl 0%Z] None) /\
  scrapeEmailsFromWebsite (S (S fuel)) startUrl o = Some (inr []).
Proof.
  intros D M.
  assert (C : running o (initState startUrl) = true).
  { unfold running, loopCond. simpl. apply Z.ltb_lt. lia. }
  assert (B : loopBody o (getDomain startUrl) (initState startUrl) =
              mkState [] [] [] [EvShift startUrl 0%Z] None).
  { unfold loopBody. simpl.
    replace (Z.gtb 0 (maxDepth o)) with true; [reflexivity|].
    symmetry. rewrite Z.gtb_ltb. apply Z.ltb_lt. lia. }
  assert (R : crawl (S (S fuel)) startUrl o =
              Some (mkState [] [] [] [EvShift startUrl 0%Z] None)).
  { unfold crawl. cbn [runLoop]. rewrite C, B. reflexivity. }
  split; [exact R|]. unfold scrapeEmailsFromWebsite. now rewrite R.
Qed.

Lemma negative_depth_drops_start_witness :
  ((maxDepth (mkOptions (-1) 50 true false None (Some observeVisited)
              (Some observeError)) < 0)%Z /\
   (0 < maxPages (mkOptions (-1) 50 true false None (Some observeVisited)
              (Some observeError)))%Z) /\
  @scrapeEmailsFromWebsite Scenario.worldA 2 "https://example.com"
     (mkOptions (-1) 50 true false None (Some observeVisited)
              (Some observeError)) = Some (inr []).
Proof.
  split; [simpl; lia|].
  apply (@negative_depth_drops_start Scenario.worldA
           (mkOptions (-1) 50 true false None (Some observeVisited)
              (Some observeError))
           "https://example.com" 0); simpl; lia.
Defined.

(** A base URL that does not parse yields no link at all. *)
Lemma extractLinks_bad_base `{Platform} (html baseUrl : string) :
  newURL baseUrl None = None -> extractLinks html baseUrl = [].
Proof.
  intros B. unfold extractLinks.
  assert (N : forall m, normalizeUrl m baseUrl = None).
  { intros m. unfold normalizeUrl. now rewrite B. }
  induction (hrefMatches html) as [|m ms IH]; simpl; auto.
  now rewrite N.
Qed.

Lemma reachable_bad_start `{Platform} (o : WebsiteCrawlerOptions)
      (startUrl : string) (st : State) :
  newURL startUrl None = None ->
  reachable o startUrl st ->
  enqueued (trace st) = [] /\
  (forall u d, In (u, d) (toVisit st) -> u = startUrl) /\
  (forall u, In u (visited st) -> u = startUrl).
Proof.
  intros B. by_invariant o startUrl st.
  - simpl. repeat split; auto; [|tauto]. now intros u d [[= <- _]|[]].
  - intros s u d rest s' _ (E & T & V) _ Q O.
    assert (U : u = startUrl) by (apply (T u d); rewrite Q; now left).
    assert (Tr : forall u' d', In (u', d') rest -> u' = startUrl).
    { intros u' d' I. apply (T u' d'). rewrite Q. now right. }
    assert (Va : forall x, In x (JSSet.add u (visited s)) -> x = startUrl).
    { intros x I. apply In_add in I. destruct I as [->|I]; auto. }
    destruct O as [_|evs html emails called links Hv _ _ Hf Hn L|evs r emails' called error ev out Hv _ _ Hf Ht Hr].
    + simpl; trace_simpl. auto.
    + assert (L0 : links = []).
      { subst links u. destruct (Z.ltb d (maxDepth o)); auto.
        unfold linksToEnqueue. now rewrite extractLinks_bad_base. }
      clear L. subst links.
      step_events Hf. simpl; silent_events; trace_simpl; kill_nil.
      rewrite ?app_nil_r. repeat split; auto.
    + step_events Hf. silent_events. simpl; trace_simpl; kill_nil.
      repeat split; auto.
Qed.

(** X5.  A start URL the URL parser rejects is still tried, but the crawl
    cannot leave it: every page body yields no link against such a base, so
    at every point of the run nothing has been pushed onto the frontier and
    no URL other than the start URL has been visited or given to the
    platform. *)
Theorem unparseable_start_url `{Platform} (o : WebsiteCrawlerOptions)
        (startUrl : string) (n : nat) :
  newURL startUrl None = None ->
  (forall html, extractLinks html startUrl = []) /\
  getDomain startUrl = "" /\
  rejectedByDomain o (getDomain startUrl) startUrl = false /\
  enqueued (trace (stateAt o startUrl n)) = [] /\
  (forall u, In u (visited (stateAt o startUrl n)) \/
             In u (platformUrls (trace (stateAt o startUrl n))) ->
             u = startUrl).
Proof.
  intros B. pose proof (stateAt_reachable o startUrl n) as R.
  destruct (reachable_bad_start o startUrl _ B R) as (E & _ & V).
  split; [|split; [|split; [|split]]].
  - intros html. now apply extractLinks_bad_base.
  - unfold getDomain. now rewrite B.
  - unfold rejectedByDomain. rewrite String.eqb_refl.
    now destruct (sameDomainOnly o).
  - exact E.
  - intros u [I|I]; [now apply V|]. apply V.
    rewrite (bk_visited _ _ (reachable_bookKeeping o startUrl _ R)).
    now apply (reachable_platformUrls o startUrl _ R).
Qed.

Lemma unparseable_start_url_witness :
  @newURL Scenario.worldA "not a url" None = None /\
  enqueued (trace (@stateAt Scenario.worldA Scenario.optionsA "not a url" 3))
  = [].
Proof.
  split; [reflexivity|].
  apply (@unparseable_start_url Scenario.worldA Scenario.optionsA
           "not a url" 3).
  reflexivity.
Defined.

(** How the calls of the two callbacks relate to the visited set. *)
Lemma reachable_callbacks `{Platform} (o : WebsiteCrawlerOptions)
      (startUrl : string) (st : State) :
  reachable o startUrl st ->
  pageVisitedCalls (trace st) <= JSSet.size (visited st) /\
  List.length (reportedErrors (trace st)) <= JSSet.size (visited st) /\
  onErrorCalls (trace st) =
    match onError o with
    | Some _ => List.length (reportedErrors (trace st))
    | None => 0
    end /\
  match onPageVisited o with
  | Some _ =>
      JSSet.size (visited st) <=
      pageVisitedCalls (trace st) + List.length (reportedErrors (trace st))
  | None => pageVisitedCalls (trace st) = 0
  end /\
  (onPageVisitedReturns o ->
   match onPageVisited o with
   | Some _ =>
       pageVisitedCalls (trace st) + List.length (reportedErrors (trace st)) =
       JSSet.size (visited st)
   | None => True
   end).
Proof.
  by_invariant o startUrl st.
  - simpl. destruct (onPageVisited o), (onError o); repeat split; auto.
  - intros s u d rest s' R (A & B & C & D & E) _ Q O.
    assert (D0 : (0 <= d)%Z).
    { apply (db_queue _ _ (reachable_depthBounds o startUrl s R) u).
      rewrite Q. now left. }
    destruct O as [_|evs html emails called links Hv _ _ Hf Hn L
                   |evs r emails' called error ev out Hv _ _ Hf Ht Hr];
      cbn [trace visited].
    + rewrite pageVisitedCalls_app, onErrorCalls_app, reportedErrors_app.
      simpl. rewrite !Nat.add_0_r, app_nil_r. auto.
    + pose proof (fetchPage_platform_only _ _ _ _ _ Hf) as F.
      destruct (platform_no_callbacks _ F) as [P1 P2].
      destruct (enqueue_no_callbacks links (d + 1)%Z) as [E1 E2].
      step_events Hf.
      rewrite pageVisitedCalls_app, onErrorCalls_app, reportedErrors_app.
      cbn [pageVisitedCalls onErrorCalls reportedErrors].
      rewrite !pageVisitedCalls_app, !onErrorCalls_app, !reportedErrors_app.
      rewrite P1, P2, E1, E2, fe_errors0, reportedErrors_map_enqueue.
      rewrite size_add_fresh by assumption.
      apply notifyVisited_event in Hn.
      destruct Hn as [(Eo & -> & _)|(cb & Eo & -> & _)]; rewrite Eo in *;
        simpl; rewrite ?app_nil_r, ?Nat.add_0_r;
        (split; [lia|]); (split; [lia|]); (split; [exact C|]);
        (split; [lia|]); intros N; specialize (E N); try lia; exact I.
    + pose proof (fetchPage_platform_only _ _ _ _ _ Hf) as F.
      destruct (platform_no_callbacks _ F) as [P1 P2].
      step_events Hf.
      rewrite pageVisitedCalls_app, onErrorCalls_app, reportedErrors_app.
      cbn [pageVisitedCalls onErrorCalls reportedErrors].
      rewrite !pageVisitedCalls_app, !onErrorCalls_app, !reportedErrors_app.
      rewrite P1, P2, fe_errors0.
      rewrite (reportError_reported _ _ _ _ _ _ Hr).
      rewrite size_add_fresh by assumption.
      rewrite !length_app. cbn [List.length].
      assert (Oe : onErrorCalls [ev] =
                   match onError o with Some _ => 1 | None => 0 end /\
                   pageVisitedCalls [ev] = 0).
      { apply reportError_event in Hr.
        destruct Hr as [(-> & _ & ->)|(cb & -> & _ & ->)]; auto. }
      destruct Oe as [Oe1 Oe2]. rewrite Oe1, Oe2.
      apply tryFails_cases in Ht.
      destruct Ht as [(_ & _ & ->)|(html & emails & _ & _ & Hn)].
      * simpl. rewrite ?Nat.add_0_r.
        split; [lia|]. split; [lia|].
        split; [destruct (onError o); lia|].
        split; [destruct (onPageVisited o); lia|].
        intros N. specialize (E N). destruct (onPageVisited o); [lia|exact I].
      * apply notifyVisited_event in Hn.
        destruct Hn as [(_ & _ & Hn)|(cb & Eo & -> & Hn)]; [discriminate|].
        rewrite Eo in *. simpl. rewrite ?Nat.add_0_r.
        split; [lia|]. split; [lia|].
        split; [destruct (onError o); lia|].
        split; [lia|].
        intros N. rewrite (N cb Eo) in Hn by exact D0. discriminate.
Qed.

(** X6.  With both callbacks supplied, at every point of every run each
    processed URL has been reported at least once and at most twice: the
    calls of onPageVisited and of onError together number at least the size
    of the visited set and at most twice that (a page whose onPageVisited
    call throws is reported to onError as well).  When onPageVisited
    returns whenever the depth it is given is at least zero, the two counts
    add up to the size of the visited set, and with a budget of at least
    zero they never exceed [maxPages]. *)
Theorem callbacks_account_for_visited `{Platform}
        (o : WebsiteCrawlerOptions) (startUrl : string) (n : nat) :
  onPageVisited o <> None -> onError o <> None ->
  let st := stateAt o startUrl n in
  JSSet.size (visited st) <=
    pageVisitedCalls (trace st) + onErrorCalls (trace st) /\
  pageVisitedCalls (trace st) + onErrorCalls (trace st) <=
    2 * JSSet.size (visited st) /\
  (onPageVisitedReturns o ->
   pageVisitedCalls (trace st) + onErrorCalls (trace st) =
     JSSet.size (visited st) /\
   ((0 <= maxPages o)%Z ->
    (Z.of_nat (pageVisitedCalls (trace st) + onErrorCalls (trace st))
     <= maxPages o)%Z)).
Proof.
  intros V E st.
  pose proof (stateAt_reachable o startUrl n) as R. fold st in R.
  destruct (reachable_callbacks o startUrl st R) as (A & B & C & D & F).
  destruct (onPageVisited o) as [cb|] eqn:Ev; [|congruence].
  destruct (onError o) as [ce|] eqn:Ee; [|congruence].
  rewrite C. split; [lia|]. split; [lia|].
  intros N. specialize (F N). split; [lia|].
  intros M. rewrite F. now apply (reachable_budget o startUrl).
Qed.

Lemma callbacks_account_for_visited_witness :
  (onPageVisited Scenario.optionsRefuse <> None /\
   onError Scenario.optionsRefuse <> None) /\
  pageVisitedCalls
    (trace (@stateAt Scenario.worldA Scenario.optionsRefuse
                     "https://example.com" 3))
  + onErrorCalls
    (trace (@stateAt Scenario.worldA Scenario.optionsRefuse
                     "https://example.com" 3))
  <= 2 * JSSet.size
      (visited (@stateAt Scenario.worldA Scenario.optionsRefuse
                         "https://example.com" 3)).
Proof.
  split; [split; discriminate|].
  refine (proj1 (proj2 (@callbacks_account_for_visited Scenario.worldA
                          Scenario.optionsRefuse "https://example.com" 3
                          _ _))); discriminate.
Defined.

(** With a callback that throws the two counts do exceed the size of the
    visited set: one page, two calls. *)
Example callbacks_twice :
  let st := @stateAt Scenario.worldA Scenario.optionsRefuse
                     "https://example.com" 3 in
  JSSet.size (visited st) = 1 /\
  pageVisitedCalls (trace st) = 1 /\ onErrorCalls (trace st) = 1.
Proof. vm_compute. auto. Qed.

Lemma reachable_notifications `{Platform} (o : WebsiteCrawlerOptions)
      (startUrl : string) (st : State) :
  reachable o startUrl st ->
  forall u d k, In (EvPageVisited u d k) (trace st) ->
    In (u, d) (visits (trace st)) /\
    exists hist evs html emails,
      fetchPage o hist u = (evs, inr (html, emails)) /\
      k = JSSet.size emails.
Proof.
  by_invariant o startUrl st.
  - simpl. tauto.
  - intros s u d rest s' _ IH _ Q O.
    assert (Old : forall tl u' d' k,
               In (EvPageVisited u' d' k) (trace s) ->
               In (u', d') (visits (trace s ++ tl)) /\
               exists hist evs html emails,
                 fetchPage o hist u' = (evs, inr (html, emails)) /\
                 k = JSSet.size emails).
    { intros tl u' d' k I. destruct (IH _ _ _ I) as [A B]. split; auto.
      rewrite visits_app. apply in_app_iff. auto. }
    assert (New : forall tl,
               In (u, d) (visits (trace s ++ EvShift u d :: EvVisit u d :: tl))).
    { intros tl. rewrite visits_app. apply in_app_iff. right. simpl. auto. }
    destruct O as [_|evs html emails called links Hv _ _ Hf Hn L
                   |evs r emails' called error ev out Hv _ _ Hf Ht Hr];
      cbn [trace]; intros u' d' k I; apply in_app_iff in I;
      (destruct I as [I|I]; [now apply Old|]).
    + destruct I as [I|[]]. discriminate.
    + destruct I as [I|[I|I]]; try discriminate.
      rewrite !in_app_iff in I. destruct I as [I|[I|I]].
      * pose proof (fetchPage_platform_only _ _ _ _ _ Hf) as F.
        rewrite Forall_forall in F. apply F in I. discriminate.
      * apply notifyVisited_event in Hn.
        destruct Hn as [(_ & -> & _)|(cb & _ & -> & _)]; [destruct I|].
        destruct I as [[= <- <- <-]|[]]. split; [apply New | eauto 10].
      * apply in_map_iff in I. destruct I as (lk & E & _). discriminate.
    + destruct I as [I|[I|I]]; try discriminate.
      rewrite !in_app_iff in I. destruct I as [I|[I|I]].
      * pose proof (fetchPage_platform_only _ _ _ _ _ Hf) as F.
        rewrite Forall_forall in F. apply F in I. discriminate.
      * apply tryFails_cases in Ht.
        destruct Ht as [(_ & _ & ->)|(html & emails & -> & _ & Hn)];
          [destruct I|].
        apply notifyVisited_event in Hn.
        destruct Hn as [(_ & -> & _)|(cb & _ & -> & _)]; [destruct I|].
        destruct I as [[= <- <- <-]|[]]. split; [apply New | eauto 10].
      * apply reportError_event in Hr.
        destruct Hr as [(_ & _ & ->)|(cb & _ & _ & ->)];
          destruct I as [I|[]]; discriminate.
Qed.

(** X7.  Every call of onPageVisited recorded in a run reports an entry
    that was processed, at a depth between zero and [maxDepth], with the
    number of addresses of a page of that URL whose fetch succeeded. *)
Theorem onPageVisited_arguments `{Platform} (o : WebsiteCrawlerOptions)
        (startUrl : string) (n : nat) (u : string) (d : Z) (k : nat) :
  In (EvPageVisited u d k) (trace (stateAt o startUrl n)) ->
  In (u, d) (visits (trace (stateAt o startUrl n))) /\
  In u (visited (stateAt o startUrl n)) /\
  (0 <= d <= maxDepth o)%Z /\
  exists hist evs html emails,
    fetchPage o hist u = (evs, inr (html, emails)) /\ k = JSSet.size emails.
Proof.
  intros I. pose proof (stateAt_reachable o startUrl n) as R.
  destruct (reachable_notifications o startUrl _ R u d k I) as [A B].
  split; [exact A|]. split; [|split; [|exact B]].
  - rewrite (bk_visited _ _ (reachable_bookKeeping o startUrl _ R)).
    apply in_map_iff. exists (u, d). auto.
  - now apply (db_visits _ _ (reachable_depthBounds o startUrl _ R) u).
Qed.

Lemma onPageVisited_arguments_witness :
  In (EvPageVisited "https://a.example/up" 1 1)
     (trace (@stateAt Scenario.worldE Scenario.optionsE "https://a.example/" 4))
  /\
  In ("https://a.example/up", 1%Z)
     (visits (trace (@stateAt Scenario.worldE Scenario.optionsE
                              "https://a.example/" 4))).
Proof.
  assert (I : In (EvPageVisited "https://a.example/up" 1 1)
     (trace (@stateAt Scenario.worldE Scenario.optionsE
                      "https://a.example/" 4))).
  { vm_compute. auto 20. }
  split; [exact I|].
  exact (proj1 (@onPageVisited_arguments Scenario.worldE Scenario.optionsE
                  "https://a.example/" 4 "https://a.example/up" 1%Z 1 I)).
Defined.

(** X8.  When the crawl returns (no exception of onError has ended it)
    with page budget left, the traversal was exhaustive: the frontier is
    empty and every link that was pushed onto it has been processed; with a
    depth ceiling of at least zero the start URL has been processed too. *)
Theorem budget_left_means_exhaustive `{Platform}
        (o : WebsiteCrawlerOptions) (startUrl : string)
        (fuel : nat) (final : State) :
  crawl fuel startUrl o = Some final ->
  raised final = None ->
  (Z.of_nat (JSSet.size (visited final)) < maxPages o)%Z ->
  toVisit final = [] /\
  (forall l d, In (l, d) (enqueued (trace final)) -> In l (visited final)) /\
  ((0 <= maxDepth o)%Z -> In startUrl (visited final)).
Proof.
  intros Run Ret B. unfold crawl in Run.
  apply runLoop_iterate in Run. destruct Run as [E C].
  assert (R : reachable o startUrl final).
  { rewrite E. apply iterate_reachable, reach_init. }
  assert (T : toVisit final = []).
  { apply running_false in C; [|exact Ret].
    apply loopCond_false in C. destruct C as [C|C]; [exact C | lia]. }
  destruct (reachable_bookKeeping o startUrl final R) as [_ _ Bf].
  destruct (reachable_firstDiscovery o startUrl final R) as [Fs _].
  destruct (reachable_depthBounds o startUrl final R) as [_ _ De _].
  rewrite T, app_nil_r in Bf.
  split; [exact T|]. split.
  - intros l d I.
    assert (S : In (l, d) (shifted (trace final))).
    { rewrite <- Bf. now right. }
    destruct (Fs _ _ S) as [A|[A|A]]; auto.
    + rewrite (reachable_enqueued_in_scope o startUrl final R l d I) in A.
      discriminate.
    + destruct (De _ _ I) as [A' _]. lia.
  - intros D.
    assert (S : In (startUrl, 0%Z) (shifted (trace final))).
    { rewrite <- Bf. now left. }
    destruct (Fs _ _ S) as [A|[A|A]]; auto; [|lia].
    unfold rejectedByDomain in A. rewrite String.eqb_refl in A.
    destruct (sameDomainOnly o); discriminate.
Qed.

Lemma budget_left_means_exhaustive_witness :
  exists final,
    (@crawl Scenario.worldA 3 "https://example.com" Scenario.optionsA
       = Some final /\
     raised final = None /\
     (Z.of_nat (JSSet.size (visited final)) < maxPages Scenario.optionsA)%Z) /\
    toVisit final = [].
Proof.
  destruct (@crawl Scenario.worldA 3 "https://example.com" Scenario.optionsA)
    as [final|] eqn:E; [|vm_compute in E; discriminate].
  exists final.
  assert (Ret : raised final = None).
  { vm_compute in E. injection E as <-. reflexivity. }
  assert (B : (Z.of_nat (JSSet.size (visited final))
               < maxPages Scenario.optionsA)%Z).
  { vm_compute in E. injection E as <-. vm_compute. reflexivity. }
  split; [split; [reflexivity | split; [exact Ret | exact B]]|].
  apply (@budget_left_means_exhaustive Scenario.worldA Scenario.optionsA
           "https://example.com" 3 final E Ret B).
Defined.

Lemma reachable_strategy `{Platform} (o : WebsiteCrawlerOptions)
      (startUrl : string) (st : State) :
  reachable o startUrl st ->
  forall e, In e (trace st) -> strategyEvent o e = true.
Proof.
  by_invariant o startUrl st.
  - simpl. tauto.
  - intros s u d rest s' _ IH _ Q O.
    destruct O as [_|evs html emails called links Hv _ _ Hf Hn L|evs r emails' called error ev out Hv _ _ Hf Ht Hr];
      cbn [trace]; intros e I; apply in_app_iff in I;
      destruct I as [I|I]; try (now apply IH).
    + destruct I as [<-|[]]. reflexivity.
    + destruct I as [<-|[<-|I]]; try reflexivity.
      rewrite !in_app_iff in I. destruct I as [I|[I|I]].
      * pose proof (fetchPage_platform o
                      (trace s ++ [EvShift u d; EvVisit u d]) u) as F.
        rewrite Hf in F. simpl in F. rewrite Forall_forall in F.
        now apply F.
      * apply notifyVisited_event in Hn.
        destruct Hn as [(_ & -> & _)|(cb & _ & -> & _)]; [destruct I|].
        destruct I as [<-|[]]. reflexivity.
      * apply in_map_iff in I. destruct I as (lk & <- & _). reflexivity.
    + destruct I as [<-|[<-|I]]; try reflexivity.
      rewrite !in_app_iff in I. destruct I as [I|[I|I]].
      * pose proof (fetchPage_platform o
                      (trace s ++ [EvShift u d; EvVisit u d]) u) as F.
        rewrite Hf in F. simpl in F. rewrite Forall_forall in F.
        now apply F.
      * apply tryFails_called in Ht.
        destruct Ht as [->|[k ->]]; [destruct I|].
        destruct I as [<-|[]]. reflexivity.
      * apply reportError_event in Hr.
        destruct Hr as [(_ & _ & ->)|(cb & _ & _ & ->)];
          destruct I as [<-|[]]; reflexivity.
Qed.

(** X9.  The two fetch strategies never mix within a run: when useBrowser
    is set and a browser handle is given, [fetch] is never called; in every
    other case no browser page is ever opened, driven or closed, and the
    only calls of the platform are calls of [fetch]. *)
Theorem strategies_never_mix `{Platform} (o : WebsiteCrawlerOptions)
        (startUrl : string) (n : nat) :
  let st := stateAt o startUrl n in
  (browserMode o = true -> forall u, ~ In (EvFetch u) (trace st)) /\
  (browserMode o = false ->
   forall e, In e (trace st) -> isPlatformEvent e = true ->
             exists u, e = EvFetch u).
Proof.
  intros st. pose proof (stateAt_reachable o startUrl n) as R. fold st in R.
  pose proof (reachable_strategy o startUrl st R) as S. split.
  - intros M u I. apply S in I. simpl in I. rewrite M in I. discriminate.
  - intros M e I P. apply S in I.
    destruct e; simpl in *; try discriminate; eauto;
      rewrite M in I; discriminate.
Qed.

Lemma fetchPage_close_fails `{Platform} (o : WebsiteCrawlerOptions)
      (b : Browser) (hist : list event) (url : string)
      (ps : PageScript) (t : thrown) :
  useBrowser o = true -> browser o = Some b ->
  b hist url = inr ps -> closeResult ps = Some t ->
  snd (fetchPage o hist url) = inl t.
Proof.
  intros U B E C. unfold fetchPage, browserFetch, runPage.
  rewrite U, B, E, C.
  destruct (gotoResult ps), (contentResult ps), (scrapeResult ps); reflexivity.
Qed.

(** X10.  In browser mode, when closing the page throws, the page counts
    as failed whatever navigation, content retrieval and scraping did: its
    addresses are not merged, none of its links is pushed, onPageVisited is
    not called, and the error reported is the one thrown by the close. *)
Theorem close_failure_discards_page `{Platform}
        (o : WebsiteCrawlerOptions) (sd : string) (st : State)
        (u : string) (d : Z) (rest : list FrontierEntry)
        (b : Browser) (ps : PageScript) (t : thrown) :
  toVisit st = (u, d) :: rest ->
  JSSet.has u (visited st) = false ->
  (d <= maxDepth o)%Z ->
  rejectedByDomain o sd u = false ->
  useBrowser o = true -> browser o = Some b ->
  b (trace st ++ [EvShift u d; EvVisit u d]) u = inr ps ->
  closeResult ps = Some t ->
  let st' := loopBody o sd st in
  allEmails st' = allEmails st /\
  toVisit st' = rest /\
  enqueued (trace st') = enqueued (trace st) /\
  pageVisitedCalls (trace st') = pageVisitedCalls (trace st) /\
  reportedErrors (trace st') =
    reportedErrors (trace st) ++ [(u, message (toErrorObj t))].
Proof.
  intros Q Hv Hd Hs U B E C st'.
  pose proof (fetchPage_close_fails o b _ u ps t U B E C) as F.
  destruct (fetchPage o (trace st ++ [EvShift u d; EvVisit u d]) u)
    as [evs r] eqn:Hf.
  simpl in F. subst r. unfold st'.
  rewrite (loopBody_fetch_fails o sd st u d rest evs t Q Hv Hd Hs Hf).
  pose proof (fetchPage_platform_only _ _ _ _ _ Hf) as P.
  destruct (platform_no_callbacks _ P) as [P1 _].
  step_events Hf. cbn [allEmails toVisit trace].
  rewrite !enqueued_app, !pageVisitedCalls_app, !reportedErrors_app.
  change (EvShift u d :: EvVisit u d :: evs)
    with ([EvShift u d; EvVisit u d] ++ evs).
  rewrite !enqueued_app, !pageVisitedCalls_app, !reportedErrors_app.
  rewrite fe_enqueued0, P1, fe_errors0.
  unfold reportError. destruct (onError o); simpl;
    rewrite ?app_nil_r, ?Nat.add_0_r; auto.
Qed.

Lemma close_failure_discards_page_witness :
  let b : Browser := fun _ _ =>
    inr (mkPageScript None (inr Scenario.homeE) (inr ["e@a.example"])
                      (Some Scenario.networkError)) in
  let o := mkOptions 1 50 true true (Some b) (Some observeVisited)
                     (Some observeError) in
  toVisit (initState "https://a.example/") = [("https://a.example/", 0%Z)] /\
  allEmails (@loopBody Scenario.worldE o "a.example"
               (initState "https://a.example/")) = [].
Proof.
  intros b o. split; [reflexivity|].
  apply (@close_failure_discards_page Scenario.worldE o "a.example"
           (initState "https://a.example/") "https://a.example/" 0%Z [] b
           (mkPageScript None (inr Scenario.homeE) (inr ["e@a.example"])
                         (Some Scenario.networkError))
           Scenario.networkError);
    try reflexivity.
  simpl; lia.
Defined.

(** An exception that has left the loop was thrown by onError, in the call
    that is the last event of the trace. *)
Lemma reachable_raised `{Platform} (o : WebsiteCrawlerOptions)
      (startUrl : string) (st : State) :
  reachable o startUrl st ->
  forall t, raised st = Some t ->
    exists callback pre u e,
      onError o = Some callback /\
      trace st = pre ++ [EvOnError u e] /\
      callback pre u e = Some t.
Proof.
  by_invariant o startUrl st.
  - simpl. discriminate.
  - intros s u d rest s' _ _ _ Q O.
    destruct O as [_|evs html emails called links _ _ _ _ _ _
                   |evs r emails' called error ev out _ _ _ _ _ Hr];
      cbn [raised trace]; try discriminate.
    intros t ->. apply reportError_event in Hr.
    destruct Hr as [(_ & Hr & _)|(cb & Ecb & Hr & ->)]; [discriminate|].
    exists cb, (trace s ++ EvShift u d :: EvVisit u d :: evs ++ called),
           u, (toErrorObj error).
    split; [exact Ecb|]. split; [|now symmetry].
    rewrite <- !app_assoc. simpl. rewrite <- !app_assoc. reflexivity.
Qed.

(** X21.  The function ends with an exception only when onError threw it:
    the call of onError that threw is the last event of the run, made on
    the history before it, and the run has stopped there; in particular a
    run without onError, or whose onError always returns, returns its
    result set. *)
Theorem rejection_comes_from_onError `{Platform}
        (o : WebsiteCrawlerOptions) (startUrl : string) (n : nat)
        (t : thrown) :
  raised (stateAt o startUrl n) = Some t ->
  (exists callback pre u e,
      onError o = Some callback /\
      trace (stateAt o startUrl n) = pre ++ [EvOnError u e] /\
      callback pre u e = Some t) /\
  ~ onErrorReturns o /\
  (forall m, stateAt o startUrl (n + m) = stateAt o startUrl n) /\
  (exists fuel, scrapeEmailsFromWebsite fuel startUrl o = Some (inl t)).
Proof.
  intros R.
  destruct (reachable_raised o startUrl _ (stateAt_reachable o startUrl n) t R)
    as (cb & pre & u & e & Ecb & Et & Ec).
  assert (Stop : running o (stateAt o startUrl n) = false).
  { unfold running. now rewrite R. }
  split; [eauto 10|]. split; [|split].
  - intros N. rewrite (N cb Ecb) in Ec. discriminate.
  - intros m. unfold stateAt. rewrite iterate_add.
    now apply iterate_final.
  - destruct (runLoop_terminates o (getDomain startUrl) (initState startUrl))
      as (fuel & final & Run).
    exists fuel. unfold scrapeEmailsFromWebsite, crawl. rewrite Run. simpl.
    apply runLoop_iterate in Run. destruct Run as [Ef Cf].
    assert (E : final = stateAt o startUrl n).
    { destruct (Nat.le_ge_cases n fuel) as [L|L].
      - replace fuel with (n + (fuel - n)) in Ef by lia.
        rewrite iterate_add in Ef. rewrite Ef. now apply iterate_final.
      - unfold stateAt. replace n with (fuel + (n - fuel)) by lia.
        rewrite iterate_add, <- Ef. symmetry. now apply iterate_final. }
    rewrite E. unfold completion. now rewrite R.
Qed.

Lemma rejection_comes_from_onError_witness :
  raised (@stateAt Scenario.worldE Scenario.optionsRethrow
                   "https://a.example/" 4) = Some Scenario.networkError /\
  exists fuel,
    @scrapeEmailsFromWebsite Scenario.worldE fuel "https://a.example/"
       Scenario.optionsRethrow = Some (inl Scenario.networkError).
Proof.
  assert (R : raised (@stateAt Scenario.worldE Scenario.optionsRethrow
                               "https://a.example/" 4)
              = Some Scenario.networkError) by (vm_compute; reflexivity).
  split; [exact R|].
  exact (proj2 (proj2 (proj2
           (@rejection_comes_from_onError Scenario.worldE
              Scenario.optionsRethrow "https://a.example/" 4
              Scenario.networkError R)))).
Defined.


(** * Further properties of the link pattern *)

Lemma isQuote_cases (q : ascii) :
  isQuote q = true -> q = dquote \/ q = "'"%char.
Proof.
  unfold isQuote. rewrite orb_true_iff, !Ascii.eqb_eq. tauto.
Qed.

(** A text whose first six characters do not spell [href=] and a quote
    has no match of the [href=] part at its head. *)
Lemma matchHref_mismatch (s : list ascii) (i : nat) :
  match i with
  | 0 => ciEq (nth 0 s " "%char) "h" "H"
  | 1 => ciEq (nth 1 s " "%char) "r" "R"
  | 2 => ciEq (nth 2 s " "%char) "e" "E"
  | 3 => ciEq (nth 3 s " "%char) "f" "F"
  | 4 => Ascii.eqb (nth 4 s " "%char) "="
  | _ => isQuote (nth 5 s " "%char)
  end = false ->
  matchHref s = None.
Proof.
  unfold matchHref.
  destruct s as [|h [|r [|e [|f [|eq [|q s']]]]]]; auto.
  destruct i as [|[|[|[|[|i]]]]]; cbn [nth]; intros ->;
    rewrite ?andb_false_r; reflexivity.
Qed.

Lemma spanNotQuote_app (v rest : list ascii) (q : ascii) :
  (forall c, In c v -> isQuote c = false) -> isQuote q = true ->
  spanNotQuote (v ++ q :: rest) = (v, q :: rest).
Proof.
  intros V Q. induction v as [|c v IH]; simpl.
  - now rewrite Q.
  - rewrite (V c) by (now left). rewrite IH; auto.
    intros x I. apply V. now right.
Qed.

Lemma matchHref_exact (q q2 : ascii) (v rest : list ascii) :
  isQuote q = true -> isQuote q2 = true -> v <> [] ->
  (forall c, In c v -> isQuote c = false) ->
  matchHref ("h"%char :: "r"%char :: "e"%char :: "f"%char :: "="%char :: q ::
             v ++ q2 :: rest) = Some (v, 7 + List.length v).
Proof.
  intros Q Q2 N V. unfold matchHref.
  change (ciEq "h" "h" "H") with true. change (ciEq "r" "r" "R") with true.
  change (ciEq "e" "e" "E") with true. change (ciEq "f" "f" "F") with true.
  change (Ascii.eqb "=" "=") with true. rewrite Q. cbn [andb].
  rewrite spanNotQuote_app by assumption.
  destruct v; [contradiction | reflexivity].
Qed.

Lemma matchAttrs_cons (c : ascii) (s : list ascii) (k : nat) :
  matchAttrs (c :: s) k =
  if Ascii.eqb c ">"
  then match matchHref (c :: s) with
       | Some (cap, n) => Some (cap, k + n)
       | None => None
       end
  else match matchAttrs s (S k) with
       | Some r => Some r
       | None =>
           match matchHref (c :: s) with
           | Some (cap, n) => Some (cap, k + n)
           | None => None
           end
       end.
Proof. reflexivity. Qed.

Lemma matchAttrs_none (t post : list ascii) (k : nat) :
  noHrefIn t (">"%char :: post) ->
  matchAttrs (t ++ ">"%char :: post) k = None.
Proof.
  revert k. induction t as [|c t IH]; intros k [M N].
  - cbn [app] in *. cbn [matchAttrs]. now rewrite M.
  - cbn [app]. rewrite matchAttrs_cons. cbn [app] in M. rewrite M.
    destruct (Ascii.eqb c ">"); [reflexivity|]. now rewrite IH.
Qed.

(** Inside a quoted value that does not end with [=], and at its closing
    quote, no [href=] part starts. *)
Lemma noHrefIn_value (q : ascii) (v post : list ascii) :
  isQuote q = true ->
  (forall c, In c v -> isQuote c = false) ->
  last v " "%char <> "="%char ->
  noHrefIn (v ++ [q]) (">"%char :: post).
Proof.
  intros Q. induction v as [|c v IH]; intros V L.
  - cbn [noHrefIn app]. split; [|split; auto].
    + apply (matchHref_mismatch _ 0). cbn [nth].
      destruct (isQuote_cases q Q) as [-> | ->]; reflexivity.
    + apply (matchHref_mismatch _ 0). reflexivity.
  - split.
    + assert (V1 : forall x, In x (c :: v) -> isQuote x = false) by exact V.
      destruct v as [|c2 [|c3 [|c4 [|c5 [|c6 v']]]]]; cbn [app].
      * apply (matchHref_mismatch _ 1). cbn [nth].
        destruct (isQuote_cases q Q) as [-> | ->]; reflexivity.
      * apply (matchHref_mismatch _ 2). cbn [nth].
        destruct (isQuote_cases q Q) as [-> | ->]; reflexivity.
      * apply (matchHref_mismatch _ 3). cbn [nth].
        destruct (isQuote_cases q Q) as [-> | ->]; reflexivity.
      * apply (matchHref_mismatch _ 4). cbn [nth].
        destruct (isQuote_cases q Q) as [-> | ->]; reflexivity.
      * apply (matchHref_mismatch _ 4). cbn [nth].
        simpl in L. now apply Ascii.eqb_neq.
      * apply (matchHref_mismatch _ 5). cbn [nth].
        apply V1. simpl. auto 10.
    + cbn [app]. apply IH.
      * intros x I. apply V. now right.
      * destruct v; [discriminate | exact L].
Qed.

Lemma matchAnchor_head (c : ascii) (s : list ascii) :
  c <> "<"%char -> matchAnchor (c :: s) = None.
Proof.
  intros N. unfold matchAnchor. destruct s as [|a [|c' s']]; auto.
  apply Ascii.eqb_neq in N. now rewrite N.
Qed.

Lemma execAll_without_lt (pre s : list ascii) :
  (forall c, In c pre -> c <> "<"%char) ->
  execAll 0 (pre ++ s) = execAll 0 s.
Proof.
  induction pre as [|c pre IH]; intros N; [reflexivity|].
  cbn [app execAll]. rewrite matchAnchor_head by (apply N; now left).
  apply IH. intros x I. apply N. now right.
Qed.

Lemma execAll_cons (c : ascii) (s : list ascii) :
  execAll 0 (c :: s) =
  match matchAnchor (c :: s) with
  | Some (cap, n) => cap :: execAll (n - 1) s
  | None => execAll 0 s
  end.
Proof. reflexivity. Qed.

Lemma execAll_skip (a s : list ascii) :
  execAll (List.length a) (a ++ s) = execAll 0 s.
Proof. induction a as [|c a IH]; [reflexivity | exact IH]. Qed.

Lemma matchAnchor_plain (q : ascii) (v post : list ascii) :
  isQuote q = true -> v <> [] ->
  (forall c, In c v -> isQuote c = false) ->
  last v " "%char <> "="%char ->
  matchAnchor (plainAnchor q v ++ post) = Some (v, 10 + List.length v).
Proof.
  intros Q N V L. unfold plainAnchor, matchAnchor. cbn [app].
  change (Ascii.eqb "<" "<") with true. change (ciEq "a" "a" "A") with true.
  change (Ascii.eqb " " ">") with false. cbn [andb negb].
  rewrite matchAttrs_cons. change (Ascii.eqb "h" ">") with false. cbv iota.
  assert (R : matchAttrs
                ("r"%char :: "e"%char :: "f"%char :: "="%char :: q ::
                 (v ++ [q; ">"%char]) ++ post) 2 = None).
  { assert (T : noHrefIn ("r"%char :: "e"%char :: "f"%char :: "="%char :: q ::
                          v ++ [q]) (">"%char :: post)).
    { cbn [noHrefIn app].
      repeat (split; [apply (matchHref_mismatch _ 0); cbn [nth];
                      try reflexivity;
                      destruct (isQuote_cases q Q) as [-> | ->]; reflexivity|]).
      now apply noHrefIn_value. }
    apply (matchAttrs_none _ post 2) in T.
    cbn [app] in T. rewrite <- app_assoc in T. cbn [app] in T.
    rewrite <- app_assoc. exact T. }
  rewrite R. rewrite <- app_assoc. cbn [app].
  rewrite (matchHref_exact q q v (">"%char :: post) Q Q N V).
  reflexivity.
Qed.

(** X11.  A plain anchor is found: in a text made of a part free of [<],
    then [<a href=QvQ>] with either quote character, then any rest, where
    the value [v] is not empty, holds no quote character and does not end
    with [=], the pattern captures [v] first and then exactly what it
    captures in the rest; hence the URL that [v] resolves to is among the
    links of the text. *)
Theorem plain_anchor_is_found `{Platform} (pre v post : list ascii)
        (q : ascii) (baseUrl l : string) :
  isQuote q = true ->
  (forall c, In c pre -> c <> "<"%char) ->
  v <> [] ->
  (forall c, In c v -> isQuote c = false) ->
  last v " "%char <> "="%char ->
  let html := string_of_list_ascii (pre ++ plainAnchor q v ++ post) in
  hrefMatches html =
    string_of_list_ascii v :: hrefMatches (string_of_list_ascii post) /\
  (normalizeUrl (string_of_list_ascii v) baseUrl = Some l ->
   In l (extractLinks html baseUrl)).
Proof.
  intros Q P N V L html.
  assert (M : hrefMatches html =
              string_of_list_ascii v :: hrefMatches (string_of_list_ascii post)).
  { unfold html, hrefMatches. rewrite !list_ascii_of_string_of_list_ascii.
    rewrite execAll_without_lt by assumption.
    assert (A : matchAnchor (plainAnchor q v ++ post)
                = Some (v, 10 + List.length v))
      by now apply matchAnchor_plain.
    assert (E : execAll 0 (plainAnchor q v ++ post) = v :: execAll 0 post).
    { unfold plainAnchor in *. cbn [app] in *. rewrite execAll_cons, A.
      f_equal.
      replace (10 + List.length v - 1)
        with (List.length ("a"%char :: " "%char :: "h"%char :: "r"%char ::
                           "e"%char :: "f"%char :: "="%char :: q :: v ++ [q]))
        by (cbn [List.length]; rewrite length_app; simpl; lia).
      replace ("a"%char :: " "%char :: "h"%char :: "r"%char :: "e"%char ::
               "f"%char :: "="%char :: q :: (v ++ [q; ">"%char]) ++ post)
        with (("a"%char :: " "%char :: "h"%char :: "r"%char :: "e"%char ::
               "f"%char :: "="%char :: q :: v ++ [q]) ++ ">"%char :: post)
        by (cbn [app]; rewrite <- !app_assoc; reflexivity).
      rewrite execAll_skip.
      apply (execAll_without_lt [">"%char] post).
      intros c [<-|[]]. discriminate. }
    rewrite E. reflexivity. }
  split; [exact M|].
  intros E. apply In_extractLinks. exists (string_of_list_ascii v).
  rewrite M. split; [now left | exact E].
Qed.

Lemma plain_anchor_is_found_witness :
  (isQuote "'"%char = true /\
   list_ascii_of_string "/contact" <> [] /\
   last (list_ascii_of_string "/contact") " "%char <> "="%char) /\
  hrefMatches
    (string_of_list_ascii
       (list_ascii_of_string "Hello " ++
        plainAnchor "'" (list_ascii_of_string "/contact") ++
        list_ascii_of_string "Contact</a>")) =
  string_of_list_ascii (list_ascii_of_string "/contact") ::
  hrefMatches (string_of_list_ascii (list_ascii_of_string "Contact</a>")).
Proof.
  split; [repeat split; discriminate|].
  refine (proj1 (@plain_anchor_is_found (tablePlatform [] [])
           (list_ascii_of_string "Hello ")
           (list_ascii_of_string "/contact")
           (list_ascii_of_string "Contact</a>") "'"%char "" "" _ _ _ _ _)).
  - reflexivity.
  - simpl. intros c I.
    repeat (destruct I as [<-|I]; [discriminate|]). destruct I.
  - discriminate.
  - simpl. intros c I.
    repeat (destruct I as [<-|I]; [reflexivity|]). destruct I.
  - discriminate.
Defined.

(** X12.  A text without the character [<], or without any quote
    character, has no link, whatever the base URL. *)
Theorem no_markup_no_links `{Platform} (html baseUrl : string) :
  (forall c, In c (list_ascii_of_string html) -> c <> "<"%char) \/
  (forall c, In c (list_ascii_of_string html) -> isQuote c = false) ->
  hrefMatches html = [] /\ extractLinks html baseUrl = [].
Proof.
  intros N.
  assert (M : hrefMatches html = []).
  { destruct (hrefMatches html) as [|m ms] eqn:E; [reflexivity|].
    exfalso.
    assert (I : In m (hrefMatches html)) by (rewrite E; now left).
    apply hrefMatches_spec in I.
    destruct I as (pre & a & mid & tl & Eh & _ & _ & _ &
                   (h & r & e & f & q1 & q2 & post & Et & _ & _ & _ & _ &
                    Q1 & _)).
    destruct N as [N|N].
    - apply (N "<"%char); [|reflexivity].
      rewrite Eh. apply in_app_iff. right. now left.
    - rewrite (N q1) in Q1; [discriminate|].
      rewrite Eh, Et. apply in_app_iff. right. right. right.
      apply in_app_iff. right. simpl. auto 10. }
  split; [exact M|]. unfold extractLinks. now rewrite M.
Qed.

Lemma no_markup_no_links_witness :
  (forall c, In c (list_ascii_of_string "write to us") -> c <> "<"%char) /\
  @extractLinks (tablePlatform [] []) "write to us" "https://a.example" = [].
Proof.
  assert (N : forall c, In c (list_ascii_of_string "write to us") ->
                        c <> "<"%char).
  { simpl. intros c I.
    repeat (destruct I as [<-|I]; [discriminate|]). destruct I. }
  split; [exact N|].
  exact (proj2 (@no_markup_no_links (tablePlatform [] []) "write to us"
                  "https://a.example" (or_introl N))).
Defined.

(** * Properties of the browser factory *)

Module BrowserFactoryFacts.

Import BrowserFactory.

Lemma playwright_not_puppeteer (t1 t2 : thrown) :
  playwrightLaunchMessage t1 <> puppeteerLaunchMessage t2.
Proof. unfold playwrightLaunchMessage, puppeteerLaunchMessage. simpl. discriminate. Qed.

Lemma playwright_not_missing (t : thrown) :
  playwrightLaunchMessage t <> noLibraryMessage.
Proof. unfold playwrightLaunchMessage, noLibraryMessage. simpl. discriminate. Qed.

Lemma puppeteer_not_missing (t : thrown) :
  puppeteerLaunchMessage t <> noLibraryMessage.
Proof. unfold puppeteerLaunchMessage, noLibraryMessage. simpl. discriminate. Qed.

(** X13.  createBrowser prefers Playwright and never falls back after a
    failed launch: it returns a browser exactly when Playwright is
    installed and launches, or Playwright is not installed and Puppeteer is
    installed and launches; when Playwright is installed, Puppeteer is
    neither imported nor launched, so a Playwright that fails to launch is
    an error even where Puppeteer would have worked. *)
Theorem createBrowser_prefers_playwright {B : Type} (e : Engines B) :
  (forall b, snd (createBrowser e) = inr b <->
     playwright e = Some (inr b) \/
     (playwright e = None /\ puppeteer e = Some (inr b))) /\
  (playwright e <> None ->
   fst (createBrowser e) = [ImportPlaywright; LaunchPlaywright]) /\
  (forall t, playwright e = Some (inl t) ->
     snd (createBrowser e) = inl (mkError (playwrightLaunchMessage t))) /\
  (playwright e = None ->
   fst (createBrowser e) =
     ImportPlaywright :: ImportPuppeteer ::
     match puppeteer e with Some _ => [LaunchPuppeteer] | None => [] end).
Proof.
  unfold createBrowser.
  destruct (playwright e) as [[t|b]|]; [| |destruct (puppeteer e) as [[t|b]|]];
    simpl; repeat split; try congruence; intros;
    repeat match goal with
           | H : _ \/ _ |- _ => destruct H
           | H : _ /\ _ |- _ => destruct H
           end; try congruence; auto;
    solve [left; congruence | right; split; congruence].
Qed.

(** X14.  The message of the error createBrowser throws tells the cause:
    it is the "no library" text exactly when neither engine is installed,
    a "failed to launch Playwright" text exactly when Playwright is
    installed and failed to launch, a "failed to launch Puppeteer" text
    exactly when Playwright is not installed and Puppeteer failed to
    launch; each launch text carries the message of the failure. *)
Theorem createBrowser_error_tells_cause {B : Type} (e : Engines B)
        (err : Error) :
  snd (createBrowser e) = inl err ->
  (message err = noLibraryMessage <->
     playwright e = None /\ puppeteer e = None) /\
  (forall t, message err = playwrightLaunchMessage t ->
     exists t', playwright e = Some (inl t') /\
                message err = playwrightLaunchMessage t') /\
  (forall t, message err = puppeteerLaunchMessage t ->
     playwright e = None /\
     exists t', puppeteer e = Some (inl t') /\
                message err = puppeteerLaunchMessage t') /\
  ((exists t, message err = playwrightLaunchMessage t) \/
   (exists t, message err = puppeteerLaunchMessage t) \/
   message err = noLibraryMessage).
Proof.
  unfold createBrowser.
  destruct (playwright e) as [[t0|b]|] eqn:Pw;
    [| |destruct (puppeteer e) as [[t0|b]|] eqn:Pp];
    cbn [snd]; intros E; try discriminate; injection E as <-; cbn [message].
  - split; [split|split; [|split]].
    + intros M. exfalso. exact (playwright_not_missing _ M).
    + intros [M _]. discriminate.
    + intros t M. exists t0. split; reflexivity.
    + intros t M. exfalso. exact (playwright_not_puppeteer _ _ M).
    + left. exists t0. reflexivity.
  - split; [split|split; [|split]].
    + intros M. exfalso. exact (puppeteer_not_missing _ M).
    + intros [_ M]. discriminate.
    + intros t M. exfalso. symmetry in M.
      exact (playwright_not_puppeteer _ _ M).
    + intros t M. split; [reflexivity|]. exists t0. split; reflexivity.
    + right. left. exists t0. reflexivity.
  - split; [split|split; [|split]].
    + auto.
    + reflexivity.
    + intros t M. exfalso. symmetry in M. exact (playwright_not_missing _ M).
    + intros t M. exfalso. symmetry in M. exact (puppeteer_not_missing _ M).
    + right. right. reflexivity.
Qed.

Lemma createBrowser_error_tells_cause_witness :
  let e : Engines nat :=
    mkEngines (Some (inl (ThrownOther "no display"))) (Some (inr 7)) in
  snd (createBrowser e) =
    inl (mkError (playwrightLaunchMessage (ThrownOther "no display"))) /\
  ~ (message (mkError (playwrightLaunchMessage (ThrownOther "no display")))
     = noLibraryMessage).
Proof.
  intros e. split; [reflexivity|].
  intros M.
  apply (proj1 (proj1 (@createBrowser_error_tells_cause nat e
                         (mkError (playwrightLaunchMessage
                                     (ThrownOther "no display")))
                         eq_refl))) in M.
  destruct M as [M _]. discriminate.
Defined.

End BrowserFactoryFacts.

(** * Properties of the command-line front end *)

(** ** The loop on numbers and the loop on integers *)

Lemma loopBodyNum_numbers `{Platform} (d p : Z) (o : WebsiteCrawlerOptions)
      (sd : string) (st : State) :
  loopBodyNum (Some d) o sd st = loopBody (withLimits d p o) sd st.
Proof. destruct o. reflexivity. Qed.

Lemma runLoopNum_numbers `{Platform} (d p : Z) (o : WebsiteCrawlerOptions)
      (sd : string) (fuel : nat) (st : State) :
  runLoopNum (Some d) (Some p) o sd fuel st =
  runLoop (withLimits d p o) sd fuel st.
Proof.
  revert st. induction fuel as [|fuel IH]; intros st; [reflexivity|].
  cbn [runLoopNum runLoop].
  change (runningNum (Some p) st) with (running (withLimits d p o) st).
  destruct (running (withLimits d p o) st); [|reflexivity].
  rewrite (loopBodyNum_numbers d p). apply IH.
Qed.

(** With a depth ceiling that is NaN nothing is ever pushed. *)
Lemma loopBodyNum_nan_frontier `{Platform} (o : WebsiteCrawlerOptions)
      (sd : string) (st : State) :
  toVisit (loopBodyNum None o sd st) = tl (toVisit st).
Proof.
  unfold loopBodyNum.
  destruct (toVisit st) as [|[u d] rest] eqn:Q; [now rewrite Q|].
  cbn [numGt numLt tl].
  destruct (JSSet.has u (visited st)); [reflexivity|].
  destruct (rejectedByDomain o sd u); [reflexivity|].
  destruct (fetchPage o _ u) as [evs [t|[html emails]]].
  - destruct (reportError o _ u t). reflexivity.
  - destruct (notifyVisited o _ u d emails) as [called [t|]].
    + destruct (reportError o _ u t). reflexivity.
    + cbn [toVisit map]. apply app_nil_r.
Qed.

Lemma loopBodyNum_nan `{Platform} (p : Z) (o : WebsiteCrawlerOptions)
      (sd : string) (st : State) :
  (forall u d, In (u, d) (toVisit st) -> d = 0%Z) ->
  loopBodyNum None o sd st = loopBody (withLimits 0 p o) sd st.
Proof.
  intros Z0. unfold loopBodyNum, loopBody.
  destruct (toVisit st) as [|[u d] rest]; [reflexivity|].
  rewrite (Z0 u d) by (now left). destruct o. reflexivity.
Qed.

Lemma runLoopNum_nan_depth `{Platform} (p : Z) (o : WebsiteCrawlerOptions)
      (sd : string) (fuel : nat) (st : State) :
  (forall u d, In (u, d) (toVisit st) -> d = 0%Z) ->
  runLoopNum None (Some p) o sd fuel st = runLoop (withLimits 0 p o) sd fuel st.
Proof.
  revert st. induction fuel as [|fuel IH]; intros st Z0; [reflexivity|].
  cbn [runLoopNum runLoop].
  change (runningNum (Some p) st) with (running (withLimits 0 p o) st).
  destruct (running (withLimits 0 p o) st); [|reflexivity].
  rewrite <- (loopBodyNum_nan p) by assumption. apply IH.
  intros u d I. rewrite loopBodyNum_nan_frontier in I.
  apply (Z0 u d). destruct (toVisit st); [destruct I | now right].
Qed.

(** Every run on numbers is a run on integers, or does nothing. *)
Lemma crawlNum_as_crawl `{Platform} (fuel : nat) (startUrl : string)
      (md mp : num) (o : WebsiteCrawlerOptions) (final : State) :
  crawlNum fuel startUrl md mp o = Some final ->
  (mp = None /\ final = initState startUrl) \/
  (exists d p, mp = Some p /\
               (md = None -> d = 0%Z) /\ (forall x, md = Some x -> d = x) /\
               crawl fuel startUrl (withLimits d p o) = Some final).
Proof.
  unfold crawlNum, crawl. destruct mp as [p|].
  - intros E. right. destruct md as [d|].
    + exists d, p. rewrite runLoopNum_numbers in E.
      repeat split; auto; congruence.
    + exists 0%Z, p. rewrite runLoopNum_nan_depth in E.
      * repeat split; auto; congruence.
      * simpl. now intros u d [[= _ <-]|[]].
  - destruct fuel; [discriminate|]. simpl. intros [= <-]. auto.
Qed.

Lemma crawlNum_returns `{Platform} (startUrl : string) (md mp : num)
      (o : WebsiteCrawlerOptions) :
  exists fuel final, crawlNum fuel startUrl md mp o = Some final.
Proof.
  unfold crawlNum. destruct mp as [p|].
  - destruct md as [d|].
    + destruct (runLoop_terminates (withLimits d p o) (getDomain startUrl)
                                   (initState startUrl)) as (fuel & final & E).
      exists fuel, final. now rewrite runLoopNum_numbers.
    + destruct (runLoop_terminates (withLimits 0 p o) (getDomain startUrl)
                                   (initState startUrl)) as (fuel & final & E).
      exists fuel, final. rewrite runLoopNum_nan_depth; auto.
      simpl. now intros u d [[= _ <-]|[]].
  - exists 1, (initState startUrl). reflexivity.
Qed.

(** With a depth ceiling of zero or less the crawl stays on the start URL. *)
Lemma reachable_depth_zero `{Platform} (o : WebsiteCrawlerOptions)
      (startUrl : string) (st : State) :
  (maxDepth o <= 0)%Z ->
  reachable o startUrl st ->
  enqueued (trace st) = [] /\
  (forall u, In u (platformUrls (trace st)) -> u = startUrl) /\
  (forall u, In u (visited st) -> u = startUrl).
Proof.
  intros D R.
  destruct (reachable_depthBounds o startUrl st R) as [_ Dv De _].
  assert (E : enqueued (trace st) = []).
  { destruct (enqueued (trace st)) as [|[l d] es] eqn:Eq; [reflexivity|].
    destruct (De l d) as [A [u B]]; [now left|].
    apply Dv in B. lia. }
  assert (V : forall u, In u (visited st) -> u = startUrl).
  { intros u I.
    rewrite (bk_visited _ _ (reachable_bookKeeping o startUrl st R)) in I.
    apply in_map_iff in I. destruct I as ([u' d] & <- & I).
    apply (fd_first _ _ _ (reachable_firstDiscovery o startUrl st R)) in I.
    rewrite E in I. simpl in I.
    destruct (String.eqb u' startUrl) eqn:S; [|discriminate].
    now apply String.eqb_eq. }
  repeat split; auto.
  intros u I. apply V.
  rewrite (bk_visited _ _ (reachable_bookKeeping o startUrl st R)).
  now apply (reachable_platformUrls o startUrl st R).
Qed.

Lemma crawl_reachable `{Platform} (fuel : nat) (startUrl : string)
      (o : WebsiteCrawlerOptions) (final : State) :
  crawl fuel startUrl o = Some final -> reachable o startUrl final.
Proof.
  unfold crawl. intros E. apply runLoop_iterate in E. destruct E as [-> _].
  apply iterate_reachable, reach_init.
Qed.

(** A run on numbers whose onError always returns is not ended by an
    exception. *)
Lemma crawlNum_raised `{Platform} (fuel : nat) (startUrl : string)
      (md mp : num) (o : WebsiteCrawlerOptions) (final : State) :
  onErrorReturns o ->
  crawlNum fuel startUrl md mp o = Some final -> raised final = None.
Proof.
  intros N E. apply crawlNum_as_crawl in E.
  destruct E as [[_ ->]|(d & p & _ & _ & _ & E)]; [reflexivity|].
  unfold crawl in E. apply runLoop_iterate in E. destruct E as [-> _].
  apply iterate_raised; [|reflexivity].
  intros cb Ecb. apply N. now destruct o.
Qed.

Module CliFacts.

Import BrowserFactory Cli.

(** The callbacks of the [website] command return normally. *)
Lemma website_raised `{Platform} (fuel : nat) (url : string)
      (f : WebsiteFlags) (b : option Browser) (final : State) :
  crawlNum fuel url (parseInt (flagMaxDepth f)) (parseInt (flagMaxPages f))
           (websiteOptions f b) = Some final ->
  raised final = None.
Proof.
  apply crawlNum_raised. intros cb [= <-] hist u e. reflexivity.
Qed.

Example parseInt_samples :
  parseInt "3" = Some 3%Z /\ parseInt "50" = Some 50%Z /\
  parseInt "  -12px" = Some (-12)%Z /\ parseInt "+7.9" = Some 7%Z /\
  parseInt "abc" = None /\ parseInt "" = None /\ parseInt "-" = None.
Proof. repeat split; reflexivity. Qed.

Lemma browserCloses_app (a b : list cliEvent) :
  browserCloses (a ++ b) = browserCloses a + browserCloses b.
Proof. unfold browserCloses. now rewrite filter_app, length_app. Qed.

Lemma pageCloses_app (a b : list cliEvent) :
  pageCloses (a ++ b) = pageCloses a + pageCloses b.
Proof. unfold pageCloses. now rewrite filter_app, length_app. Qed.

Lemma exitsWithFailure_app (a b : list cliEvent) :
  exitsWithFailure (a ++ b) = (exitsWithFailure a || exitsWithFailure b)%bool.
Proof. apply existsb_app. Qed.

Lemma crawlEvents_app (a b : list cliEvent) :
  crawlEvents (a ++ b) = crawlEvents a ++ crawlEvents b.
Proof. apply flat_map_app. Qed.

Lemma summaries_app (a b : list cliEvent) :
  summaries (a ++ b) = summaries a ++ summaries b.
Proof. apply flat_map_app. Qed.

Lemma printedResults_app (a b : list cliEvent) :
  printedResults (a ++ b) = printedResults a ++ printedResults b.
Proof. apply flat_map_app. Qed.

Lemma readings_crawl (tr : list event) :
  browserCloses (map CliCrawl tr) = 0 /\
  exitsWithFailure (map CliCrawl tr) = false /\
  crawlEvents (map CliCrawl tr) = tr /\
  summaries (map CliCrawl tr) = [].
Proof.
  induction tr as [|e tr (A & B & C & D)]; simpl; auto.
  repeat split; auto. unfold crawlEvents in *. simpl. now rewrite C.
Qed.

Lemma readings_factory (fev : list factoryEvent) :
  browserCloses (map CliFactory fev) = 0 /\
  pageCloses (map CliFactory fev) = 0 /\
  exitsWithFailure (map CliFactory fev) = false /\
  crawlEvents (map CliFactory fev) = [] /\
  summaries (map CliFactory fev) = [] /\
  printedResults (map CliFactory fev) = [].
Proof. induction fev as [|e fev (A & B & C & D & E & F)]; simpl; auto 10. Qed.

Ltac cli_simpl :=
  repeat match goal with
  | |- context [map CliCrawl ?tr] =>
      let R := fresh "R" in
      pose proof (readings_crawl tr) as R; destruct R as (? & ? & ? & ?);
      let l := fresh "l" in let Hl := fresh "Hl" in
      remember (map CliCrawl tr) as l eqn:Hl; clear Hl
  | |- context [map CliFactory ?fev] =>
      let R := fresh "R" in
      pose proof (readings_factory fev) as R;
      destruct R as (? & ? & ? & ? & ? & ?);
      let l := fresh "l" in let Hl := fresh "Hl" in
      remember (map CliFactory fev) as l eqn:Hl; clear Hl
  end;
  rewrite ?browserCloses_app, ?pageCloses_app, ?exitsWithFailure_app,
    ?crawlEvents_app, ?summaries_app, ?printedResults_app;
  repeat match goal with
  | E : ?f ?x = _ |- context [?f ?x] => rewrite E
  end;
  simpl.

(** X15.  The [website] command closes the browser exactly once when it
    created one, after the crawl and its summary, and never otherwise: not
    without the browser flag, and not when createBrowser threw. *)
Theorem website_closes_its_browser `{Platform} (fuel : nat) (env : Env)
        (url : string) (f : WebsiteFlags) (evs : list cliEvent) :
  websiteAction fuel env url f = Some evs ->
  browserCloses evs =
    (if flagBrowser f
     then match snd (createBrowser (engines env)) with
          | inr _ => 1
          | inl _ => 0
          end
     else 0) /\
  (browserCloses evs = 1 ->
   exists before after,
     evs = before ++ CliBrowserClose :: after /\
     browserCloses before = 0 /\
     crawlEvents after = [] /\ summaries after = [] /\
     List.length (summaries before) = 1).
Proof.
  unfold websiteAction, crawlAndClose.
  destruct (flagBrowser f).
  - destruct (createBrowser (engines env)) as [fev [err|b]]; simpl.
    + intros [= <-]. split; [now cli_simpl|]. cli_simpl. discriminate.
    + destruct (crawlNum fuel url _ _ _) as [final|] eqn:Cr; [|discriminate].
      rewrite (website_raised _ _ _ _ _ Cr) in *.
      intros [= <-]. split.
      * cli_simpl. unfold browserCloses.
        destruct (browserCloseResult env); reflexivity.
      * intros _.
        exists (map CliFactory fev ++ map CliCrawl (trace final) ++
                [CliSummary (pageVisitedCalls (trace final))
                            (onErrorCalls (trace final))
                            (JSSet.size (allEmails final))]).
        eexists. split; [rewrite <- !app_assoc; reflexivity|].
        split; [now cli_simpl|].
        split; [destruct (browserCloseResult env); reflexivity|].
        split; [destruct (browserCloseResult env); reflexivity|].
        now cli_simpl.
  - destruct (crawlNum fuel url _ _ _) as [final|] eqn:Cr; [|discriminate].
      rewrite (website_raised _ _ _ _ _ Cr) in *.
    intros [= <-]. split; [now cli_simpl|]. cli_simpl. discriminate.
Qed.

Lemma website_closes_its_browser_witness :
  let env := mkEnv (mkEngines (Some (inr Scenario.flakyBrowser)) None) None
                   (fun _ => inr []) in
  let f := mkWebsiteFlags "1" "50" false true in
  exists evs,
    @websiteAction Scenario.worldE 5 env "https://a.example/" f = Some evs /\
    browserCloses evs = 1.
Proof.
  intros env f.
  destruct (@websiteAction Scenario.worldE 5 env "https://a.example/" f)
    as [evs|] eqn:E; [|vm_compute in E; discriminate].
  exists evs. split; [reflexivity|].
  exact (proj1 (@website_closes_its_browser Scenario.worldE 5 env
                  "https://a.example/" f evs E)).
Defined.

(** X16.  The [website] command exits with code 1 only for the browser:
    when the browser flag is set and createBrowser throws, or closing the
    browser throws.  Without the browser flag it never does, whatever
    happens to the pages. *)
Theorem website_exit_status `{Platform} (fuel : nat) (env : Env)
        (url : string) (f : WebsiteFlags) (evs : list cliEvent) :
  websiteAction fuel env url f = Some evs ->
  exitsWithFailure evs =
    (flagBrowser f &&
     match snd (createBrowser (engines env)) with
     | inl _ => true
     | inr _ => match browserCloseResult env with
                | Some _ => true
                | None => false
                end
     end)%bool.
Proof.
  unfold websiteAction, crawlAndClose.
  destruct (flagBrowser f).
  - destruct (createBrowser (engines env)) as [fev [err|b]]; simpl.
    + intros [= <-]. now cli_simpl.
    + destruct (crawlNum fuel url _ _ _) as [final|] eqn:Cr; [|discriminate].
      rewrite (website_raised _ _ _ _ _ Cr) in *.
      intros [= <-]. cli_simpl.
      destruct (browserCloseResult env); reflexivity.
  - destruct (crawlNum fuel url _ _ _) as [final|] eqn:Cr; [|discriminate].
      rewrite (website_raised _ _ _ _ _ Cr) in *.
    intros [= <-]. now cli_simpl.
Qed.

Lemma website_exit_status_witness :
  let env := mkEnv (mkEngines None None) None (fun _ => inr []) in
  let f := mkWebsiteFlags "3" "50" false false in
  exists evs,
    @websiteAction Scenario.worldE 5 env "https://a.example/" f = Some evs /\
    exitsWithFailure evs = false.
Proof.
  intros env f.
  destruct (@websiteAction Scenario.worldE 5 env "https://a.example/" f)
    as [evs|] eqn:E; [|vm_compute in E; discriminate].
  exists evs. split; [reflexivity|].
  exact (@website_exit_status Scenario.worldE 5 env
           "https://a.example/" f evs E).
Defined.

(** What the crawl of the [website] command can be, given its flags. *)
Lemma website_crawl `{Platform} (fuel : nat) (url : string)
      (f : WebsiteFlags) (b : option Browser) (final : State) :
  crawlNum fuel url (parseInt (flagMaxDepth f)) (parseInt (flagMaxPages f))
           (websiteOptions f b) = Some final ->
  (parseInt (flagMaxPages f) = None /\ final = initState url) \/
  (exists o p,
      parseInt (flagMaxPages f) = Some p /\ maxPages o = p /\
      (parseInt (flagMaxDepth f) = None -> maxDepth o = 0%Z) /\
      onPageVisited o = Some websitePageVisited /\
      onError o = Some websiteOnError /\
      reachable o url final).
Proof.
  intros E. apply crawlNum_as_crawl in E.
  destruct E as [E|(d & p & Ep & Dn & _ & E)]; [now left|]. right.
  exists (withLimits d p (websiteOptions f b)), p.
  repeat split; auto. now apply (crawl_reachable fuel).
Qed.

(** X17.  When createBrowser does not throw, the [website] command prints
    one summary, after all the events of the crawl: its counts of pages
    visited and of errors add up to the number of URLs the crawl processed,
    its total is the size of the result, and when the page limit parses to
    an integer of at least zero the two counts together do not exceed
    it. *)
Theorem website_summary_counts `{Platform} (fuel : nat) (env : Env)
        (url : string) (f : WebsiteFlags) (evs : list cliEvent) :
  websiteAction fuel env url f = Some evs ->
  (flagBrowser f = true ->
   exists b, snd (createBrowser (engines env)) = inr b) ->
  exists pagesVisited errors total,
    summaries evs = [(pagesVisited, errors, total)] /\
    pagesVisited = pageVisitedCalls (crawlEvents evs) /\
    errors = onErrorCalls (crawlEvents evs) /\
    pagesVisited + errors = List.length (visits (crawlEvents evs)) /\
    (forall p, parseInt (flagMaxPages f) = Some p -> (0 <= p)%Z ->
               (Z.of_nat (pagesVisited + errors) <= p)%Z).
Proof.
  intros E B.
  assert (K : exists b final pre post,
             crawlNum fuel url (parseInt (flagMaxDepth f))
                      (parseInt (flagMaxPages f)) (websiteOptions f b)
               = Some final /\
             evs = pre ++ map CliCrawl (trace final) ++
                   [CliSummary (pageVisitedCalls (trace final))
                               (onErrorCalls (trace final))
                               (JSSet.size (allEmails final))] ++ post /\
             crawlEvents pre = [] /\ summaries pre = [] /\
             crawlEvents post = [] /\ summaries post = []).
  { unfold websiteAction, crawlAndClose in E.
    destruct (flagBrowser f).
    - destruct (B eq_refl) as [b Eb].
      destruct (createBrowser (engines env)) as [fev r]. simpl in Eb. subst r.
      destruct (crawlNum fuel url _ _ _) as [final|] eqn:C; [|discriminate].
      rewrite (website_raised _ _ _ _ _ C) in *.
      injection E as <-.
      destruct (readings_factory fev) as (_ & _ & _ & F1 & F2 & _).
      exists (Some b), final, (map CliFactory fev). eexists.
      split; [exact C|]. split; [reflexivity|].
      repeat split; auto; destruct (browserCloseResult env); reflexivity.
    - destruct (crawlNum fuel url _ _ _) as [final|] eqn:C; [|discriminate].
      rewrite (website_raised _ _ _ _ _ C) in *.
      injection E as <-. exists None, final, [], [].
      split; [exact C|]. split; [reflexivity|]. repeat split; auto. }
  destruct K as (b & final & pre & post & C & -> & P1 & P2 & Q1 & Q2).
  destruct (readings_crawl (trace final)) as (_ & _ & R1 & R2).
  exists (pageVisitedCalls (trace final)), (onErrorCalls (trace final)),
         (JSSet.size (allEmails final)).
  rewrite !summaries_app, !crawlEvents_app, P1, P2, Q1, Q2, R1, R2.
  simpl. rewrite app_nil_r.
  split; [reflexivity|]. split; [reflexivity|]. split; [reflexivity|].
  destruct (website_crawl fuel url f b final C)
    as [[N ->]|(o & p & Ep & Mp & _ & V & Er & R)].
  - simpl. split; [reflexivity|]. intros p Ep _. congruence.
  - destruct (reachable_callbacks o url final R) as (_ & _ & A' & _ & A).
    rewrite Er in A'. rewrite V in A.
    assert (N : onPageVisitedReturns o).
    { intros cb Ecb hist u d k D0. rewrite V in Ecb. injection Ecb as <-.
      unfold websitePageVisited.
      destruct (Z.ltb_spec d 0); [lia | reflexivity]. }
    specialize (A N).
    assert (S : JSSet.size (visited final) = List.length (visits (trace final))).
    { rewrite (bk_visited _ _ (reachable_bookKeeping o url final R)).
      unfold JSSet.size. apply length_map. }
    split; [lia|].
    intros p' Ep' P0. rewrite Ep in Ep'. injection Ep' as <-.
    pose proof (reachable_budget o url final) as Bu. rewrite Mp in Bu.
    specialize (Bu P0 R). lia.
Qed.

Lemma website_summary_counts_witness :
  let env := mkEnv (mkEngines None None) None (fun _ => inr []) in
  let f := mkWebsiteFlags "3" "50" false false in
  exists evs,
    (@websiteAction Scenario.worldE 5 env "https://a.example/" f = Some evs /\
     flagBrowser f = false) /\
    exists pagesVisited errors total,
      summaries evs = [(pagesVisited, errors, total)] /\
      pagesVisited + errors = List.length (visits (crawlEvents evs)).
Proof.
  intros env f.
  destruct (@websiteAction Scenario.worldE 5 env "https://a.example/" f)
    as [evs|] eqn:E; [|vm_compute in E; discriminate].
  exists evs. split; [split; reflexivity|].
  destruct (@website_summary_counts Scenario.worldE 5 env
              "https://a.example/" f evs E)
    as (a & b & c & S & _ & _ & A & _); [discriminate|].
  exists a, b, c. split; assumption.
Defined.

(** X18.  The limits given on the command line are not checked.  A page
    limit that does not start with a number (NaN) makes the crawl do
    nothing: no event, a summary of zeros.  A depth limit that does not
    start with a number keeps the crawl on the start URL: nothing is pushed
    onto the frontier and no other URL reaches the platform. *)
Theorem website_unparsed_limits `{Platform} (fuel : nat) (env : Env)
        (url : string) (f : WebsiteFlags) (evs : list cliEvent) :
  websiteAction fuel env url f = Some evs ->
  (parseInt (flagMaxPages f) = None ->
   crawlEvents evs = [] /\
   forall s, In s (summaries evs) -> s = (0, 0, 0)) /\
  (parseInt (flagMaxDepth f) = None ->
   enqueued (crawlEvents evs) = [] /\
   forall u, In u (platformUrls (crawlEvents evs)) -> u = url).
Proof.
  intros E.
  assert (K : crawlEvents evs = [] /\ summaries evs = [] \/
              exists b final,
                crawlNum fuel url (parseInt (flagMaxDepth f))
                         (parseInt (flagMaxPages f)) (websiteOptions f b)
                  = Some final /\
                crawlEvents evs = trace final /\
                summaries evs = [(pageVisitedCalls (trace final),
                                  onErrorCalls (trace final),
                                  JSSet.size (allEmails final))]).
  { unfold websiteAction, crawlAndClose in E.
    destruct (flagBrowser f).
    - destruct (createBrowser (engines env)) as [fev [err|b]].
      + injection E as <-. left. split; now cli_simpl.
      + destruct (crawlNum fuel url _ _ _) as [final|] eqn:C; [|discriminate].
      rewrite (website_raised _ _ _ _ _ C) in *.
        injection E as <-. right. exists (Some b), final.
        split; [exact C|].
        split; cli_simpl; rewrite ?app_nil_r;
          destruct (browserCloseResult env); simpl; rewrite ?app_nil_r;
          reflexivity.
    - destruct (crawlNum fuel url _ _ _) as [final|] eqn:C; [|discriminate].
      rewrite (website_raised _ _ _ _ _ C) in *.
      injection E as <-. right. exists None, final.
      split; [exact C|]. split; cli_simpl; rewrite ?app_nil_r; reflexivity. }
  split.
  - intros N. destruct K as [[K1 K2]|(b & final & C & K1 & K2)].
    + rewrite K1, K2. split; [reflexivity | intros s []].
    + destruct (website_crawl fuel url f b final C)
        as [[_ ->]|(o & p & Ep & _)]; [|congruence].
      rewrite K1, K2. simpl. split; [reflexivity|].
      now intros s [<-|[]].
  - intros N. destruct K as [[K1 K2]|(b & final & C & K1 & K2)].
    + rewrite K1. simpl. split; [reflexivity | intros u []].
    + rewrite K1.
      destruct (website_crawl fuel url f b final C)
        as [[_ ->]|(o & p & _ & _ & D & _ & _ & R)].
      * simpl. split; [reflexivity | intros u []].
      * destruct (reachable_depth_zero o url final) as (A & B & _); auto.
        rewrite (D N). lia.
Qed.

Lemma website_unparsed_limits_witness :
  let env := mkEnv (mkEngines None None) None (fun _ => inr []) in
  let f := mkWebsiteFlags "3" "many" false false in
  exists evs,
    @websiteAction Scenario.worldE 5 env "https://a.example/" f = Some evs /\
    crawlEvents evs = [].
Proof.
  intros env f.
  destruct (@websiteAction Scenario.worldE 5 env "https://a.example/" f)
    as [evs|] eqn:E; [|vm_compute in E; discriminate].
  exists evs. split; [reflexivity|].
  apply (proj1 (@website_unparsed_limits Scenario.worldE 5 env
                  "https://a.example/" f evs E)).
  reflexivity.
Defined.

(** The [website] command comes to an end: for every platform,
    environment, URL and flags some amount of fuel yields its events. *)
Theorem website_returns `{Platform} (env : Env) (url : string)
        (f : WebsiteFlags) :
  exists fuel evs, websiteAction fuel env url f = Some evs.
Proof.
  unfold websiteAction, crawlAndClose.
  destruct (flagBrowser f).
  - destruct (createBrowser (engines env)) as [fev [err|b]].
    + exists 0. eauto.
    + destruct (crawlNum_returns url (parseInt (flagMaxDepth f))
                  (parseInt (flagMaxPages f)) (websiteOptions f (Some b)))
        as (fuel & final & E).
      exists fuel. rewrite E. eauto.
  - destruct (crawlNum_returns url (parseInt (flagMaxDepth f))
                (parseInt (flagMaxPages f)) (websiteOptions f None))
      as (fuel & final & E).
    exists fuel. rewrite E. eauto.
Qed.

(** X19.  The [page] command with the browser flag closes the browser
    exactly once whenever createBrowser returned one, on every path; but it
    closes the page only when the page was opened and scraping returned: a
    page whose scraping throws is left open. *)
Theorem page_closes_browser_not_page (env : Env) (url : string) (b : Browser) :
  snd (createBrowser (engines env)) = inr b ->
  browserCloses (pageAction env url true) = 1 /\
  pageCloses (pageAction env url true) =
    match b [] url with
    | inr ps => match scrapeResult ps with
                | inr _ => 1
                | inl _ => 0
                end
    | inl _ => 0
    end.
Proof.
  unfold pageAction, scrapeInPage.
  destruct (createBrowser (engines env)) as [fev r]. simpl. intros ->.
  destruct (readings_factory fev) as (F1 & F2 & _).
  destruct (b [] url) as [t|ps]; [|destruct (scrapeResult ps) as [t|emails]];
    cbv beta iota zeta; rewrite browserCloses_app, pageCloses_app, F1, F2;
    destruct (browserCloseResult env); try destruct (closeResult ps);
    split; reflexivity.
Qed.

Lemma page_closes_browser_not_page_witness :
  let failing : Browser := fun _ _ =>
    inr (mkPageScript None (inr "") (inl Scenario.networkError) None) in
  let env := mkEnv (mkEngines (Some (inr failing)) None) None
                   (fun _ => inr []) in
  snd (createBrowser (engines env)) = inr failing /\
  browserCloses (pageAction env "https://a.example/" true) = 1 /\
  pageCloses (pageAction env "https://a.example/" true) = 0.
Proof.
  intros failing env. split; [reflexivity|].
  apply (page_closes_browser_not_page env "https://a.example/" failing).
  reflexivity.
Defined.

(** X20.  The [page] command prints results or exits with code 1, never
    both and never neither: it prints the result set once exactly when
    nothing threw (createBrowser, newPage, the scraper, closing the page,
    closing the browser; or the HTTP scraper without the browser flag), and
    exits with code 1 otherwise. *)
Theorem page_results_or_failure (env : Env) (url : string)
        (useBrowserFlag : bool) :
  let evs := pageAction env url useBrowserFlag in
  (exitsWithFailure evs = true /\ printedResults evs = []) \/
  (exitsWithFailure evs = false /\ exists emails,
     printedResults evs = [emails] /\
     if useBrowserFlag
     then exists b ps,
            snd (createBrowser (engines env)) = inr b /\
            b [] url = inr ps /\ scrapeResult ps = inr emails /\
            closeResult ps = None /\ browserCloseResult env = None
     else scrapeUrlResult env url = inr emails).
Proof.
  unfold pageAction, scrapeInPage. destruct useBrowserFlag.
  - destruct (createBrowser (engines env)) as [fev [err|b]]; simpl.
    + left. split; now cli_simpl.
    + destruct (b [] url) as [t|ps] eqn:Eb.
      * left. split; cli_simpl; destruct (browserCloseResult env); reflexivity.
      * destruct (scrapeResult ps) as [t|emails] eqn:Es.
        -- left. split; cli_simpl; destruct (browserCloseResult env);
             reflexivity.
        -- destruct (browserCloseResult env) as [t|] eqn:Ec;
             [left; split; now cli_simpl|].
           destruct (closeResult ps) as [t|] eqn:Ep;
             [left; split; now cli_simpl|].
           right. split; [now cli_simpl|]. exists emails.
           split; [now cli_simpl|]. exists b, ps. auto.
  - destruct (scrapeUrlResult env url) as [t|emails] eqn:E; simpl.
    + left. auto.
    + right. split; [reflexivity|]. exists emails. auto.
Qed.

End CliFacts.
